(** * Pricing_Exotic_Options: analytic, Monte Carlo and Crank-Nicolson pricers

    A shallow embedding of the pricing routines of the repository (the report's
    Appendix B listings and the notebooks' code cells) and the proofs of the
    properties stated about them.

    Numbers.  Python floats and NumPy float64 arrays are modelled by the real
    numbers [R] and lists of reals: arithmetic is exact, so rounding, [inf]
    and [nan] have no counterpart here.  [np.log], [np.exp] and [np.sqrt] are
    the Standard Library's [ln], [exp] and [sqrt]; [scipy.stats.norm.cdf] is
    the standard normal distribution function, defined below by its power
    series.  Python exceptions are values of type [exn], and a function that
    can raise returns a [result].  NumPy's global random generator is an
    explicit state [rng] threaded through the simulators. *)

From Stdlib Require Import Reals Lra Lia String Factorial ZArith Bool List.
Import ListNotations.
Open Scope R_scope.

(** ** Exceptions and results *)

Inductive exn : Type :=
| ValueError (msg : string)
| ZeroDivisionError
| IndexError.

Inductive result (A : Type) : Type :=
| Ret (a : A)
| Raise (e : exn).

Arguments Ret {A} a.
Arguments Raise {A} e.

Definition bind {A B : Type} (m : result A) (k : A -> result B) : result B :=
  match m with
  | Ret a => k a
  | Raise e => Raise e
  end.

Notation "x <- m ;; k" := (bind m (fun x => k))
  (at level 61, m at next level, right associativity).

(** ** Comparisons as booleans *)

Definition Rleb (x y : R) : bool := if Rle_dec x y then true else false.
Definition Rltb (x y : R) : bool := if Rlt_dec x y then true else false.
Definition Rgeb (x y : R) : bool := Rleb y x.
Definition Reqb (x y : R) : bool := if Req_dec_T x y then true else false.

(** ** The standard normal distribution function

    [norm.cdf x = 1/2 + (1/sqrt(2 pi)) * sum_n (-1)^n x^(2n+1) / (2^n n! (2n+1))],
    the term-by-term integral of the density's exponential series.  The
    series converges for every [x] by d'Alembert's criterion. *)

Definition cdf_cof (n : nat) : R :=
  (-1) ^ n / (2 ^ n * INR (fact n) * INR (2 * n + 1)).

Lemma cdf_cof_no_R0 : forall n, cdf_cof n <> 0.
Proof.
  intro n. unfold cdf_cof.
  assert (H1 : (-1) ^ n <> 0) by (apply pow_nonzero; lra).
  assert (H2 : 2 ^ n <> 0) by (apply pow_nonzero; lra).
  assert (H3 : INR (fact n) <> 0) by apply INR_fact_neq_0.
  assert (H4 : INR (2 * n + 1) <> 0) by (apply not_0_INR; lia).
  unfold Rdiv. apply Rmult_integral_contrapositive_currified; auto.
  apply Rinv_neq_0_compat.
  repeat apply Rmult_integral_contrapositive_currified; auto.
Qed.

Lemma cdf_cof_ratio n :
  Rabs (cdf_cof (S n) / cdf_cof n) =
  INR (2 * n + 1) / (2 * INR (S n) * INR (2 * n + 3)).
Proof.
  unfold cdf_cof.
  assert (H2 : 2 ^ n <> 0) by (apply pow_nonzero; lra).
  assert (H1 : (-1) ^ n <> 0) by (apply pow_nonzero; lra).
  assert (H3 : INR (fact n) <> 0) by apply INR_fact_neq_0.
  assert (H4 : 0 < INR (2 * n + 1)) by (apply lt_0_INR; lia).
  assert (H5 : 0 < INR (2 * n + 3)) by (apply lt_0_INR; lia).
  assert (H6 : 0 < INR (S n)) by (apply lt_0_INR; lia).
  replace (2 * S n + 1)%nat with (2 * n + 3)%nat by lia.
  rewrite fact_simpl, mult_INR. simpl pow.
  replace (-1 * (-1) ^ n / (2 * 2 ^ n * (INR (S n) * INR (fact n)) * INR (2 * n + 3)) /
           ((-1) ^ n / (2 ^ n * INR (fact n) * INR (2 * n + 1))))
    with (- (INR (2 * n + 1) / (2 * INR (S n) * INR (2 * n + 3)))).
  2:{ field. repeat split; try lra; auto. }
  rewrite Rabs_Ropp. apply Rabs_pos_eq.
  apply Rlt_le. apply Rdiv_lt_0_compat; [lra|].
  apply Rmult_lt_0_compat; [lra|lra].
Qed.

Lemma Alembert_cdf : Un_cv (fun n => Rabs (cdf_cof (S n) / cdf_cof n)) 0.
Proof.
  intros eps Heps.
  destruct (archimed_cor1 eps Heps) as [N [HN HN0]].
  exists N. intros n Hn.
  unfold Rdist. rewrite Rminus_0_r, Rabs_Rabsolu, cdf_cof_ratio.
  assert (H4 : 0 < INR (2 * n + 1)) by (apply lt_0_INR; lia).
  assert (H5 : 0 < INR (2 * n + 3)) by (apply lt_0_INR; lia).
  assert (H6 : 0 < INR (S n)) by (apply lt_0_INR; lia).
  assert (H7 : INR (2 * n + 1) < INR (2 * n + 3)) by (apply lt_INR; lia).
  assert (H8 : / INR (S n) < / INR N).
  { apply Rinv_lt_contravar;
      [apply Rmult_lt_0_compat; [apply lt_0_INR; lia|lra]|apply lt_INR; lia]. }
  apply Rle_lt_trans with (/ INR (S n)); [|lra].
  apply Rmult_le_reg_r with (2 * INR (S n) * INR (2 * n + 3)).
  { apply Rmult_lt_0_compat; lra. }
  unfold Rdiv.
  rewrite Rmult_assoc, Rinv_l by (apply Rgt_not_eq; apply Rmult_lt_0_compat; lra).
  replace (/ INR (S n) * (2 * INR (S n) * INR (2 * n + 3)))
    with (2 * INR (2 * n + 3)) by (field; lra).
  lra.
Qed.

Definition cdf_series (y : R) : R :=
  proj1_sig (Alembert_C3 cdf_cof y cdf_cof_no_R0 Alembert_cdf).

Definition norm_cdf (x : R) : R :=
  1 / 2 + x * cdf_series (x * x) / sqrt (2 * PI).

(** ** Report, Appendix B: the Black-Scholes formula

<<
def black_scholes_price(S, K, T, r, sigma, option_type="call"):
    if T <= 0 or sigma <= 0 or S <= 0 or K <= 0:
        return 0.0
    d1 = (np.log(S / K) + (r + 0.5 * sigma**2) * T) / (sigma * np.sqrt(T))
    d2 = d1 - sigma * np.sqrt(T)
    if option_type == "call":
        return S * norm.cdf(d1) - K * np.exp(-r * T) * norm.cdf(d2)
    elif option_type == "put":
        return K * np.exp(-r * T) * norm.cdf(-d2) - S * norm.cdf(-d1)
    else:
        raise ValueError("option_type must be 'call' or 'put'")
>> *)

Definition bs_d1 (S K T r sigma : R) : R :=
  (ln (S / K) + (r + 0.5 * sigma ^ 2) * T) / (sigma * sqrt T).

Definition bs_d2 (S K T r sigma : R) : R :=
  bs_d1 S K T r sigma - sigma * sqrt T.

Definition black_scholes_price (S K T r sigma : R) (option_type : string)
  : result R :=
  if Rleb T 0 || Rleb sigma 0 || Rleb S 0 || Rleb K 0 then Ret 0
  else
    let d1 := bs_d1 S K T r sigma in
    let d2 := bs_d2 S K T r sigma in
    if (option_type =? "call")%string then
      Ret (S * norm_cdf d1 - K * exp (- r * T) * norm_cdf d2)
    else if (option_type =? "put")%string then
      Ret (K * exp (- r * T) * norm_cdf (- d2) - S * norm_cdf (- d1))
    else Raise (ValueError "option_type must be 'call' or 'put'").

(** ** Comparison notebook: the Black-Scholes formula

<<
def bsm_price(S, K, r, sigma, T, option_type="call"):
    if T == 0:
        return max(0, (S - K) if option_type == "call" else (K - S))
    d1 = (np.log(S/K) + (r + 0.5*sigma**2)*T) / (sigma*np.sqrt(T))
    d2 = d1 - sigma*np.sqrt(T)
    if option_type == "call":
        return S * norm.cdf(d1) - K * np.exp(-r*T) * norm.cdf(d2)
    else:
        return K * np.exp(-r*T) * norm.cdf(-d2) - S * norm.cdf(-d1)
>>
    Every flag other than ["call"] prices a put; nothing is validated. *)

Definition bsm_price (S K r sigma T : R) (option_type : string) : R :=
  if Reqb T 0 then
    Rmax 0 (if (option_type =? "call")%string then S - K else K - S)
  else
    let d1 := bs_d1 S K T r sigma in
    let d2 := bs_d2 S K T r sigma in
    if (option_type =? "call")%string then
      S * norm_cdf d1 - K * exp (- r * T) * norm_cdf d2
    else
      K * exp (- r * T) * norm_cdf (- d2) - S * norm_cdf (- d1).

(** ** NumPy arrays and reductions *)

(** A two-dimensional float array, stored by rows; [ncols] is the length of
    every row, so that the shape is known even when there are no rows. *)
Record ndarray2 : Type := mk_ndarray2 { ncols : nat; rows : list (list R) }.

Definition shape (a : ndarray2) : nat * nat := (length (rows a), ncols a).

Definition well_shaped (a : ndarray2) : Prop :=
  Forall (fun row => length row = ncols a) (rows a).

(** Elementwise application of a scalar expression. *)
Definition map_elems (f : R -> R) (a : ndarray2) : ndarray2 :=
  {| ncols := ncols a; rows := map (map f) (rows a) |}.

Definition Rsum (l : list R) : R := fold_right Rplus 0 l.

(** [np.cumsum] along a row. *)
Fixpoint cumsum_from (acc : R) (l : list R) : list R :=
  match l with
  | [] => []
  | x :: t => (acc + x) :: cumsum_from (acc + x) t
  end.

Definition cumsum (l : list R) : list R := cumsum_from 0 l.

(** [np.cumsum(a, axis=1)]. *)
Definition cumsum_axis1 (a : ndarray2) : ndarray2 :=
  {| ncols := ncols a; rows := map cumsum (rows a) |}.

(** [a[:, -1]]: the last column; an index error when there is no column. *)
Definition last_column (a : ndarray2) : result (list R) :=
  if (ncols a =? 0)%nat then Raise IndexError
  else Ret (map (fun row => last row 0) (rows a)).

(** [x.mean()].  For an empty array NumPy returns nan (with a warning);
    the quotient by zero has no meaning here either. *)
Definition np_mean (l : list R) : R := Rsum l / INR (length l).

(** [x.std(ddof=1)]: the root of the sum of squared deviations from the mean
    over [max(N - 1, 0)].  For an array of fewer than two entries the
    divisor is zero and NumPy returns nan (with a warning); the quotient by
    zero has no meaning here either, and the value of the half-width is
    stated for at least two paths. *)
Definition np_std_ddof1 (l : list R) : R :=
  sqrt (Rsum (map (fun x => (x - np_mean l) ^ 2) l) / INR (length l - 1)%nat).

(** [np.where(cond, 0, v)] and [np.where(cond, v, 0)]. *)
Definition where_zero_else (cond : list bool) (v : list R) : list R :=
  map (fun cv : bool * R => if fst cv then 0 else snd cv) (combine cond v).

Definition where_else_zero (cond : list bool) (v : list R) : list R :=
  map (fun cv : bool * R => if fst cv then snd cv else 0) (combine cond v).

(** [(a <= b).any(axis=1)] and [(a >= b).any(axis=1)]. *)
Definition any_le_axis1 (a : ndarray2) (b : R) : list bool :=
  map (existsb (fun s => Rleb s b)) (rows a).

Definition any_ge_axis1 (a : ndarray2) (b : R) : list bool :=
  map (existsb (fun s => Rgeb s b)) (rows a).

(** ** NumPy's global random generator

    The state is the sequence of standard normal draws still to come and the
    position reached in it.  [np.random.randn(N, M)] reads [N * M] draws in
    row-major order and advances the position. *)

Record rng : Type := mk_rng { draws : nat -> R; cursor : nat }.

Definition randn (N M : nat) (g : rng) : ndarray2 * rng :=
  ({| ncols := M;
      rows := map (fun i => map (fun k => draws g (cursor g + i * M + k)%nat)
                                (seq 0 M))
                  (seq 0 N) |},
   {| draws := draws g; cursor := (cursor g + N * M)%nat |}).

(** ** Barrier Monte Carlo notebook

<<
S0, K, r, sigma, T, M = 100, 100, 0.05, 0.20, 1.0, 252
B_d, B_u = 90, 110

def simulate_paths(S0, r, sigma, T, M, N):
    dt = T / M
    Z = np.random.randn(N, M)
    log_inc = (r - 0.5 * sigma**2) * dt + sigma * np.sqrt(dt) * Z
    log_paths = np.cumsum(log_inc, axis=1)
    return S0 * np.exp(log_paths)  # shape (N, M)
>> *)

Definition log_increment (r sigma dt z : R) : R :=
  (r - 0.5 * sigma ^ 2) * dt + sigma * sqrt dt * z.

Definition simulate_paths (S0 r sigma T : R) (M N : nat) (g : rng)
  : result (ndarray2 * rng) :=
  if (M =? 0)%nat then Raise ZeroDivisionError
  else
    let dt := T / INR M in
    let (Z, g') := randn N M g in
    let log_inc := map_elems (log_increment r sigma dt) Z in
    let log_paths := cumsum_axis1 log_inc in
    Ret (map_elems (fun x => S0 * exp x) log_paths, g').

(** The payoff functions read the notebook's globals [K], [B_d] and [B_u];
    the pricer reads [S0], [r], [sigma], [T] and [M].

<<
def vanilla_call(ST):
    return np.maximum(ST - K, 0)

def down_and_out(paths):
    knocked = (paths <= B_d).any(axis=1)
    return np.where(knocked, 0, vanilla_call(paths[:, -1]))

def up_and_out(paths):
    knocked = (paths >= B_u).any(axis=1)
    return np.where(knocked, 0, vanilla_call(paths[:, -1]))

def down_and_in(paths):
    knocked = (paths <= B_d).any(axis=1)
    return np.where(knocked, vanilla_call(paths[:, -1]), 0)

def up_and_in(paths):
    knocked = (paths >= B_u).any(axis=1)
    return np.where(knocked, vanilla_call(paths[:, -1]), 0)

def mc_price(payoff_fn, N=50_000):
    paths = simulate_paths(S0, r, sigma, T, M, N)
    payoff = np.exp(-r * T) * payoff_fn(paths)
    mean = payoff.mean()
    se = payoff.std(ddof=1) / np.sqrt(N)
    return mean, 1.96 * se  # half-width CI
>> *)

Section BarrierNotebook.

Variables S0 K r sigma T : R.
Variable M : nat.
Variables B_d B_u : R.

Definition vanilla_call (ST : list R) : list R :=
  map (fun s => Rmax (s - K) 0) ST.

Definition down_and_out (paths : ndarray2) : result (list R) :=
  let knocked := any_le_axis1 paths B_d in
  ST <- last_column paths ;;
  Ret (where_zero_else knocked (vanilla_call ST)).

Definition up_and_out (paths : ndarray2) : result (list R) :=
  let knocked := any_ge_axis1 paths B_u in
  ST <- last_column paths ;;
  Ret (where_zero_else knocked (vanilla_call ST)).

Definition down_and_in (paths : ndarray2) : result (list R) :=
  let knocked := any_le_axis1 paths B_d in
  ST <- last_column paths ;;
  Ret (where_else_zero knocked (vanilla_call ST)).

Definition up_and_in (paths : ndarray2) : result (list R) :=
  let knocked := any_ge_axis1 paths B_u in
  ST <- last_column paths ;;
  Ret (where_else_zero knocked (vanilla_call ST)).

(** The notebook's [lambda p: vanilla_call(p[:, -1])]. *)
Definition vanilla_payoff (paths : ndarray2) : result (list R) :=
  ST <- last_column paths ;;
  Ret (vanilla_call ST).

Definition mc_price (payoff_fn : ndarray2 -> result (list R)) (N : nat)
           (g : rng) : result (R * R * rng) :=
  pg <- simulate_paths S0 r sigma T M N g ;;
  raw <- payoff_fn (fst pg) ;;
  let payoff := map (fun p => exp (- r * T) * p) raw in
  let mean := np_mean payoff in
  let se := np_std_ddof1 payoff / sqrt (INR N) in
  Ret (mean, 1.96 * se, snd pg).

End BarrierNotebook.

(** ** Report, Appendix B: Monte Carlo pricing of European options

<<
def mc_european_price(S0, K, r, sigma, T, N_paths=100_000, N_steps=252,
                      is_call=True, seed=None):
    if seed is not None:
        np.random.seed(seed)
    dt = T / N_steps
    Z = np.random.randn(N_paths, N_steps)
    increments = (r - 0.5*sigma**2)*dt + sigma*np.sqrt(dt)*Z
    logS = np.cumsum(increments, axis=1)
    ST = S0 * np.exp(logS[:,-1])
    if is_call:
        payoff = np.maximum(ST - K, 0.0)
    else:
        payoff = np.maximum(K - ST, 0.0)
    discounted = np.exp(-r*T) * payoff
    price = discounted.mean()
    stderr = discounted.std(ddof=1) / np.sqrt(N_paths)
    ci_95 = 1.96 * stderr
    return price, ci_95
>> *)

Section SeededGenerator.

(** [np.random.seed(s)]: the generator state that NumPy derives from the
    seed [s]. *)
Variable np_random_seed : Z -> rng.

Definition reseed (seed : option Z) (g : rng) : rng :=
  match seed with
  | Some s => np_random_seed s
  | None => g
  end.

Definition european_payoff (K : R) (is_call : bool) (ST : list R) : list R :=
  if is_call then map (fun s => Rmax (s - K) 0) ST
  else map (fun s => Rmax (K - s) 0) ST.

Definition mc_european_price (S0 K r sigma T : R) (N_paths N_steps : nat)
           (is_call : bool) (seed : option Z) (g : rng)
  : result (R * R * rng) :=
  let g0 := reseed seed g in
  if (N_steps =? 0)%nat then Raise ZeroDivisionError
  else
    let dt := T / INR N_steps in
    let (Z, g1) := randn N_paths N_steps g0 in
    let increments := map_elems (log_increment r sigma dt) Z in
    let logS := cumsum_axis1 increments in
    lastS <- last_column logS ;;
    let ST := map (fun x => S0 * exp x) lastS in
    let payoff := european_payoff K is_call ST in
    let discounted := map (fun p => exp (- r * T) * p) payoff in
    let price := np_mean discounted in
    let stderr := np_std_ddof1 discounted / sqrt (INR N_paths) in
    let ci_95 := 1.96 * stderr in
    Ret (price, ci_95, g1).

(** Modelled from the spec: the arithmetic-Asian payoff and its Monte Carlo
    pricer.  The Greeks notebook imports [mc_arithmetic_asian_price] from
    [pricing.monte_carlo], which is not among the sources; the spec gives
    the payoff as max(+-(mean(S_t1..S_tM) - K), 0), the arithmetic mean
    running over the monitored columns, each payoff discounted by
    e^(-rT), the price their sample mean and the half-width 1.96 times
    the sample standard deviation over the root of the number of paths. *)
Definition arithmetic_asian_payoff (K : R) (is_call : bool)
           (paths : ndarray2) : list R :=
  map (fun row => if is_call then Rmax (np_mean row - K) 0
                  else Rmax (K - np_mean row) 0)
      (rows paths).

(** Modelled from the spec: see [arithmetic_asian_payoff]. *)
Definition mc_arithmetic_asian_price (S0 K r sigma T : R)
           (N_paths N_steps : nat) (is_call : bool) (seed : option Z)
           (g : rng) : result (R * R * rng) :=
  pg <- simulate_paths S0 r sigma T N_steps N_paths (reseed seed g) ;;
  let payoff := arithmetic_asian_payoff K is_call (fst pg) in
  let discounted := map (fun p => exp (- r * T) * p) payoff in
  Ret (np_mean discounted,
       1.96 * (np_std_ddof1 discounted / sqrt (INR N_paths)),
       snd pg).

End SeededGenerator.

(** ** Geometric-Asian notebook: Monte Carlo check of the closed form

<<
def mc_geo_asian_price(S0, K, r, T, sigma, n, N, call=True):
    dt = T / n
    Z = np.random.randn(N, n)
    log_paths = np.cumsum((r - 0.5 * sigma**2) * dt + sigma * np.sqrt(dt) * Z, axis=1)
    G = np.exp(np.log(S0) + log_paths).prod(axis=1) ** (1 / n)  # geometric avg
    payoff = np.maximum(G - K, 0) if call else np.maximum(K - G, 0)
    disc_payoff = np.exp(-r * T) * payoff
    est = disc_payoff.mean()
    se = disc_payoff.std(ddof=1) / np.sqrt(N)
    return est, 1.96 * se
>> *)

(** [x.prod()]. *)
Definition Rprod (l : list R) : R := fold_right Rmult 1 l.

Definition geo_asian_payoff (K : R) (call : bool) (G : list R) : list R :=
  if call then map (fun g => Rmax (g - K) 0) G
  else map (fun g => Rmax (K - g) 0) G.

Definition mc_geo_asian_price (S0 K r T sigma : R) (n N : nat) (call : bool)
           (g : rng) : result (R * R * rng) :=
  if (n =? 0)%nat then Raise ZeroDivisionError
  else
    let dt := T / INR n in
    let (Z, g') := randn N n g in
    let log_paths := cumsum_axis1 (map_elems (log_increment r sigma dt) Z) in
    let G := map (fun row => Rpower (Rprod row) (1 / INR n))
                 (rows (map_elems (fun x => exp (ln S0 + x)) log_paths)) in
    let payoff := geo_asian_payoff K call G in
    let disc_payoff := map (fun p => exp (- r * T) * p) payoff in
    let est := np_mean disc_payoff in
    let se := np_std_ddof1 disc_payoff / sqrt (INR N) in
    Ret (est, 1.96 * se, g').

(** ** PDE-versus-MC comparison notebook: the Reiner-Rubinstein closed form

<<
def down_and_out_call_rr(S0, K, r, sigma, T, B):
    if B >= S0:
        return 0.0  # knocked out immediately
    lambda_ = (r + 0.5 * sigma**2) / sigma**2
    x1 = np.log(S0 / K) / (sigma * np.sqrt(T)) + lambda_ * sigma * np.sqrt(T)
    x2 = np.log(S0 / B) / (sigma * np.sqrt(T)) + lambda_ * sigma * np.sqrt(T)
    y1 = np.log(B**2 / (S0 * K)) / (sigma * np.sqrt(T)) + lambda_ * sigma * np.sqrt(T)
    y2 = np.log(B / S0) / (sigma * np.sqrt(T)) + lambda_ * sigma * np.sqrt(T)
    A = S0 * norm.cdf(x1) - K * np.exp(-r * T) * norm.cdf(x1 - sigma * np.sqrt(T))
    B_term = S0 * (B / S0)**(2 * lambda_) * norm.cdf(y1)
    C_term = K * np.exp(-r * T) * (B / S0)**(2 * lambda_ - 2) * norm.cdf(y1 - sigma * np.sqrt(T))
    return A - B_term + C_term
>>
    [x2] and [y2] are computed and never used.  The float power is [Rpower]. *)

Definition down_and_out_call_rr (S0 K r sigma T B : R) : R :=
  if Rgeb B S0 then 0
  else
    let lambda_ := (r + 0.5 * sigma ^ 2) / sigma ^ 2 in
    let x1 := ln (S0 / K) / (sigma * sqrt T) + lambda_ * sigma * sqrt T in
    let y1 := ln (B ^ 2 / (S0 * K)) / (sigma * sqrt T)
              + lambda_ * sigma * sqrt T in
    let A := S0 * norm_cdf x1
             - K * exp (- r * T) * norm_cdf (x1 - sigma * sqrt T) in
    let B_term := S0 * Rpower (B / S0) (2 * lambda_) * norm_cdf y1 in
    let C_term := K * exp (- r * T) * Rpower (B / S0) (2 * lambda_ - 2)
                  * norm_cdf (y1 - sigma * sqrt T) in
    A - B_term + C_term.

(** ** PDE-versus-MC comparison notebook: Monte Carlo with daily monitoring

<<
def mc_do_call(S0, K, r, sigma, T, B, M=252, N=100_000, seed=42):
    rng = np.random.default_rng(seed)
    dt  = T/M
    t    = np.linspace(0, T, M+1)
    pay = np.zeros(N)
    for i in range(N):
        Z = rng.standard_normal(M)
        W = np.concatenate(([0], np.cumsum(Z)*np.sqrt(dt)))
        S = S0*np.exp((r-0.5*sigma**2)*t + sigma*W)
        pay[i] = 0.0 if S.min()<=B else max(S[-1]-K,0.0)
    return np.exp(-r*T)*pay.mean()
>>
    Here the monitored path starts with the initial price, [S[0] = S0].  The
    generator is local to the call; pass [i] of the loop reads the draws
    that make up row [i] of an N x M block. *)

(** [np.linspace(0, Smax, n + 1)]. *)
Definition linspace0 (Smax : R) (n : nat) : list R :=
  map (fun i => INR i * (Smax / INR n)) (seq 0 (n + 1)).

(** [x.min()] of an array that is not empty. *)
Definition np_min (l : list R) : R :=
  match l with
  | [] => 0
  | x :: t => fold_left Rmin t x
  end.

Section LocalGenerator.

(** [np.random.default_rng(s)]: the generator that NumPy builds from the
    seed [s]. *)
Variable default_rng : Z -> rng.

Definition mc_do_call_path (S0 K r sigma T B : R) (M : nat) (Z : list R) : R :=
  let dt := T / INR M in
  let t := linspace0 T M in
  let W := 0 :: map (fun c => c * sqrt dt) (cumsum Z) in
  let S := map (fun tw : R * R =>
                  S0 * exp ((r - 0.5 * sigma ^ 2) * fst tw + sigma * snd tw))
               (combine t W) in
  if Rleb (np_min S) B then 0 else Rmax (last S 0 - K) 0.

Definition mc_do_call (S0 K r sigma T B : R) (M N : nat) (seed : Z)
  : result R :=
  let g := default_rng seed in
  if (M =? 0)%nat then Raise ZeroDivisionError
  else
    let pay := map (mc_do_call_path S0 K r sigma T B M)
                   (rows (fst (randn N M g))) in
    Ret (exp (- r * T) * np_mean pay).

End LocalGenerator.

(** ** Python indexing on a one-dimensional array *)

(** [int(x)]: truncation towards zero. *)
Definition py_int (x : R) : Z := if Rle_dec 0 x then Zfloor x else Zceil x.

(** The position that index [i] denotes in an array of length [len]:
    negative indices count from the end, anything else is an index error. *)
Definition py_index (len : nat) (i : Z) : result nat :=
  if ((0 <=? i) && (i <? Z.of_nat len))%Z then Ret (Z.to_nat i)
  else if ((i <? 0) && (- Z.of_nat len <=? i))%Z
       then Ret (Z.to_nat (Z.of_nat len + i))
       else Raise IndexError.

Fixpoint set_nth (k : nat) (v : R) (l : list R) : list R :=
  match l, k with
  | [], _ => []
  | _ :: t, O => v :: t
  | x :: t, S k' => x :: set_nth k' v t
  end.

(** [V[i] = v]. *)
Definition setitem (V : list R) (i : Z) (v : R) : result (list R) :=
  k <- py_index (length V) i ;;
  Ret (set_nth k v V).

(** The number of leading entries that the slice [V[:k]] selects. *)
Definition slice_stop (len : nat) (k : Z) : nat :=
  if (0 <=? k)%Z then Nat.min (Z.to_nat k) len
  else Z.to_nat (Z.max 0 (Z.of_nat len + k)).

(** [V[:k] = v]. *)
Definition set_prefix (V : list R) (k : Z) (v : R) : list R :=
  let n := slice_stop (length V) k in
  repeat v n ++ skipn n V.

(** [V[1:-1]] and [V[1:-1] = x] (for [x] of the slice's length). *)
Definition interior (V : list R) : list R := removelast (tl V).

Definition set_interior (V x : list R) : list R :=
  hd 0 V :: x ++ [last V 0].

(** ** Tridiagonal matrices

    [scipy.sparse.diags([lo, di, up], offsets=[-1, 0, 1])]: [di] has one
    entry per row, [lo] and [up] one entry less; [lo[i]] sits in row [i+1],
    [up[i]] in row [i]. *)
Record tridiag : Type :=
  diags { lower : list R; diagonal : list R; upper : list R }.

(** [A.dot(x)].  The three diagonals are aligned by row ([a] starts and [c]
    ends with a zero); [xprev] is the entry of [x] before the current row. *)
Fixpoint dot_rows (xprev : R) (a b c xs : list R) : list R :=
  match a, b, c, xs with
  | ai :: a', bi :: b', ci :: c', x :: xs' =>
      (ai * xprev + bi * x + ci * hd 0 xs') :: dot_rows x a' b' c' xs'
  | _, _, _, _ => []
  end.

Definition tridiag_dot (A : tridiag) (x : list R) : list R :=
  dot_rows 0 (0 :: lower A) (diagonal A) (upper A ++ [0]) x.

(** [spsolve(A, rhs)] and [solve_banded((1, 1), A, rhs)] for a tridiagonal
    [A]: elimination of the lower diagonal from the first row down, then
    back substitution ([spsolve_correct] below: the result solves the
    system whenever no pivot vanishes).  [a], [b], [c] are the three
    diagonals aligned by row ([a] starts and [c] ends with a zero); the
    pair carried along is the eliminated row's upper coefficient and
    right-hand side. *)
Fixpoint eliminate (a b c d : list R) (cp dp : R) : list (R * R) :=
  match a, b, c, d with
  | ai :: a', bi :: b', ci :: c', di :: d' =>
      let m := bi - ai * cp in
      let cn := ci / m in
      let dn := (di - ai * dp) / m in
      (cn, dn) :: eliminate a' b' c' d' cn dn
  | _, _, _, _ => []
  end.

Fixpoint back_substitute (cd : list (R * R)) : list R :=
  match cd with
  | [] => []
  | (cn, dn) :: rest =>
      let xs := back_substitute rest in
      (dn - cn * hd 0 xs) :: xs
  end.

Definition spsolve (A : tridiag) (rhs : list R) : list R :=
  back_substitute
    (eliminate (0 :: lower A) (diagonal A) (upper A ++ [0]) rhs 0 0).

(** The pivots met by the elimination; the solver divides by each. *)
Fixpoint pivots_nonzero (a b c : list R) (cp : R) : Prop :=
  match a, b, c with
  | ai :: a', bi :: b', ci :: c' =>
      bi - ai * cp <> 0 /\ pivots_nonzero a' b' c' (ci / (bi - ai * cp))
  | _, _, _ => True
  end.

Definition nonsingular (A : tridiag) : Prop :=
  pivots_nonzero (0 :: lower A) (diagonal A) (upper A ++ [0]) 0.

(** [np.interp(x, xp, fp)] for increasing [xp]: the end values outside the
    grid, linear between two neighbouring nodes. *)
Fixpoint interp_from (x x0 f0 : R) (xp fp : list R) : R :=
  match xp, fp with
  | x1 :: xp', f1 :: fp' =>
      if Rleb x x1 then f0 + (x - x0) * ((f1 - f0) / (x1 - x0))
      else interp_from x x1 f1 xp' fp'
  | _, _ => f0
  end.

Definition np_interp (x : R) (xp fp : list R) : R :=
  match xp, fp with
  | x0 :: xp', f0 :: fp' =>
      if Rleb x x0 then f0 else interp_from x x0 f0 xp' fp'
  | _, _ => 0
  end.

(** A [for n in range(count)] loop over an array, started at [n = start]. *)
Fixpoint for_range (body : nat -> list R -> result (list R))
         (start count : nat) (V : list R) : result (list R) :=
  match count with
  | O => Ret V
  | S c => V' <- body start V ;; for_range body (S start) c V'
  end.

(** ** PDE-versus-MC comparison notebook: the Crank-Nicolson barrier solver

<<
def pde_do_call_cn(S0, K, r, sigma, T, B, Smax=400, N_S=400, N_t=800):
    dS = Smax/N_S
    dt = T/N_t
    S_grid = np.linspace(0, Smax, N_S+1)
    jB = int(B/dS)    # barrier node

    # build CN matrices
    j = np.arange(1, N_S)
    alpha = 0.25*dt*(sigma**2*j**2 - r*j)
    beta  = -0.5*dt*(sigma**2*j**2 + r)
    gamma = 0.25*dt*(sigma**2*j**2 + r*j)

    M1 = diags([-alpha[1:], 1-beta, -gamma[:-1]], offsets=[-1,0,1]).tocsc()
    M2 = diags([ alpha[1:], 1+beta,  gamma[:-1]], offsets=[-1,0,1]).tocsc()

    # terminal payoff
    V = np.maximum(S_grid - K, 0.0)
    V[:jB+1] = 0.0

    # time-marching backward
    for n in range(N_t):
        # enforce absorbing barrier
        V[0]     = 0.0
        V[jB]    = 0.0
        # far boundary: linear payoff approx
        V[-1]    = Smax - K*np.exp(-r*(T - n*dt))
        rhs      = M2.dot(V[1:-1])
        V[1:-1]  = spsolve(M1, rhs)

    # interpolate to S0
    return np.interp(S0, S_grid, V)
>>
    The divisions raise ZeroDivisionError for [N_S = 0], [N_t = 0] and
    [Smax = 0].  With [N_S = 1] there is no interior node, and
    [scipy.sparse.diags] rejects the empty main diagonal of its 1 x 1
    matrix with a ValueError. *)

Definition cn_alpha (r sigma dt : R) (j : nat) : R :=
  0.25 * dt * (sigma ^ 2 * INR j ^ 2 - r * INR j).

Definition cn_beta (r sigma dt : R) (j : nat) : R :=
  - 0.5 * dt * (sigma ^ 2 * INR j ^ 2 + r).

Definition cn_gamma (r sigma dt : R) (j : nat) : R :=
  0.25 * dt * (sigma ^ 2 * INR j ^ 2 + r * INR j).

Module ComparisonNotebook.

Section PdeDoCallCn.

Variables S0 K r sigma T B Smax : R.
Variables N_S N_t : nat.

Definition dS : R := Smax / INR N_S.
Definition dt : R := T / INR N_t.
Definition S_grid : list R := linspace0 Smax N_S.
Definition jB : Z := py_int (B / dS).

Definition j : list nat := seq 1 (N_S - 1).
Definition alpha : list R := map (cn_alpha r sigma dt) j.
Definition beta : list R := map (cn_beta r sigma dt) j.
Definition gamma : list R := map (cn_gamma r sigma dt) j.

Definition M1 : tridiag :=
  diags (map Ropp (tl alpha))
        (map (fun b => 1 - b) beta)
        (map Ropp (removelast gamma)).

Definition M2 : tridiag :=
  diags (tl alpha)
        (map (fun b => 1 + b) beta)
        (removelast gamma).

(** The value array at maturity, after [V[:jB+1] = 0.0]. *)
Definition terminal : list R :=
  set_prefix (map (fun s => Rmax (s - K) 0) S_grid) (jB + 1) 0.

(** The three assignments that open the loop body. *)
Definition enforce (n : nat) (V : list R) : result (list R) :=
  V1 <- setitem V 0 0 ;;
  V2 <- setitem V1 jB 0 ;;
  setitem V2 (-1) (Smax - K * exp (- r * (T - INR n * dt))).

(** One pass through the loop body. *)
Definition step (n : nat) (V : list R) : result (list R) :=
  V3 <- enforce n V ;;
  let rhs := tridiag_dot M2 (interior V3) in
  Ret (set_interior V3 (spsolve M1 rhs)).

(** The value array after the first [k] backward time steps. *)
Definition march (k : nat) : result (list R) :=
  if (N_S =? 0)%nat then Raise ZeroDivisionError
  else if (N_t =? 0)%nat then Raise ZeroDivisionError
  else if Reqb dS 0 then Raise ZeroDivisionError
  else if (N_S =? 1)%nat then
    Raise (ValueError "Diagonal length does not agree with matrix size")
  else for_range step 0 k terminal.

Definition pde_do_call_cn : result R :=
  V <- march N_t ;;
  Ret (np_interp S0 S_grid V).

End PdeDoCallCn.

End ComparisonNotebook.

(** ** Crank-Nicolson barrier notebook

<<
def crank_nicolson_barrier(S0, K, r, sigma, T, B, Smax, N_S, N_t):
    dS = Smax / N_S
    dt = T / N_t
    S = np.linspace(0, Smax, N_S + 1)

    # terminal payoff and barrier enforcement
    V = np.maximum(S - K, 0)
    V[S < B] = 0

    # precompute coefficients for interior nodes
    i = np.arange(1, N_S)
    a = 0.25 * dt * (sigma**2 * i**2 - r * i)
    b = -0.5 * dt * (sigma**2 * i**2 + r)
    c = 0.25 * dt * (sigma**2 * i**2 + r * i)

    # build banded matrices A (LHS) and Bm (RHS)
    A = np.zeros((3, N_S - 1))
    Bm = np.zeros((3, N_S - 1))

    A[0, 1:] = -c[:-1]  # upper diagonal
    A[1, :] = 1 - b  # main diagonal
    A[2, :-1] = -a[1:]  # lower diagonal

    Bm[0, 1:] = c[:-1]
    Bm[1, :] = 1 + b
    Bm[2, :-1] = a[1:]

    # step backwards in time
    for n in range(N_t):
        t = T - n * dt
        rhs = Bm[0] * V[2:] + Bm[1] * V[1:-1] + Bm[2] * V[:-2]

        # left BC at S=0: V=0 -> no extra term (rhs[0] -= a[0]*0)
        # right BC at S=Smax: Dirichlet payoff at that node
        bc_val = Smax - K * np.exp(-r * (t - dt))
        rhs[-1] -= c[-1] * bc_val

        # solve tridiagonal system A · V_new = rhs
        V[1:-1] = solve_banded((1, 1), A, rhs)

        # enforce barrier and boundaries
        V[S < B] = 0
        V[0] = 0
        V[-1] = bc_val

    # interpolate to S0
    return float(np.interp(S0, S, V))

def rr_down_out_call(S0, K, B, r, T, sigma):
    if not (0 < B < S0):
        raise ValueError("Barrier B must satisfy 0 < B < S0")

    # auxiliary parameters
    mu = (r + 0.5 * sigma**2) / sigma**2
    sigmaT = sigma * np.sqrt(T)
    lnSB = np.log(S0 / B)
    lnB2SK = np.log(B * B / (S0 * K))

    # d-terms
    d1 = (lnSB + mu * sigmaT**2) / sigmaT
    d2 = d1 - sigmaT
    y1 = (lnB2SK + mu * sigmaT**2) / sigmaT
    y2 = y1 - sigmaT

    # components A and B
    A = S0 * norm.cdf(d1) - K * np.exp(-r * T) * norm.cdf(d2)
    Bterm = S0 * (B / S0) ** (2 * mu) * norm.cdf(y1) - K * np.exp(-r * T) * (
        B / S0
    ) ** (2 * mu - 2) * norm.cdf(y2)

    return A - Bterm
>> *)

Module CrankNicolsonNotebook.

(** [V[S < B] = 0]. *)
Definition zero_below (B : R) (S V : list R) : list R :=
  map (fun sv : R * R => if Rltb (fst sv) B then 0 else snd sv)
      (combine S V).

(** The elementwise product of two rows. *)
Definition row_mul (x y : list R) : list R :=
  map (fun p : R * R => fst p * snd p) (combine x y).

Definition row_add (x y : list R) : list R :=
  map (fun p : R * R => fst p + snd p) (combine x y).

(** [rhs[-1] -= v]. *)
Definition sub_last (rhs : list R) (v : R) : result (list R) :=
  match rhs with
  | [] => Raise IndexError
  | _ => Ret (removelast rhs ++ [last rhs 0 - v])
  end.

Section Solver.

Variables S0 K r sigma T B Smax : R.
Variables N_S N_t : nat.

Definition dS : R := Smax / INR N_S.
Definition dt : R := T / INR N_t.
Definition S : list R := linspace0 Smax N_S.

Definition terminal : list R :=
  zero_below B S (map (fun s => Rmax (s - K) 0) S).

Definition i : list nat := seq 1 (N_S - 1).
Definition a : list R := map (cn_alpha r sigma dt) i.
Definition b : list R := map (cn_beta r sigma dt) i.
Definition c : list R := map (cn_gamma r sigma dt) i.

(** The banded storage holds the upper diagonal shifted right by one
    and the lower diagonal padded at the end; the matrix it denotes has
    [-a[1:]] below, [1 - b] on and [-c[:-1]] above the diagonal. *)
Definition A : tridiag :=
  diags (map Ropp (tl a)) (map (fun x => 1 - x) b)
        (map Ropp (removelast c)).

Definition Bm0 : list R :=
  match c with [] => [] | _ => 0 :: removelast c end.
Definition Bm1 : list R := map (fun x => 1 + x) b.
Definition Bm2 : list R :=
  match a with [] => [] | _ => tl a ++ [0] end.

Definition bc_val (n : nat) : R :=
  Smax - K * exp (- r * ((T - INR n * dt) - dt)).

Definition step (n : nat) (V : list R) : result (list R) :=
  let rhs0 := row_add (row_add (row_mul Bm0 (skipn 2 V))
                               (row_mul Bm1 (interior V)))
                      (row_mul Bm2 (removelast (removelast V))) in
  rhs <- sub_last rhs0 (last c 0 * bc_val n) ;;
  let V1 := set_interior V (spsolve A rhs) in
  let V2 := zero_below B S V1 in
  V3 <- setitem V2 0 0 ;;
  setitem V3 (-1) (bc_val n).

(** The value array after the first [k] backward time steps. *)
Definition march (k : nat) : result (list R) :=
  if (N_S =? 0)%nat then Raise ZeroDivisionError
  else if (N_t =? 0)%nat then Raise ZeroDivisionError
  else for_range step 0 k terminal.

Definition crank_nicolson_barrier : result R :=
  V <- march N_t ;;
  Ret (np_interp S0 S V).

End Solver.

(** The closed form of this notebook rejects a barrier outside (0, S0)
    before it computes anything. *)
Definition rr_down_out_call (S0 K B r T sigma : R) : result R :=
  if negb (Rltb 0 B && Rltb B S0) then
    Raise (ValueError "Barrier B must satisfy 0 < B < S0")
  else
    let mu := (r + 0.5 * sigma ^ 2) / sigma ^ 2 in
    let sigmaT := sigma * sqrt T in
    let lnSB := ln (S0 / B) in
    let lnB2SK := ln (B * B / (S0 * K)) in
    let d1 := (lnSB + mu * sigmaT ^ 2) / sigmaT in
    let d2 := d1 - sigmaT in
    let y1 := (lnB2SK + mu * sigmaT ^ 2) / sigmaT in
    let y2 := y1 - sigmaT in
    let A := S0 * norm_cdf d1 - K * exp (- r * T) * norm_cdf d2 in
    let Bterm := S0 * Rpower (B / S0) (2 * mu) * norm_cdf y1
                 - K * exp (- r * T) * Rpower (B / S0) (2 * mu - 2)
                   * norm_cdf y2 in
    Ret (A - Bterm).

End CrankNicolsonNotebook.

(** The guard of [black_scholes_price]. *)
Definition degenerate (S K T sigma : R) : bool :=
  Rleb T 0 || Rleb sigma 0 || Rleb S 0 || Rleb K 0.

(** ** The estimators in the words of the specification

    The sample mean, and the sample standard deviation with the divisor
    N - 1. *)

Definition sample_mean (l : list R) : R := Rsum l / INR (length l).

Definition sample_std (l : list R) : R :=
  sqrt (Rsum (map (fun x => (x - sample_mean l) ^ 2) l) / (INR (length l) - 1)).

(** The payoff functions that the barrier notebook prices, in the order of
    its pricing loop: vanilla, down-and-out, up-and-out, down-and-in,
    up-and-in. *)
Definition notebook_payoffs (K B_d B_u : R)
  : list (ndarray2 -> result (list R)) :=
  [vanilla_payoff K; down_and_out K B_d; up_and_out K B_u;
   down_and_in K B_d; up_and_in K B_u].

(** ** Barrier Monte Carlo notebook: the Reiner-Rubinstein closed form

<<
def rr_down_out_call(S0, K, B, r, T, sigma):
    if B >= K or B <= 0:
        raise ValueError("Barrier must be below strike & positive.")
    lam = (r + 0.5 * sigma**2) / sigma**2
    x1 = np.log(S0 / B) / (sigma * np.sqrt(T)) + lam * sigma * np.sqrt(T)
    y1 = np.log(B**2 / (S0 * K)) / (sigma * np.sqrt(T)) + lam * sigma * np.sqrt(T)
    x2 = x1 - sigma * np.sqrt(T)
    y2 = y1 - sigma * np.sqrt(T)
    A = S0 * norm.cdf(x1) - K * np.exp(-r * T) * norm.cdf(x2)
    B_ = S0 * (B / S0) ** (2 * lam) * norm.cdf(y1) - K * np.exp(-r * T) * (B / S0) ** (
        2 * lam - 2
    ) * norm.cdf(y2)
    return A - B_
>>
    The guard of this notebook compares the barrier with the strike and with
    zero, not with the spot.  The quotients of the formula are not guarded
    (a zero [sigma] or [S0] is a ZeroDivisionError in Python); the
    properties below take [S0], [T] and [sigma] positive. *)

Module BarrierNotebookClosedForm.

Definition rr_down_out_call (S0 K B r T sigma : R) : result R :=
  if Rgeb B K || Rleb B 0 then
    Raise (ValueError "Barrier must be below strike & positive.")
  else
    let lam := (r + 0.5 * sigma ^ 2) / sigma ^ 2 in
    let x1 := ln (S0 / B) / (sigma * sqrt T) + lam * sigma * sqrt T in
    let y1 := ln (B ^ 2 / (S0 * K)) / (sigma * sqrt T)
              + lam * sigma * sqrt T in
    let x2 := x1 - sigma * sqrt T in
    let y2 := y1 - sigma * sqrt T in
    let A := S0 * norm_cdf x1 - K * exp (- r * T) * norm_cdf x2 in
    let B_ := S0 * Rpower (B / S0) (2 * lam) * norm_cdf y1
              - K * exp (- r * T) * Rpower (B / S0) (2 * lam - 2)
                * norm_cdf y2 in
    Ret (A - B_).

End BarrierNotebookClosedForm.

(** ** Geometric-Asian notebook: the Kemna-Vorst closed form

<<
def kemna_vorst_geo_asian(S0, K, T, r, sigma, n=50, call=True):
    sigma_hat = sigma * np.sqrt((2 * n + 1) / (6 * (n + 1)))
    mu_hat = 0.5 * (r - 0.5 * sigma**2) + 0.5 * sigma_hat**2

    d1 = (np.log(S0 / K) + (mu_hat + 0.5 * sigma_hat**2) * T) / (sigma_hat * np.sqrt(T))
    d2 = d1 - sigma_hat * np.sqrt(T)

    disc = np.exp(-r * T)
    if call:
        price = disc * (S0 * np.exp(mu_hat * T) * norm.cdf(d1) - K * norm.cdf(d2))
    else:
        price = disc * (K * norm.cdf(-d2) - S0 * np.exp(mu_hat * T) * norm.cdf(-d1))
    return price
>>
    The number of fixings [n] is a natural number here.  The quotients are
    not guarded (a zero [K] is a ZeroDivisionError in Python); the
    properties below take [S0], [K], [T] and [sigma] positive. *)

Definition kv_sigma_hat (sigma : R) (n : nat) : R :=
  sigma * sqrt (INR (2 * n + 1) / INR (6 * (n + 1))).

Definition kv_mu_hat (r sigma : R) (n : nat) : R :=
  0.5 * (r - 0.5 * sigma ^ 2) + 0.5 * kv_sigma_hat sigma n ^ 2.

Definition kemna_vorst_geo_asian (S0 K T r sigma : R) (n : nat) (call : bool)
  : R :=
  let sigma_hat := kv_sigma_hat sigma n in
  let mu_hat := kv_mu_hat r sigma n in
  let d1 := (ln (S0 / K) + (mu_hat + 0.5 * sigma_hat ^ 2) * T)
            / (sigma_hat * sqrt T) in
  let d2 := d1 - sigma_hat * sqrt T in
  let disc := exp (- r * T) in
  if call then
    disc * (S0 * exp (mu_hat * T) * norm_cdf d1 - K * norm_cdf d2)
  else
    disc * (K * norm_cdf (- d2) - S0 * exp (mu_hat * T) * norm_cdf (- d1)).

(** ** Calibration notebook: bracketing a root

<<
def find_bracket(func, low=1e-4, high=1.0, factor=2.0, max_high=100.0):
    f_low, f_high = func(low), func(high)
    while f_low * f_high > 0:
        high *= factor
        if high > max_high:
            raise ValueError(
                f"Cannot bracket root: f({low})={f_low}, f({high})={f_high}"
            )
        f_high = func(high)
    return low, high
>>
    The [while] loop is unrolled at most [fuel] times; [None] says that the
    fuel ran out before the loop ended.  The objective functions of the
    notebook reseed their generator at every call, so [func] is a function
    of its argument alone.  The numbers that the message of the ValueError
    formats are left out of it. *)

Fixpoint find_bracket_loop (fuel : nat) (func : R -> R)
         (f_low high factor max_high f_high : R) : option (result R) :=
  match fuel with
  | O => None
  | S fuel' =>
      if Rltb 0 (f_low * f_high) then
        let high' := high * factor in
        if Rltb max_high high' then
          Some (Raise (ValueError "Cannot bracket root"))
        else
          find_bracket_loop fuel' func f_low high' factor max_high (func high')
      else Some (Ret high)
  end.

Definition find_bracket (fuel : nat) (func : R -> R)
           (low high factor max_high : R) : option (result (R * R)) :=
  match find_bracket_loop fuel func (func low) high factor max_high
                          (func high) with
  | Some (Ret h) => Some (Ret (low, h))
  | Some (Raise e) => Some (Raise e)
  | None => None
  end.

(** ** Greeks notebook: the barrier pricer and the bump-and-revalue Greeks

<<
def mc_barrier_down_out_call(S0, K, r, sigma, T, B, N_paths, M, seed=None):
    if seed is not None:
        np.random.seed(seed)
    dt = T / M
    payoffs = []
    for _ in range(N_paths):
        increments = (r - 0.5 * sigma**2) * dt + sigma * np.sqrt(
            dt
        ) * np.random.randn(M)
        S_path = S0 * np.exp(np.cumsum(increments))
        if np.min(S_path) <= B:
            payoffs.append(0.0)
        else:
            payoffs.append(max(S_path[-1] - K, 0.0))
    discounted = np.exp(-r * T) * np.array(payoffs)
    price = discounted.mean()
    stderr = discounted.std(ddof=1) / np.sqrt(N_paths)
    ci95 = 1.96 * stderr
    return price, ci95

def compute_greeks(price_func, S0, bump, **kwargs):
    base, _ = price_func(S0, **kwargs)
    up, _ = price_func(S0 + bump, **kwargs)
    down, _ = price_func(S0 - bump, **kwargs)
    delta = (up - down) / (2 * bump)
    gamma = (up - 2 * base + down) / (bump**2)
    return delta, gamma

def price_barrier(S0, **kwargs):
    return mc_barrier_down_out_call(S0, B=90, **kwargs)
>>
    Pass [i] of the pricing loop reads the [M] draws that make up row [i] of
    an [N_paths] x [M] block.  A price function is called with the
    generator state that the previous call left and may raise; the keyword
    arguments are part of the closure. *)

Section GreeksNotebook.

Variable np_random_seed : Z -> rng.

(** The body of the pricing loop: the payoff of the path built from the
    draws [Z]. *)
Definition mc_barrier_path (S0 K r sigma T B : R) (M : nat) (Z : list R) : R :=
  let dt := T / INR M in
  let increments := map (log_increment r sigma dt) Z in
  let S_path := map (fun x => S0 * exp x) (cumsum increments) in
  if Rleb (np_min S_path) B then 0 else Rmax (last S_path 0 - K) 0.

Definition mc_barrier_down_out_call (S0 K r sigma T B : R) (N_paths M : nat)
           (seed : option Z) (g : rng) : result (R * R * rng) :=
  let g0 := reseed np_random_seed seed g in
  if (M =? 0)%nat then Raise ZeroDivisionError
  else
    let (Z, g1) := randn N_paths M g0 in
    let payoffs := map (mc_barrier_path S0 K r sigma T B M) (rows Z) in
    let discounted := map (fun p => exp (- r * T) * p) payoffs in
    let price := np_mean discounted in
    let stderr := np_std_ddof1 discounted / sqrt (INR N_paths) in
    let ci95 := 1.96 * stderr in
    Ret (price, ci95, g1).

Definition price_barrier (S0 K r sigma T : R) (N_paths M : nat)
           (seed : option Z) (g : rng) : result (R * R * rng) :=
  mc_barrier_down_out_call S0 K r sigma T 90 N_paths M seed g.

End GreeksNotebook.

Definition compute_greeks (price_func : R -> rng -> result (R * R * rng))
           (S0 bump : R) (g : rng) : result (R * R * rng) :=
  b <- price_func S0 g ;;
  u <- price_func (S0 + bump) (snd b) ;;
  d <- price_func (S0 - bump) (snd u) ;;
  let base := fst (fst b) in
  let up := fst (fst u) in
  let down := fst (fst d) in
  let delta := (up - down) / (2 * bump) in
  let gamma := (up - 2 * base + down) / bump ^ 2 in
  Ret (delta, gamma, snd d).

(** ** Comparison notebook: Monte Carlo pricing of European options

<<
def mc_price_european(S0, K, r, sigma, T, M=100_000, N=100, option_type="call", seed=42):
    np.random.seed(seed)
    dt = T / N
    S = np.zeros((M, N + 1))
    S[:, 0] = S0
    for t in range(1, N + 1):
        Z = np.random.normal(size=M)
        S[:, t] = S[:, t-1] * np.exp((r - 0.5*sigma**2)*dt + sigma*np.sqrt(dt)*Z)

    ST = S[:, -1]
    payoff = np.maximum(ST - K, 0) if option_type == "call" else np.maximum(K - ST, 0)
    price = np.exp(-r * T) * np.mean(payoff)
    return price
>>
    Here [M] counts the paths and [N] the time steps.  The array holds the
    initial price in its first column, and the draws are read one time step
    at a time, [M] of them for each step. *)

(** [np.zeros((m, n))]. *)
Definition zeros2 (m n : nat) : ndarray2 :=
  {| ncols := n; rows := repeat (repeat 0 n) m |}.

(** [a[:, t]] for a column [t] of the array. *)
Definition column (t : nat) (a : ndarray2) : list R :=
  map (fun row => nth t row 0) (rows a).

(** [a[:, t] = v] for a column [t] of the array and [v] with one entry for
    each row. *)
Definition set_column (t : nat) (v : list R) (a : ndarray2) : ndarray2 :=
  {| ncols := ncols a;
     rows := map (fun rv : list R * R => set_nth t (snd rv) (fst rv))
                 (combine (rows a) v) |}.

(** [np.random.normal(size=M)]: the next [M] standard normal draws. *)
Definition normal (M : nat) (g : rng) : list R * rng :=
  (map (fun k => draws g (cursor g + k)%nat) (seq 0 M),
   {| draws := draws g; cursor := (cursor g + M)%nat |}).

Module PricingNotebook.

(** The passes [t], [t + 1], ... ([count] of them) of the loop over the
    time steps, on the array and the generator state. *)
Fixpoint evolve (r sigma dt : R) (M t count : nat) (Sg : ndarray2 * rng)
  : ndarray2 * rng :=
  match count with
  | O => Sg
  | S c =>
      let (Z, g') := normal M (snd Sg) in
      let col := map (fun sz : R * R =>
                        fst sz * exp (log_increment r sigma dt (snd sz)))
                     (combine (column (t - 1) (fst Sg)) Z) in
      evolve r sigma dt M (S t) c (set_column t col (fst Sg), g')
  end.

(** The array [S] after the loop, for [N] other than zero. *)
Definition simulated (S0 r sigma T : R) (M N : nat) (g : rng)
  : ndarray2 * rng :=
  evolve r sigma (T / INR N) M 1 N
         (set_column 0 (repeat S0 M) (zeros2 M (N + 1)), g).

Section Seeded.

Variable np_random_seed : Z -> rng.

Definition mc_price_european (S0 K r sigma T : R) (M N : nat)
           (option_type : string) (seed : Z) : result (R * rng) :=
  let g := np_random_seed seed in
  if (N =? 0)%nat then Raise ZeroDivisionError
  else
    let (S, g') := simulated S0 r sigma T M N g in
    ST <- last_column S ;;
    let payoff := if (option_type =? "call")%string
                  then map (fun s => Rmax (s - K) 0) ST
                  else map (fun s => Rmax (K - s) 0) ST in
    let price := exp (- r * T) * np_mean payoff in
    Ret (price, g').

End Seeded.

End PricingNotebook.

(** ** Comparison notebook: the Crank-Nicolson solver with dense matrices

<<
def crank_nicolson(S0, K, r, sigma, T, Smax=200, M=100, N=100, option_type="call"):
    dt = T / N
    dS = Smax / M
    S = np.linspace(0, Smax, M+1)
    V = np.maximum(S - K, 0) if option_type == "call" else np.maximum(K - S, 0)

    alpha = 0.25 * dt * (sigma**2 * (np.arange(M+1)**2) - r * np.arange(M+1))
    beta  = -dt * 0.5 * (sigma**2 * (np.arange(M+1)**2) + r)
    gamma = 0.25 * dt * (sigma**2 * (np.arange(M+1)**2) + r * np.arange(M+1))

    A = np.zeros((M-1, M-1))
    B = np.zeros((M-1, M-1))
    for i in range(1, M):
        if i > 1:
            A[i-1, i-2] = -alpha[i]
            B[i-1, i-2] =  alpha[i]
        A[i-1, i-1] = 1 - beta[i]
        B[i-1, i-1] = 1 + beta[i]
        if i < M-1:
            A[i-1, i] = -gamma[i]
            B[i-1, i] =  gamma[i]

    from scipy.linalg import solve
    for j in range(N):
        V[1:M] = solve(A, B @ V[1:M])

    return np.interp(S0, S, V)
>>
    The two matrices are tridiagonal: row [i - 1] holds the coefficients of
    node [i], so the lower diagonal starts at node 2 and the upper diagonal
    ends at node [M - 2].  [scipy.linalg.solve] is [spsolve] on them (its
    result solves the system whenever no pivot vanishes); the LinAlgError
    that SciPy raises for a singular matrix is not modelled, and the
    properties below take [M] to be at least 2 and the elimination to meet
    no zero pivot.  The loop body does not touch [V[0]] and [V[M]]. *)

(** [V[a:b]], and [V[a:b] = x] for [x] of the slice's length, where
    [0 <= a <= b <= len(V)]. *)
Definition slice (a b : nat) (V : list R) : list R :=
  firstn (b - a) (skipn a V).

Definition set_slice (a b : nat) (x V : list R) : list R :=
  firstn a V ++ x ++ skipn b V.

Module PricingNotebookPde.

Section CrankNicolson.

Variables S0 K r sigma T Smax : R.
Variables M N : nat.
Variable option_type : string.

Definition dt : R := T / INR N.
Definition dS : R := Smax / INR M.
Definition S : list R := linspace0 Smax M.

Definition terminal : list R :=
  if (option_type =? "call")%string then map (fun s => Rmax (s - K) 0) S
  else map (fun s => Rmax (K - s) 0) S.

Definition alpha (i : nat) : R :=
  0.25 * dt * (sigma ^ 2 * INR i ^ 2 - r * INR i).

Definition beta (i : nat) : R :=
  - dt * 0.5 * (sigma ^ 2 * INR i ^ 2 + r).

Definition gamma (i : nat) : R :=
  0.25 * dt * (sigma ^ 2 * INR i ^ 2 + r * INR i).

Definition A : tridiag :=
  diags (map (fun i => - alpha i) (seq 2 (M - 2)))
        (map (fun i => 1 - beta i) (seq 1 (M - 1)))
        (map (fun i => - gamma i) (seq 1 (M - 2))).

Definition B : tridiag :=
  diags (map alpha (seq 2 (M - 2)))
        (map (fun i => 1 + beta i) (seq 1 (M - 1)))
        (map gamma (seq 1 (M - 2))).

(** One pass through the loop body. *)
Definition step (V : list R) : list R :=
  set_slice 1 M (spsolve A (tridiag_dot B (slice 1 M V))) V.

(** The value array after the first [k] passes. *)
Definition march (k : nat) : result (list R) :=
  if (N =? 0)%nat then Raise ZeroDivisionError
  else if (M =? 0)%nat then Raise ZeroDivisionError
  else Ret (Nat.iter k step terminal).

Definition crank_nicolson : result R :=
  V <- march N ;;
  Ret (np_interp S0 S V).

End CrankNicolson.

End PricingNotebookPde.

(** ** Report, Appendix B: the Crank-Nicolson solver

<<
def crank_nicolson(S0, K, r, sigma, T, Smax=300, M=100, N=100, option_type='call'):
    dS = Smax / M
    dt = T / N
    S = np.linspace(0, Smax, M+1)
    V = np.maximum(0, S - K) if option_type == 'call' else np.maximum(0, K - S)

    alpha = 0.25 * dt * (sigma ** 2 * (np.arange(M+1)) ** 2 - r * np.arange(M+1))
    beta  = -dt * 0.5 * (sigma ** 2 * (np.arange(M+1)) ** 2 + r)
    gamma = 0.25 * dt * (sigma ** 2 * (np.arange(M+1)) ** 2 + r * np.arange(M+1))

    A = np.zeros((3, M-1))
    B = np.zeros((3, M-1))
    for i in range(1, M):
        A[0, i-1] = -alpha[i]
        A[1, i-1] = 1 - beta[i]
        A[2, i-1] = -gamma[i]

        B[0, i-1] = alpha[i]
        B[1, i-1] = 1 + beta[i]
        B[2, i-1] = gamma[i]

    for _ in range(N):
        rhs = B[0] * V[0:M-1] + B[1] * V[1:M] + B[2] * V[2:M+1]
        V[1:M] = solve_banded((1, 1), A, rhs)
        V[0] = 0
        V[M] = Smax - K * np.exp(-r * (T - _ * dt)) if option_type == 'call' else K * np.exp(-r * (T - _ * dt))

    price = np.interp(S0, S, V)
    return price
>>
    [solve_banded((1, 1), A, rhs)] reads the upper diagonal from [A[0, 1:]],
    the main diagonal from [A[1]] and the lower diagonal from [A[2, :-1]].
    The solver is [spsolve] on that matrix; the LinAlgError that SciPy
    raises for a singular matrix is not modelled.  With [M = 1] the banded
    system is empty, and what SciPy makes of it is not modelled either; the
    properties below take [M] to be at least 2 and the elimination to meet
    no zero pivot. *)

Module ReportAppendix.

Section CrankNicolson.

Variables S0 K r sigma T Smax : R.
Variables M N : nat.
Variable option_type : string.

Definition dS : R := Smax / INR M.
Definition dt : R := T / INR N.
Definition S : list R := linspace0 Smax M.

Definition terminal : list R :=
  if (option_type =? "call")%string then map (fun s => Rmax 0 (s - K)) S
  else map (fun s => Rmax 0 (K - s)) S.

Definition alpha (i : nat) : R :=
  0.25 * dt * (sigma ^ 2 * INR i ^ 2 - r * INR i).

Definition beta (i : nat) : R :=
  - dt * 0.5 * (sigma ^ 2 * INR i ^ 2 + r).

Definition gamma (i : nat) : R :=
  0.25 * dt * (sigma ^ 2 * INR i ^ 2 + r * INR i).

(** The rows of the two 3 x (M - 1) arrays. *)
Definition A0 : list R := map (fun i => - alpha i) (seq 1 (M - 1)).
Definition A1 : list R := map (fun i => 1 - beta i) (seq 1 (M - 1)).
Definition A2 : list R := map (fun i => - gamma i) (seq 1 (M - 1)).

Definition B0 : list R := map alpha (seq 1 (M - 1)).
Definition B1 : list R := map (fun i => 1 + beta i) (seq 1 (M - 1)).
Definition B2 : list R := map gamma (seq 1 (M - 1)).

(** The matrix that [solve_banded] reads from [A]. *)
Definition banded : tridiag := diags (removelast A2) A1 (tl A0).

(** The value written to [V[M]] in pass [n]. *)
Definition far_boundary (n : nat) : R :=
  if (option_type =? "call")%string
  then Smax - K * exp (- r * (T - INR n * dt))
  else K * exp (- r * (T - INR n * dt)).

(** One pass through the loop body. *)
Definition step (n : nat) (V : list R) : result (list R) :=
  let rhs := CrankNicolsonNotebook.row_add
               (CrankNicolsonNotebook.row_add
                  (CrankNicolsonNotebook.row_mul B0 (slice 0 (M - 1) V))
                  (CrankNicolsonNotebook.row_mul B1 (slice 1 M V)))
               (CrankNicolsonNotebook.row_mul B2 (slice 2 (M + 1) V)) in
  let V1 := set_slice 1 M (spsolve banded rhs) V in
  V2 <- setitem V1 0 0 ;;
  setitem V2 (Z.of_nat M) (far_boundary n).

(** The value array after the first [k] passes. *)
Definition march (k : nat) : result (list R) :=
  if (M =? 0)%nat then Raise ZeroDivisionError
  else if (N =? 0)%nat then Raise ZeroDivisionError
  else for_range step 0 k terminal.

Definition crank_nicolson : result R :=
  V <- march N ;;
  Ret (np_interp S0 S V).

End CrankNicolson.

End ReportAppendix.

(** ** The barrier notebook's payoffs, one path at a time

    The payoff that the array code of the barrier notebook assigns to the
    path built from one row [z] of draws: [up] selects the barrier from
    above, [knock_in] the knock-in payoff. *)

Definition row_payoff (S0 K r sigma dt B : R) (up knock_in : bool)
           (z : list R) : R :=
  let prices := map (fun x => S0 * exp x)
                    (cumsum (map (log_increment r sigma dt) z)) in
  let hit := if up then existsb (fun s => Rgeb s B) prices
             else existsb (fun s => Rleb s B) prices in
  let v := Rmax (last prices 0 - K) 0 in
  if knock_in then (if hit then v else 0) else (if hit then 0 else v).

Definition barrier_payoff (K B : R) (up knock_in : bool)
  : ndarray2 -> result (list R) :=
  match up, knock_in with
  | false, false => down_and_out K B
  | true, false => up_and_out K B
  | false, true => down_and_in K B
  | true, true => up_and_in K B
  end.

(** * Properties *)

Lemma Ret_inj {A : Type} (a b : A) : Ret a = Ret b -> a = b.
Proof. intro H. injection H as H. exact H. Qed.

(** ** Comparisons *)

Lemma Rleb_true_iff x y : Rleb x y = true <-> x <= y.
Proof. unfold Rleb. destruct (Rle_dec x y); split; intros; try easy. Qed.

Lemma Rleb_false_iff x y : Rleb x y = false <-> y < x.
Proof.
  unfold Rleb. destruct (Rle_dec x y); split; intros; try easy; lra.
Qed.

Lemma Rltb_true_iff x y : Rltb x y = true <-> x < y.
Proof. unfold Rltb. destruct (Rlt_dec x y); split; intros; try easy. Qed.

Lemma Rltb_false_iff x y : Rltb x y = false <-> y <= x.
Proof.
  unfold Rltb. destruct (Rlt_dec x y); split; intros; try easy; lra.
Qed.

Lemma Reqb_refl x : Reqb x x = true.
Proof. unfold Reqb. destruct (Req_dec_T x x); congruence. Qed.

Lemma Reqb_false_iff x y : Reqb x y = false <-> x <> y.
Proof. unfold Reqb. destruct (Req_dec_T x y); split; intros; easy. Qed.

Lemma degenerate_true_iff S K T sigma :
  degenerate S K T sigma = true <-> T <= 0 \/ sigma <= 0 \/ S <= 0 \/ K <= 0.
Proof.
  unfold degenerate. rewrite !orb_true_iff, !Rleb_true_iff. tauto.
Qed.

Lemma degenerate_false_iff S K T sigma :
  degenerate S K T sigma = false <-> 0 < S /\ 0 < K /\ 0 < sigma /\ 0 < T.
Proof.
  unfold degenerate. rewrite !orb_false_iff, !Rleb_false_iff. tauto.
Qed.

(** ** The normal distribution function is symmetric *)

Lemma norm_cdf_sym x : norm_cdf x + norm_cdf (- x) = 1.
Proof.
  unfold norm_cdf. replace (- x * - x) with (x * x) by ring.
  field. apply Rgt_not_eq, sqrt_lt_R0. pose proof PI_RGT_0. lra.
Qed.

Lemma norm_cdf_0 : norm_cdf 0 = 1 / 2.
Proof. pose proof (norm_cdf_sym 0) as H. rewrite Ropp_0 in H. lra. Qed.

(** ** The analytic pricers *)

(** Under its guard [black_scholes_price] returns 0.0 before it looks at the
    flag. *)
Lemma black_scholes_price_guard S K T r sigma option_type :
  degenerate S K T sigma = true ->
  black_scholes_price S K T r sigma option_type = Ret 0.
Proof.
  intro H. unfold black_scholes_price. unfold degenerate in H.
  rewrite H. reflexivity.
Qed.

(** C1, as stated, fails for [bsm_price]: its only special case is
    T == 0, and there, in the money, it returns the intrinsic value 10,
    not 0.0. *)
Lemma bsm_price_degenerate_not_zero :
  (0 <= 0 \/ 0.2 <= 0 \/ 110 <= 0 \/ 100 <= 0) /\
  bsm_price 110 100 0.05 0.2 0 "call" = 10 /\
  bsm_price 110 100 0.05 0.2 0 "call" <> 0.
Proof.
  assert (E : bsm_price 110 100 0.05 0.2 0 "call" = 10).
  { unfold bsm_price. rewrite Reqb_refl. simpl.
    unfold Rmax. destruct (Rle_dec 0 (110 - 100)); lra. }
  split; [left; lra|]. split; [exact E|]. rewrite E. lra.
Qed.

(** C1, amended.  Whenever T <= 0 or sigma <= 0 or S <= 0 or K <= 0,
    [black_scholes_price] returns exactly 0.0: it does not raise, and the
    result is the same for every value of the call/put flag, valid or
    not.  The notebook's [bsm_price] returns at T = 0 the intrinsic value,
    max(0, S - K) for a call and max(0, K - S) for every other flag, which
    is 0.0 exactly when the option is not in the money. *)
Theorem degenerate_inputs_by_pricer S K T r sigma option_type :
  T <= 0 \/ sigma <= 0 \/ S <= 0 \/ K <= 0 ->
  black_scholes_price S K T r sigma option_type = Ret 0 /\
  (T = 0 ->
   bsm_price S K r sigma T option_type
   = Rmax 0 (if (option_type =? "call")%string then S - K else K - S) /\
   (bsm_price S K r sigma T option_type = 0 <->
    if (option_type =? "call")%string then S <= K else K <= S)).
Proof.
  intro H. split.
  - apply black_scholes_price_guard, degenerate_true_iff. exact H.
  - intros ->. unfold bsm_price. rewrite Reqb_refl.
    split; [reflexivity|].
    destruct (option_type =? "call")%string; unfold Rmax;
      match goal with |- context [Rle_dec 0 ?x] => destruct (Rle_dec 0 x) end;
      split; intro; lra.
Qed.

Lemma degenerate_inputs_by_pricer_witness :
  black_scholes_price 110 100 0 0.05 0.2 "call" = Ret 0 /\
  (0 = 0 ->
   bsm_price 110 100 0.05 0.2 0 "call"
   = Rmax 0 (if ("call" =? "call")%string then 110 - 100 else 100 - 110) /\
   (bsm_price 110 100 0.05 0.2 0 "call" = 0 <->
    if ("call" =? "call")%string then 110 <= 100 else 100 <= 110)).
Proof.
  apply (degenerate_inputs_by_pricer 110 100 0 0.05 0.2 "call").
  left; lra.
Defined.

(** C9.  [black_scholes_price] raises ValueError exactly when S, K, sigma
    and T are all strictly positive and the flag is neither "call" nor
    "put"; it raises nothing else; and when one of T, sigma, S, K is not
    positive it returns 0.0 whatever the flag is, valid or not. *)
Theorem black_scholes_price_raises_iff S K T r sigma option_type :
  ((exists e, black_scholes_price S K T r sigma option_type = Raise e) <->
   (0 < S /\ 0 < K /\ 0 < sigma /\ 0 < T /\
    option_type <> "call"%string /\ option_type <> "put"%string)) /\
  (forall e, black_scholes_price S K T r sigma option_type = Raise e ->
             e = ValueError "option_type must be 'call' or 'put'") /\
  (T <= 0 \/ sigma <= 0 \/ S <= 0 \/ K <= 0 ->
   forall flag, black_scholes_price S K T r sigma flag = Ret 0).
Proof.
  unfold black_scholes_price. fold (degenerate S K T sigma).
  destruct (degenerate S K T sigma) eqn:Hd.
  - apply degenerate_true_iff in Hd. split; [split|split].
    + intros [e He]. discriminate.
    + intros (HS & HK & Hs & HT & _). lra.
    + intros e He. discriminate.
    + intros _ flag. reflexivity.
  - pose proof (proj1 (degenerate_false_iff _ _ _ _) Hd) as (HS & HK & Hs & HT).
    assert (Hnd : ~ (T <= 0 \/ sigma <= 0 \/ S <= 0 \/ K <= 0)) by lra.
    destruct (String.eqb_spec option_type "call") as [Hc|Hc];
      [|destruct (String.eqb_spec option_type "put") as [Hp|Hp]].
    + split; [split|split].
      * intros [e He]. discriminate.
      * intros (_ & _ & _ & _ & Hn & _). contradiction.
      * intros e He. discriminate.
      * intros Hdeg. contradiction.
    + split; [split|split].
      * intros [e He]. discriminate.
      * intros (_ & _ & _ & _ & _ & Hn). contradiction.
      * intros e He. discriminate.
      * intros Hdeg. contradiction.
    + split; [split|split].
      * intros _. tauto.
      * intros _. eexists. reflexivity.
      * intros e He. congruence.
      * intros Hdeg. contradiction.
Qed.

Lemma black_scholes_price_raises_iff_witness :
  (exists e, black_scholes_price 100 100 1 0.05 0.2 "digital" = Raise e) /\
  black_scholes_price 100 100 0 0.05 0.2 "digital" = Ret 0.
Proof.
  split.
  - apply (proj1 (black_scholes_price_raises_iff 100 100 1 0.05 0.2 "digital")).
    repeat split; try lra; discriminate.
  - apply (proj2 (proj2 (black_scholes_price_raises_iff 100 100 0 0.05 0.2 "call"))).
    left; lra.
Defined.

(** C2, as stated, fails for [black_scholes_price]: in the money at T = 0
    it returns 0.0, not the intrinsic value 10. *)
Lemma black_scholes_price_zero_maturity_not_intrinsic :
  0 < 110 /\ 0 < 100 /\
  black_scholes_price 110 100 0 0.05 0.2 "call" = Ret 0 /\
  Rmax (110 - 100) 0 = 10 /\
  black_scholes_price 110 100 0 0.05 0.2 "call" <> Ret (Rmax (110 - 100) 0).
Proof.
  assert (H0 : black_scholes_price 110 100 0 0.05 0.2 "call" = Ret 0).
  { unfold black_scholes_price.
    replace (Rleb 0 0) with true by (symmetry; apply Rleb_true_iff; lra).
    reflexivity. }
  assert (H1 : Rmax (110 - 100) 0 = 10).
  { unfold Rmax. destruct (Rle_dec (110 - 100) 0); lra. }
  repeat split; try lra; try assumption.
  rewrite H0, H1. intro H. injection H. lra.
Qed.

(** C2, amended.  At T = 0 the comparison notebook's [bsm_price] returns
    exactly the intrinsic value, max(S - K, 0) for a call and max(K - S, 0)
    for a put (and for every other flag); [black_scholes_price] returns 0.0
    there, which is the intrinsic value of a call exactly when S <= K and
    of a put exactly when K <= S. *)
Theorem zero_maturity_prices S K r sigma :
  bsm_price S K r sigma 0 "call" = Rmax (S - K) 0 /\
  (forall flag, flag <> "call"%string ->
                bsm_price S K r sigma 0 flag = Rmax (K - S) 0) /\
  (forall flag, black_scholes_price S K 0 r sigma flag = Ret 0) /\
  (Rmax (S - K) 0 = 0 <-> S <= K) /\
  (Rmax (K - S) 0 = 0 <-> K <= S).
Proof.
  repeat split.
  - unfold bsm_price. rewrite Reqb_refl. simpl. apply Rmax_comm.
  - intros flag Hf. unfold bsm_price. rewrite Reqb_refl.
    destruct (String.eqb_spec flag "call"); [contradiction|apply Rmax_comm].
  - intro flag. apply black_scholes_price_guard, degenerate_true_iff.
    left; lra.
  - unfold Rmax. destruct (Rle_dec (S - K) 0); lra.
  - unfold Rmax. destruct (Rle_dec (S - K) 0); lra.
  - unfold Rmax. destruct (Rle_dec (K - S) 0); lra.
  - unfold Rmax. destruct (Rle_dec (K - S) 0); lra.
Qed.

(** X30.  Put-call parity in exact arithmetic: for S, K, sigma, T all
    positive the call price minus the put price of [black_scholes_price] is
    S - K e^(-rT), and so is that of the notebook's [bsm_price].  The
    rounding of the floating-point evaluation is outside this model. *)
Theorem put_call_parity S K T r sigma :
  0 < S -> 0 < K -> 0 < sigma -> 0 < T ->
  (exists c p,
      black_scholes_price S K T r sigma "call" = Ret c /\
      black_scholes_price S K T r sigma "put" = Ret p /\
      c - p = S - K * exp (- r * T)) /\
  bsm_price S K r sigma T "call" - bsm_price S K r sigma T "put"
  = S - K * exp (- r * T).
Proof.
  intros HS HK Hs HT.
  set (d1 := bs_d1 S K T r sigma). set (d2 := bs_d2 S K T r sigma).
  assert (Heq : S * norm_cdf d1 - K * exp (- r * T) * norm_cdf d2
                - (K * exp (- r * T) * norm_cdf (- d2) - S * norm_cdf (- d1))
                = S - K * exp (- r * T)).
  { pose proof (norm_cdf_sym d1). pose proof (norm_cdf_sym d2).
    replace (norm_cdf (- d1)) with (1 - norm_cdf d1) by lra.
    replace (norm_cdf (- d2)) with (1 - norm_cdf d2) by lra.
    ring. }
  split.
  - assert (Hd : degenerate S K T sigma = false)
      by (apply degenerate_false_iff; tauto).
    unfold black_scholes_price. fold (degenerate S K T sigma). rewrite Hd.
    simpl. fold d1 d2. do 2 eexists.
    split; [reflexivity|]. split; [reflexivity|]. exact Heq.
  - unfold bsm_price.
    replace (Reqb T 0) with false by (symmetry; apply Reqb_false_iff; lra).
    simpl. fold d1 d2. exact Heq.
Qed.

Lemma put_call_parity_witness :
  (exists c p,
      black_scholes_price 100 100 1 0.05 0.2 "call" = Ret c /\
      black_scholes_price 100 100 1 0.05 0.2 "put" = Ret p /\
      c - p = 100 - 100 * exp (- (0.05) * 1)) /\
  bsm_price 100 100 0.05 0.2 1 "call" - bsm_price 100 100 0.05 0.2 1 "put"
  = 100 - 100 * exp (- (0.05) * 1).
Proof.
  apply (put_call_parity 100 100 1 0.05 0.2); lra.
Defined.

(** ** Lists and arrays *)

Lemma nth_map_lt {A B : Type} (f : A -> B) (l : list A) (n : nat) (d : A) (d' : B) :
  (n < length l)%nat -> nth n (map f l) d' = f (nth n l d).
Proof.
  intro H. rewrite (nth_indep (map f l) d' (f d)) by (rewrite length_map; exact H).
  apply map_nth.
Qed.

Lemma last_map_cons {A B : Type} (f : A -> B) (l : list A) (d : A) (d' : B) :
  l <> [] -> last (map f l) d' = f (last l d).
Proof.
  induction l as [|x [|y t] IH]; intro H; [contradiction|reflexivity|].
  change (last (map f (y :: t)) d' = f (last (y :: t) d)).
  apply IH. discriminate.
Qed.

Lemma last_nth {A : Type} (l : list A) (d : A) :
  last l d = nth (length l - 1) l d.
Proof.
  induction l as [|x [|y t] IH]; [reflexivity|reflexivity|].
  change (last (y :: t) d = nth (length (y :: t)) (x :: y :: t) d).
  rewrite IH. simpl. rewrite Nat.sub_0_r. reflexivity.
Qed.

Lemma firstn_seq_le (start n m : nat) :
  (n <= m)%nat -> firstn n (seq start m) = seq start n.
Proof.
  revert start m. induction n as [|n IH]; intros start m H; [reflexivity|].
  destruct m as [|m]; [lia|]. simpl. f_equal. apply IH. lia.
Qed.

Lemma length_cumsum_from acc l : length (cumsum_from acc l) = length l.
Proof.
  revert acc. induction l as [|x t IH]; intro acc; simpl; [reflexivity|].
  rewrite IH. reflexivity.
Qed.

Lemma length_cumsum l : length (cumsum l) = length l.
Proof. apply length_cumsum_from. Qed.

(** Entry [j] of a cumulative sum is the sum of the entries up to and
    including [j]. *)
Lemma nth_cumsum_from acc l j :
  (j < length l)%nat ->
  nth j (cumsum_from acc l) 0 = acc + Rsum (firstn (S j) l).
Proof.
  revert acc j. induction l as [|x t IH]; intros acc j H; simpl in H; [lia|].
  destruct j as [|j].
  - simpl. destruct t; simpl; lra.
  - change (nth j (cumsum_from (acc + x) t) 0
            = acc + (x + Rsum (firstn (S j) t))).
    rewrite IH by lia. lra.
Qed.

Lemma nth_cumsum l j :
  (j < length l)%nat -> nth j (cumsum l) 0 = Rsum (firstn (S j) l).
Proof. intro H. unfold cumsum. rewrite nth_cumsum_from by exact H. lra. Qed.

(** ** The random generator *)

Lemma randn_shape N M g : shape (fst (randn N M g)) = (N, M).
Proof. unfold shape, randn. simpl. rewrite length_map, length_seq. reflexivity. Qed.

Lemma randn_length N M g : length (rows (fst (randn N M g))) = N.
Proof. unfold randn. simpl. rewrite length_map, length_seq. reflexivity. Qed.

Lemma randn_well_shaped N M g : well_shaped (fst (randn N M g)).
Proof.
  unfold well_shaped, randn. simpl. apply Forall_map, Forall_forall.
  intros i _. rewrite length_map, length_seq. reflexivity.
Qed.

Lemma randn_row N M g p :
  (p < N)%nat ->
  nth p (rows (fst (randn N M g))) [] =
  map (fun k => draws g (cursor g + p * M + k)%nat) (seq 0 M).
Proof.
  intro H. unfold randn. simpl.
  rewrite (nth_map_lt _ _ _ 0%nat) by (rewrite length_seq; exact H).
  rewrite seq_nth by exact H. reflexivity.
Qed.

(** ** The path simulator *)

(** The value that [simulate_paths] returns for a positive step count. *)
Lemma simulate_paths_eq S0 r sigma T M N g :
  M <> 0%nat ->
  simulate_paths S0 r sigma T M N g =
  Ret (map_elems (fun x => S0 * exp x)
         (cumsum_axis1
            (map_elems (log_increment r sigma (T / INR M)) (fst (randn N M g)))),
       snd (randn N M g)).
Proof.
  intro H. unfold simulate_paths.
  destruct (Nat.eqb_spec M 0) as [E|_]; [contradiction|reflexivity].
Qed.

(** C6, as stated, fails: one path of one step is a 1 x 1 array, not
    1 x 2, and its entry at index 0 is S0 e^(first increment), not S0. *)
Lemma simulate_paths_has_no_initial_column :
  exists paths g',
    simulate_paths 100 0.05 0.2 1 1 1 (mk_rng (fun _ => 1) 0) = Ret (paths, g') /\
    shape paths = (1, 1)%nat /\
    shape paths <> (1, 1 + 1)%nat /\
    rows paths = [[100 * exp (0 + log_increment 0.05 0.2 (1 / INR 1) 1)]].
Proof.
  do 2 eexists. split; [reflexivity|].
  split; [reflexivity|]. split; [discriminate|reflexivity].
Qed.

(** C6, amended.  For numSteps > 0 the simulator returns an array of shape
    (num_paths, num_steps) and advances the generator by
    num_paths * num_steps draws.  There is no column for the initial
    price: column j (counted from 0) holds the price after step j + 1,
    that is S0 times the exponential of the sum of the first j + 1
    log-increments (r - sigma^2/2) dt + sigma sqrt(dt) Z of that path, the
    sum being taken in log space. *)
Theorem simulate_paths_shape_and_entries S0 r sigma T M N g :
  M <> 0%nat ->
  exists paths g',
    simulate_paths S0 r sigma T M N g = Ret (paths, g') /\
    shape paths = (N, M) /\
    well_shaped paths /\
    cursor g' = (cursor g + N * M)%nat /\
    forall p j, (p < N)%nat -> (j < M)%nat ->
      nth j (nth p (rows paths) []) 0 =
      S0 * exp (Rsum (map (fun k => log_increment r sigma (T / INR M)
                                      (draws g (cursor g + p * M + k)%nat))
                          (seq 0 (S j)))).
Proof.
  intro HM. do 2 eexists. split; [apply simulate_paths_eq; exact HM|].
  split; [|split; [|split]].
  - unfold shape. simpl. rewrite !length_map, length_seq. reflexivity.
  - unfold well_shaped. simpl. rewrite !map_map.
    apply Forall_map, Forall_forall. intros i _.
    rewrite length_map, length_cumsum, !length_map, length_seq. reflexivity.
  - reflexivity.
  - intros p j Hp Hj.
    cbn [rows map_elems cumsum_axis1].
    assert (HN : (p < length (rows (fst (randn N M g))))%nat).
    { rewrite randn_length. exact Hp. }
    rewrite (nth_map_lt _ _ _ []) by (rewrite !length_map; exact HN).
    rewrite (nth_map_lt _ _ _ []) by (rewrite length_map; exact HN).
    rewrite (nth_map_lt _ _ _ []) by exact HN.
    rewrite randn_row by exact Hp.
    rewrite (nth_map_lt _ _ _ 0)
      by (rewrite length_cumsum, !length_map, length_seq; exact Hj).
    rewrite nth_cumsum by (rewrite !length_map, length_seq; exact Hj).
    rewrite map_map, firstn_map, firstn_seq_le by lia.
    reflexivity.
Qed.

Lemma simulate_paths_shape_and_entries_witness :
  exists paths g',
    simulate_paths 100 0.05 0.2 1 2 3 (mk_rng (fun _ => 1) 0) = Ret (paths, g') /\
    shape paths = (3, 2)%nat /\
    well_shaped paths /\
    cursor g' = (0 + 3 * 2)%nat /\
    forall p j, (p < 3)%nat -> (j < 2)%nat ->
      nth j (nth p (rows paths) []) 0 =
      100 * exp (Rsum (map (fun k => log_increment 0.05 0.2 (1 / INR 2) 1)
                           (seq 0 (S j)))).
Proof.
  apply (simulate_paths_shape_and_entries 100 0.05 0.2 1 2 3
           (mk_rng (fun _ => 1) 0)).
  discriminate.
Defined.

(** ** The Monte Carlo estimators *)

Lemma np_mean_sample_mean l : np_mean l = sample_mean l.
Proof. reflexivity. Qed.

Lemma np_std_sample_std l : l <> [] -> np_std_ddof1 l = sample_std l.
Proof.
  intro H. unfold np_std_ddof1, sample_std.
  destruct l as [|x t]; [contradiction|].
  rewrite minus_INR by (simpl; lia). reflexivity.
Qed.

Lemma last_column_ok a :
  ncols a <> 0%nat -> last_column a = Ret (map (fun row => last row 0) (rows a)).
Proof.
  intro H. unfold last_column.
  destruct (Nat.eqb_spec (ncols a) 0); [contradiction|reflexivity].
Qed.

Lemma last_column_length a ST :
  last_column a = Ret ST -> length ST = length (rows a).
Proof.
  unfold last_column. destruct (ncols a =? 0)%nat; [discriminate|].
  intro H. injection H as <-. apply length_map.
Qed.

Lemma last_column_map_elems f a :
  ncols a <> 0%nat -> Forall (fun row => row <> []) (rows a) ->
  last_column (map_elems f a) =
  Ret (map f (map (fun row => last row 0) (rows a))).
Proof.
  intros Hc Hr. rewrite last_column_ok by exact Hc. f_equal.
  cbn [rows map_elems]. rewrite !map_map.
  apply map_ext_Forall. revert Hr. apply Forall_impl.
  intros row Hrow. apply last_map_cons. exact Hrow.
Qed.

(** The log-price rows of a simulation with a positive step count are not
    empty. *)
Lemma log_paths_rows_nonempty r sigma dt N M g :
  M <> 0%nat ->
  Forall (fun row => row <> [])
         (rows (cumsum_axis1 (map_elems (log_increment r sigma dt)
                                        (fst (randn N M g))))).
Proof.
  intro HM. cbn [rows cumsum_axis1 map_elems randn fst].
  rewrite !map_map. apply Forall_map, Forall_forall. intros i _ E.
  apply (f_equal (@length R)) in E.
  rewrite length_cumsum, !length_map, length_seq in E. simpl in E. lia.
Qed.

Lemma length_european_payoff K is_call ST :
  length (european_payoff K is_call ST) = length ST.
Proof. unfold european_payoff. destruct is_call; apply length_map. Qed.

(** [mc_european_price] prices the terminal column of the paths that
    [simulate_paths] draws from the same generator state. *)
Lemma mc_european_price_eq seedfn S0 K r sigma T N_paths N_steps is_call seed g :
  N_steps <> 0%nat ->
  exists paths ST g',
    simulate_paths S0 r sigma T N_steps N_paths (reseed seedfn seed g)
      = Ret (paths, g') /\
    last_column paths = Ret ST /\
    length ST = N_paths /\
    mc_european_price seedfn S0 K r sigma T N_paths N_steps is_call seed g =
      let discounted :=
        map (fun p => exp (- r * T) * p) (european_payoff K is_call ST) in
      Ret (np_mean discounted,
           1.96 * (np_std_ddof1 discounted / sqrt (INR N_paths)), g').
Proof.
  intro HM. set (g0 := reseed seedfn seed g).
  set (logS := cumsum_axis1 (map_elems (log_increment r sigma (T / INR N_steps))
                                       (fst (randn N_paths N_steps g0)))).
  exists (map_elems (fun x => S0 * exp x) logS),
         (map (fun x => S0 * exp x) (map (fun row => last row 0) (rows logS))),
         (snd (randn N_paths N_steps g0)).
  split; [apply simulate_paths_eq; exact HM|].
  split; [apply last_column_map_elems;
          [exact HM|apply log_paths_rows_nonempty; exact HM]|].
  split.
  - unfold logS. cbn [rows cumsum_axis1 map_elems randn fst].
    rewrite !length_map, length_seq. reflexivity.
  - unfold mc_european_price. fold g0.
    destruct (Nat.eqb_spec N_steps 0) as [E|_]; [contradiction|].
    cbn [randn]. fold logS.
    change (cumsum_axis1 _) with logS.
    rewrite (last_column_ok logS) by exact HM. reflexivity.
Qed.

Lemma length_where_zero_else knocked v :
  length knocked = length v -> length (where_zero_else knocked v) = length v.
Proof.
  intro H. unfold where_zero_else. rewrite length_map, length_combine. lia.
Qed.

Lemma length_where_else_zero knocked v :
  length knocked = length v -> length (where_else_zero knocked v) = length v.
Proof.
  intro H. unfold where_else_zero. rewrite length_map, length_combine. lia.
Qed.

Lemma length_vanilla_call K ST : length (vanilla_call K ST) = length ST.
Proof. apply length_map. Qed.

(** On an array with at least one column each of the notebook's payoff
    functions returns one payoff per path. *)
Lemma notebook_payoff_ok K B_d B_u fn paths :
  In fn (notebook_payoffs K B_d B_u) -> ncols paths <> 0%nat ->
  exists raw, fn paths = Ret raw /\ length raw = length (rows paths).
Proof.
  intros Hin Hc.
  assert (HST : last_column paths = Ret (map (fun row => last row 0) (rows paths)))
    by (apply last_column_ok; exact Hc).
  unfold notebook_payoffs in Hin. simpl in Hin.
  destruct Hin as [<-|[<-|[<-|[<-|[<-|[]]]]]];
    unfold vanilla_payoff, down_and_out, up_and_out, down_and_in, up_and_in;
    rewrite HST; cbn [bind]; eexists; (split; [reflexivity|]);
    rewrite ?length_where_zero_else, ?length_where_else_zero;
    rewrite ?length_vanilla_call, ?length_map;
    unfold any_le_axis1, any_ge_axis1;
    rewrite ?length_map; reflexivity.
Qed.

Lemma mc_price_eq S0 r sigma T M fn N g paths g' raw :
  simulate_paths S0 r sigma T M N g = Ret (paths, g') ->
  fn paths = Ret raw ->
  mc_price S0 r sigma T M fn N g =
  let payoff := map (fun p => exp (- r * T) * p) raw in
  Ret (np_mean payoff, 1.96 * (np_std_ddof1 payoff / sqrt (INR N)), g').
Proof.
  intros Hs Hf. unfold mc_price. rewrite Hs. cbn [bind fst snd].
  rewrite Hf. reflexivity.
Qed.

Lemma simulate_paths_ok S0 r sigma T M N g :
  M <> 0%nat ->
  exists paths g',
    simulate_paths S0 r sigma T M N g = Ret (paths, g') /\
    ncols paths = M /\ length (rows paths) = N /\
    cursor g' = (cursor g + N * M)%nat.
Proof.
  intro HM. do 2 eexists. split; [apply simulate_paths_eq; exact HM|].
  split; [reflexivity|]. split; [|reflexivity].
  cbn [rows map_elems cumsum_axis1]. rewrite !length_map.
  apply randn_length.
Qed.

(** C5.  For at least two paths, both Monte Carlo pricers multiply each
    path's payoff by e^(-rT), return the sample mean of these N discounted
    payoffs as the price, and 1.96 times their sample standard deviation
    (divisor N - 1) over the square root of N as the half-width.  (With a
    single path the divisor is zero, and NumPy returns nan for the standard
    deviation.)  For [mc_european_price] the
    payoffs are those of the terminal column of the simulated paths; for
    [mc_price] they are what the payoff function returns on the paths. *)
Theorem mc_price_mean_and_half_width :
  (forall seedfn S0 K r sigma T N_paths N_steps is_call seed g,
      N_steps <> 0%nat -> (2 <= N_paths)%nat ->
      exists paths ST g',
        simulate_paths S0 r sigma T N_steps N_paths (reseed seedfn seed g)
          = Ret (paths, g') /\
        last_column paths = Ret ST /\
        let discounted :=
          map (fun p => exp (- r * T) * p) (european_payoff K is_call ST) in
        length discounted = N_paths /\
        mc_european_price seedfn S0 K r sigma T N_paths N_steps is_call seed g
          = Ret (sample_mean discounted,
                 1.96 * (sample_std discounted / sqrt (INR N_paths)), g')) /\
  (forall S0 K r sigma T M B_d B_u fn N g,
      In fn (notebook_payoffs K B_d B_u) ->
      M <> 0%nat -> (2 <= N)%nat ->
      exists paths raw g',
        simulate_paths S0 r sigma T M N g = Ret (paths, g') /\
        fn paths = Ret raw /\
        let discounted := map (fun p => exp (- r * T) * p) raw in
        length discounted = N /\
        mc_price S0 r sigma T M fn N g
          = Ret (sample_mean discounted,
                 1.96 * (sample_std discounted / sqrt (INR N)), g')).
Proof.
  split.
  - intros seedfn S0 K r sigma T N_paths N_steps is_call seed g HM HN.
    destruct (mc_european_price_eq seedfn S0 K r sigma T N_paths N_steps
                is_call seed g HM) as (paths & ST & g' & Hs & Hl & Hlen & Hp).
    exists paths, ST, g'. split; [exact Hs|]. split; [exact Hl|].
    cbv zeta in Hp |- *.
    assert (Hd : length (map (fun p => exp (- r * T) * p)
                             (european_payoff K is_call ST)) = N_paths)
      by (rewrite length_map, length_european_payoff; exact Hlen).
    split; [exact Hd|].
    rewrite Hp, np_mean_sample_mean, np_std_sample_std; [reflexivity|].
    intro E. rewrite E in Hd. simpl in Hd. lia.
  - intros S0 K r sigma T M B_d B_u fn N g Hin HM HN.
    destruct (simulate_paths_ok S0 r sigma T M N g HM)
      as (paths & g' & Hs & Hc & Hr & _).
    destruct (notebook_payoff_ok K B_d B_u fn paths Hin) as (raw & Hf & Hlen);
      [lia|].
    exists paths, raw, g'. split; [exact Hs|]. split; [exact Hf|].
    cbv zeta.
    assert (Hd : length (map (fun p => exp (- r * T) * p) raw) = N)
      by (rewrite length_map; lia).
    split; [exact Hd|].
    rewrite (mc_price_eq _ _ _ _ _ _ _ _ _ _ _ Hs Hf). cbv zeta.
    rewrite np_mean_sample_mean, np_std_sample_std; [reflexivity|].
    intro E. rewrite E in Hd. simpl in Hd. lia.
Qed.

Lemma mc_price_mean_and_half_width_witness :
  exists paths ST g',
    simulate_paths 100 0.05 0.2 1 1 2 (reseed (fun _ => mk_rng (fun _ => 1) 0)
                                              (Some 42%Z) (mk_rng (fun _ => 0) 7))
      = Ret (paths, g') /\
    last_column paths = Ret ST /\
    let discounted :=
      map (fun p => exp (- (0.05) * 1) * p) (european_payoff 100 true ST) in
    length discounted = 2%nat /\
    mc_european_price (fun _ => mk_rng (fun _ => 1) 0) 100 100 0.05 0.2 1 2 1
                      true (Some 42%Z) (mk_rng (fun _ => 0) 7)
      = Ret (sample_mean discounted,
             1.96 * (sample_std discounted / sqrt (INR 2)), g').
Proof.
  apply (proj1 mc_price_mean_and_half_width); [discriminate|lia].
Defined.

(** ** In/out parity *)

Lemma where_parity_nth knocked v i :
  length knocked = length v ->
  nth i (where_zero_else knocked v) 0 + nth i (where_else_zero knocked v) 0
  = nth i v 0.
Proof.
  revert v i. induction knocked as [|k ks IH]; intros [|x v] i H;
    simpl in H; try discriminate.
  - destruct i; simpl; lra.
  - destruct i as [|i].
    + simpl. destruct k; lra.
    + apply (IH v i). lia.
Qed.

Lemma where_parity_sum (d : R) knocked v :
  length knocked = length v ->
  Rsum (map (fun p => d * p) (where_zero_else knocked v))
  + Rsum (map (fun p => d * p) (where_else_zero knocked v))
  = Rsum (map (fun p => d * p) v).
Proof.
  revert v. induction knocked as [|k ks IH]; intros [|x v] H;
    simpl in H; try discriminate.
  - simpl. lra.
  - assert (IH' := IH v ltac:(lia)).
    unfold where_zero_else, where_else_zero in *. simpl.
    destruct k; lra.
Qed.

Lemma where_parity_mean (d : R) knocked v :
  length knocked = length v ->
  np_mean (map (fun p => d * p) (where_zero_else knocked v))
  + np_mean (map (fun p => d * p) (where_else_zero knocked v))
  = np_mean (map (fun p => d * p) v).
Proof.
  intro H. unfold np_mean.
  rewrite !length_map, length_where_zero_else, length_where_else_zero by exact H.
  rewrite <- (where_parity_sum d knocked v H). unfold Rdiv. ring.
Qed.

(** C8.  On every array of simulated paths (with at least one column) the
    down-and-out payoff plus the down-and-in payoff of each path is the
    vanilla call payoff max(S_T - K, 0) on that path's terminal price, and
    likewise for the up-and-out / up-and-in pair; hence, priced on the
    same simulated paths (the same generator state), the knock-out price
    plus the knock-in price is the vanilla price. *)
Theorem in_out_parity S0 K r sigma T M B_d B_u :
  (forall paths, ncols paths <> 0%nat ->
     exists ST out_d in_d out_u in_u,
       last_column paths = Ret ST /\
       length ST = length (rows paths) /\
       down_and_out K B_d paths = Ret out_d /\
       down_and_in K B_d paths = Ret in_d /\
       up_and_out K B_u paths = Ret out_u /\
       up_and_in K B_u paths = Ret in_u /\
       forall i,
         nth i out_d 0 + nth i in_d 0 = nth i (vanilla_call K ST) 0 /\
         nth i out_u 0 + nth i in_u 0 = nth i (vanilla_call K ST) 0) /\
  (forall N g, M <> 0%nat ->
     exists p_van p_do p_di p_uo p_ui c_van c_do c_di c_uo c_ui g',
       mc_price S0 r sigma T M (vanilla_payoff K) N g = Ret (p_van, c_van, g') /\
       mc_price S0 r sigma T M (down_and_out K B_d) N g = Ret (p_do, c_do, g') /\
       mc_price S0 r sigma T M (down_and_in K B_d) N g = Ret (p_di, c_di, g') /\
       mc_price S0 r sigma T M (up_and_out K B_u) N g = Ret (p_uo, c_uo, g') /\
       mc_price S0 r sigma T M (up_and_in K B_u) N g = Ret (p_ui, c_ui, g') /\
       p_do + p_di = p_van /\
       p_uo + p_ui = p_van).
Proof.
  split.
  - intros paths Hc.
    pose proof (last_column_ok paths Hc) as HST.
    set (ST := map (fun row => last row 0) (rows paths)) in *.
    exists ST. do 4 eexists.
    split; [exact HST|]. split; [apply length_map|].
    unfold down_and_out, down_and_in, up_and_out, up_and_in.
    rewrite HST. cbn [bind].
    repeat (split; [reflexivity|]).
    intro i. split; apply where_parity_nth;
      unfold any_le_axis1, any_ge_axis1, ST;
      rewrite length_vanilla_call, !length_map; reflexivity.
  - intros N g HM.
    destruct (simulate_paths_ok S0 r sigma T M N g HM)
      as (paths & g' & Hs & Hc & Hr & _).
    assert (Hcol : ncols paths <> 0%nat) by lia.
    pose proof (last_column_ok paths Hcol) as HST.
    set (ST := map (fun row => last row 0) (rows paths)) in *.
    unfold mc_price. rewrite Hs. cbn [bind fst snd].
    unfold vanilla_payoff, down_and_out, down_and_in, up_and_out, up_and_in.
    rewrite HST. cbn [bind].
    do 11 eexists.
    repeat (split; [reflexivity|]).
    split; apply where_parity_mean;
      unfold any_le_axis1, any_ge_axis1, ST;
      rewrite length_vanilla_call, !length_map; reflexivity.
Qed.

Lemma in_out_parity_witness :
  exists p_van p_do p_di p_uo p_ui c_van c_do c_di c_uo c_ui g',
    mc_price 100 0.05 0.2 1 2 (vanilla_payoff 100) 3 (mk_rng (fun _ => 1) 0)
      = Ret (p_van, c_van, g') /\
    mc_price 100 0.05 0.2 1 2 (down_and_out 100 90) 3 (mk_rng (fun _ => 1) 0)
      = Ret (p_do, c_do, g') /\
    mc_price 100 0.05 0.2 1 2 (down_and_in 100 90) 3 (mk_rng (fun _ => 1) 0)
      = Ret (p_di, c_di, g') /\
    mc_price 100 0.05 0.2 1 2 (up_and_out 100 110) 3 (mk_rng (fun _ => 1) 0)
      = Ret (p_uo, c_uo, g') /\
    mc_price 100 0.05 0.2 1 2 (up_and_in 100 110) 3 (mk_rng (fun _ => 1) 0)
      = Ret (p_ui, c_ui, g') /\
    p_do + p_di = p_van /\
    p_uo + p_ui = p_van.
Proof.
  apply (proj2 (in_out_parity 100 100 0.05 0.2 1 2 90 110)). discriminate.
Defined.

(** ** Non-negative payoffs and prices *)

Lemma Rmax_0_r_nonneg x : 0 <= Rmax x 0.
Proof. apply Rmax_r. Qed.

Lemma Rsum_nonneg l : Forall (fun x => 0 <= x) l -> 0 <= Rsum l.
Proof.
  induction 1 as [|x t Hx _ IH]; simpl; lra.
Qed.

Lemma np_mean_nonneg l : Forall (fun x => 0 <= x) l -> 0 <= np_mean l.
Proof.
  intro H. unfold np_mean. destruct l as [|x t].
  - simpl. unfold Rdiv. rewrite Rmult_0_l. lra.
  - apply Rmult_le_pos; [apply Rsum_nonneg; exact H|].
    apply Rlt_le, Rinv_0_lt_compat, lt_0_INR. simpl. lia.
Qed.

Lemma discounted_nonneg r T l :
  Forall (fun x => 0 <= x) l ->
  Forall (fun x => 0 <= x) (map (fun p => exp (- r * T) * p) l).
Proof.
  intro H. apply Forall_map. revert H. apply Forall_impl.
  intros x Hx. apply Rmult_le_pos; [apply Rlt_le, exp_pos|exact Hx].
Qed.

Lemma vanilla_call_nonneg K ST : Forall (fun x => 0 <= x) (vanilla_call K ST).
Proof.
  unfold vanilla_call. apply Forall_map, Forall_forall.
  intros s _. apply Rmax_0_r_nonneg.
Qed.

Lemma where_zero_else_nonneg knocked v :
  Forall (fun x => 0 <= x) v ->
  Forall (fun x => 0 <= x) (where_zero_else knocked v).
Proof.
  intro H. revert knocked. induction H as [|x t Hx _ IH]; intros [|k ks];
    try constructor.
  - destruct k; simpl; lra.
  - apply IH.
Qed.

Lemma where_else_zero_nonneg knocked v :
  Forall (fun x => 0 <= x) v ->
  Forall (fun x => 0 <= x) (where_else_zero knocked v).
Proof.
  intro H. revert knocked. induction H as [|x t Hx _ IH]; intros [|k ks];
    try constructor.
  - destruct k; simpl; lra.
  - apply IH.
Qed.

Lemma notebook_payoff_nonneg K B_d B_u fn paths raw :
  In fn (notebook_payoffs K B_d B_u) -> fn paths = Ret raw ->
  Forall (fun x => 0 <= x) raw.
Proof.
  intros Hin. unfold notebook_payoffs in Hin. simpl in Hin.
  destruct Hin as [<-|[<-|[<-|[<-|[<-|[]]]]]];
    unfold vanilla_payoff, down_and_out, up_and_out, down_and_in, up_and_in;
    destruct (last_column paths) as [ST|e]; cbn [bind]; try discriminate;
    intro H; injection H as <-;
    try apply where_zero_else_nonneg; try apply where_else_zero_nonneg;
    apply vanilla_call_nonneg.
Qed.

Lemma european_payoff_nonneg K is_call ST :
  Forall (fun x => 0 <= x) (european_payoff K is_call ST).
Proof.
  unfold european_payoff. destruct is_call;
    apply Forall_map, Forall_forall; intros s _; apply Rmax_0_r_nonneg.
Qed.

Lemma arithmetic_asian_payoff_nonneg K is_call paths :
  Forall (fun x => 0 <= x) (arithmetic_asian_payoff K is_call paths).
Proof.
  unfold arithmetic_asian_payoff. apply Forall_map, Forall_forall.
  intros row _. destruct is_call; apply Rmax_0_r_nonneg.
Qed.

Lemma geo_asian_payoff_nonneg K call G :
  Forall (fun x => 0 <= x) (geo_asian_payoff K call G).
Proof.
  unfold geo_asian_payoff. destruct call;
    apply Forall_map, Forall_forall; intros s _; apply Rmax_0_r_nonneg.
Qed.

(** *** [mc_do_call] *)

Lemma fold_left_Rmin_le t x : fold_left Rmin t x <= x.
Proof.
  revert x. induction t as [|y t IH]; intro x; simpl; [lra|].
  apply Rle_trans with (Rmin x y); [apply IH|apply Rmin_l].
Qed.

Lemma mc_do_call_path_nonneg S0 K r sigma T B M Z :
  0 <= mc_do_call_path S0 K r sigma T B M Z.
Proof.
  unfold mc_do_call_path.
  match goal with |- context [Rleb ?a ?b] => destruct (Rleb a b) end;
    [lra|apply Rmax_0_r_nonneg].
Qed.

(** The monitored path of [mc_do_call] starts at S0, so a barrier at or
    above the spot knocks every path out. *)
Lemma mc_do_call_path_knocked S0 K r sigma T B M Z :
  B >= S0 -> mc_do_call_path S0 K r sigma T B M Z = 0.
Proof.
  intro HB. unfold mc_do_call_path, linspace0.
  replace (M + 1)%nat with (S M) by lia.
  cbn [seq map combine np_min].
  match goal with
  | |- (if Rleb (fold_left Rmin ?t ?x) B then _ else _) = _ =>
      pose proof (fold_left_Rmin_le t x) as Hmin;
      assert (Hx : x = S0)
  end.
  { cbn [fst snd INR]. rewrite !Rmult_0_l, !Rmult_0_r, Rplus_0_r, exp_0. ring. }
  match goal with
  | |- (if Rleb ?m B then _ else _) = _ =>
      replace (Rleb m B) with true by (symmetry; apply Rleb_true_iff; lra)
  end.
  reflexivity.
Qed.

Lemma Rsum_zero l : Forall (fun x => x = 0) l -> Rsum l = 0.
Proof. induction 1 as [|x t Hx _ IH]; simpl; lra. Qed.

(** C10.  Every payoff function is pointwise non-negative: the vanilla
    call, the four barrier payoffs, the European call and put of
    [mc_european_price] and the arithmetic-Asian payoff; and every price
    that a Monte Carlo pricer returns for at least one path ([mc_price],
    [mc_european_price], the arithmetic-Asian pricer, [mc_do_call],
    [mc_geo_asian_price]) is greater than or equal to zero.  (With no
    path the mean is taken of an empty array, and NumPy returns nan.) *)
Theorem payoffs_and_mc_prices_nonnegative :
  (forall K ST, Forall (fun x => 0 <= x) (vanilla_call K ST)) /\
  (forall K B_d B_u fn paths raw,
      In fn (notebook_payoffs K B_d B_u) -> fn paths = Ret raw ->
      Forall (fun x => 0 <= x) raw) /\
  (forall K is_call ST, Forall (fun x => 0 <= x) (european_payoff K is_call ST)) /\
  (forall K is_call paths,
      Forall (fun x => 0 <= x) (arithmetic_asian_payoff K is_call paths)) /\
  (forall S0 K r sigma T M B_d B_u fn N g p ci g',
      In fn (notebook_payoffs K B_d B_u) -> N <> 0%nat ->
      mc_price S0 r sigma T M fn N g = Ret (p, ci, g') -> 0 <= p) /\
  (forall seedfn S0 K r sigma T N_paths N_steps is_call seed g p ci g',
      N_paths <> 0%nat ->
      mc_european_price seedfn S0 K r sigma T N_paths N_steps is_call seed g
        = Ret (p, ci, g') -> 0 <= p) /\
  (forall seedfn S0 K r sigma T N_paths N_steps is_call seed g p ci g',
      N_paths <> 0%nat ->
      mc_arithmetic_asian_price seedfn S0 K r sigma T N_paths N_steps is_call
                                seed g = Ret (p, ci, g') -> 0 <= p) /\
  (forall rngfn S0 K r sigma T B M N seed p,
      N <> 0%nat ->
      mc_do_call rngfn S0 K r sigma T B M N seed = Ret p -> 0 <= p) /\
  (forall K call G, Forall (fun x => 0 <= x) (geo_asian_payoff K call G)) /\
  (forall S0 K r T sigma n N call g p ci g',
      N <> 0%nat ->
      mc_geo_asian_price S0 K r T sigma n N call g = Ret (p, ci, g') ->
      0 <= p).
Proof.
  split; [exact vanilla_call_nonneg|].
  split; [exact notebook_payoff_nonneg|].
  split; [exact european_payoff_nonneg|].
  split; [exact arithmetic_asian_payoff_nonneg|].
  split; [|split; [|split; [|split; [|split; [exact geo_asian_payoff_nonneg|]]]]].
  - intros S0 K r sigma T M B_d B_u fn N g p ci g' Hin _.
    unfold mc_price.
    destruct (simulate_paths S0 r sigma T M N g) as [[paths g1]|e];
      cbn [bind fst snd]; [|discriminate].
    destruct (fn paths) as [raw|e] eqn:Hf; cbn [bind]; [|discriminate].
    intro H. injection H as <- _ _.
    apply np_mean_nonneg, discounted_nonneg.
    exact (notebook_payoff_nonneg K B_d B_u fn paths raw Hin Hf).
  - intros seedfn S0 K r sigma T N_paths N_steps is_call seed g p ci g' _.
    unfold mc_european_price.
    destruct (N_steps =? 0)%nat; [discriminate|]. cbn [randn].
    match goal with
    | |- context [last_column ?a] => destruct (last_column a) as [ST|e]
    end; cbn [bind]; [|discriminate].
    intro H. injection H as <- _ _.
    apply np_mean_nonneg, discounted_nonneg, european_payoff_nonneg.
  - intros seedfn S0 K r sigma T N_paths N_steps is_call seed g p ci g' _.
    unfold mc_arithmetic_asian_price.
    destruct (simulate_paths S0 r sigma T N_steps N_paths (reseed seedfn seed g))
      as [[paths g1]|e]; cbn [bind fst snd]; [|discriminate].
    intro H. injection H as <- _ _.
    apply np_mean_nonneg, discounted_nonneg, arithmetic_asian_payoff_nonneg.
  - intros rngfn S0 K r sigma T B M N seed p _. unfold mc_do_call.
    destruct (M =? 0)%nat; [discriminate|].
    intro H. apply Ret_inj in H. subst p.
    apply Rmult_le_pos; [apply Rlt_le, exp_pos|].
    apply np_mean_nonneg, Forall_map, Forall_forall.
    intros Z _. apply mc_do_call_path_nonneg.
  - intros S0 K r T sigma n N call g p ci g' _. unfold mc_geo_asian_price.
    destruct (n =? 0)%nat; [discriminate|]. cbn [randn].
    intro H. injection H as <- _ _.
    apply np_mean_nonneg, discounted_nonneg, geo_asian_payoff_nonneg.
Qed.

Lemma payoffs_and_mc_prices_nonnegative_witness :
  exists p ci g',
    In (down_and_out 100 90) (notebook_payoffs 100 90 110) /\
    mc_price 100 0.05 0.2 1 2 (down_and_out 100 90) 3 (mk_rng (fun _ => 1) 0)
      = Ret (p, ci, g') /\
    0 <= p.
Proof.
  do 3 eexists.
  assert (Hin : In (down_and_out 100 90) (notebook_payoffs 100 90 110))
    by (right; left; reflexivity).
  split; [exact Hin|]. split; [reflexivity|].
  eapply (proj1 (proj2 (proj2 (proj2 (proj2 payoffs_and_mc_prices_nonnegative))))
            100 100 0.05 0.2 1 2%nat 90 110 (down_and_out 100 90) 3%nat
            (mk_rng (fun _ => 1) 0) _ _ _ Hin).
  - discriminate.
  - reflexivity.
Defined.

(** ** A barrier at or above the spot *)

(** C3, as stated, fails for the Monte Carlo pricer: with the barrier at
    the spot (B_d = S0 = 100) it still draws its N * M normals, and a path
    that moves up at its first step is never at or below the barrier at a
    monitored time, so the price is positive. *)
Lemma mc_down_and_out_at_breached_barrier :
  100 >= 100 /\
  exists p ci g',
    mc_price 100 0.05 0.2 1 1 (down_and_out 100 100) 2 (mk_rng (fun _ => 1) 0)
      = Ret (p, ci, g') /\
    p <> 0 /\ 0 < p /\ cursor g' = 2%nat.
Proof.
  split; [lra|].
  do 3 eexists. split; [reflexivity|].
  cut (forall x : R, 0 < x -> x <> 0 /\ 0 < x /\ 2%nat = 2%nat);
    [intro Hc; apply Hc|intros x Hx; repeat split; lra].
  cbn [fst snd rows map_elems cumsum_axis1 randn map seq cumsum cumsum_from
       any_le_axis1 existsb last vanilla_call where_zero_else combine draws
       cursor Nat.add Nat.mul].
  set (li := log_increment 0.05 0.2 (1 / INR 1) 1).
  assert (Hli : 0 < li).
  { unfold li, log_increment. simpl INR.
    replace (1 / 1) with 1 by field. rewrite sqrt_1. lra. }
  assert (Hs : 100 < 100 * exp (0 + li)).
  { pose proof (exp_ineq1 (0 + li)) as He. lra. }
  replace (Rleb (100 * exp (0 + li)) 100) with false
    by (symmetry; apply Rleb_false_iff; exact Hs).
  cbn [orb].
  replace (Rmax (100 * exp (0 + li) - 100) 0) with (100 * exp (0 + li) - 100)
    by (unfold Rmax; destruct (Rle_dec (100 * exp (0 + li) - 100) 0); lra).
  unfold np_mean, Rsum. cbn [fold_right length]. simpl INR.
  pose proof (exp_pos (- (0.05) * 1)) as Hd.
  assert (0 < exp (- (0.05) * 1) * (100 * exp (0 + li) - 100))
    by (apply Rmult_lt_0_compat; lra).
  lra.
Qed.

Lemma mc_price_draws S0 r sigma T M fn N g p ci g' :
  mc_price S0 r sigma T M fn N g = Ret (p, ci, g') ->
  cursor g' = (cursor g + N * M)%nat.
Proof.
  unfold mc_price. destruct (Nat.eqb_spec M 0) as [E|NE].
  - unfold simulate_paths. subst M. cbn [Nat.eqb bind]. discriminate.
  - rewrite simulate_paths_eq by exact NE. cbn [bind fst snd].
    match goal with
    | |- context [fn ?a] => destruct (fn a) as [raw|e]
    end; cbn [bind]; [|discriminate].
    intro H. injection H as _ _ <-. reflexivity.
Qed.

(** C3, amended.  The closed form [down_and_out_call_rr] returns exactly
    0.0 whenever B >= S0, before it evaluates anything else and without
    raising.  The other down-and-out pricers have no such shortcut: the
    closed form of the Crank-Nicolson notebook rejects B >= S0 with a
    ValueError; [mc_price] always runs its simulation, consuming N * M
    draws whatever the barrier is; and [mc_do_call], whose monitored path
    starts at S0, arrives at 0.0 for B >= S0 by knocking out each of its
    N >= 1 simulated paths. *)
Theorem down_and_out_barrier_at_or_above_spot :
  (forall S0 K r sigma T B,
      B >= S0 -> down_and_out_call_rr S0 K r sigma T B = 0) /\
  (forall S0 K B r T sigma,
      B >= S0 ->
      CrankNicolsonNotebook.rr_down_out_call S0 K B r T sigma =
      Raise (ValueError "Barrier B must satisfy 0 < B < S0")) /\
  (forall S0 K r sigma T M B_d N g p ci g',
      mc_price S0 r sigma T M (down_and_out K B_d) N g = Ret (p, ci, g') ->
      cursor g' = (cursor g + N * M)%nat) /\
  (forall rngfn S0 K r sigma T B M N seed,
      B >= S0 -> M <> 0%nat -> N <> 0%nat ->
      mc_do_call rngfn S0 K r sigma T B M N seed = Ret 0).
Proof.
  split; [|split; [|split]].
  - intros S0 K r sigma T B H. unfold down_and_out_call_rr, Rgeb.
    replace (Rleb S0 B) with true by (symmetry; apply Rleb_true_iff; lra).
    reflexivity.
  - intros S0 K B r T sigma H. unfold CrankNicolsonNotebook.rr_down_out_call.
    replace (Rltb B S0) with false by (symmetry; apply Rltb_false_iff; lra).
    rewrite andb_false_r. reflexivity.
  - intros S0 K r sigma T M B_d N g p ci g'. apply mc_price_draws.
  - intros rngfn S0 K r sigma T B M N seed HB HM _. unfold mc_do_call.
    destruct (Nat.eqb_spec M 0) as [E|_]; [contradiction|].
    f_equal. unfold np_mean. rewrite Rsum_zero.
    + unfold Rdiv. ring.
    + apply Forall_map, Forall_forall. intros Z _.
      apply mc_do_call_path_knocked. exact HB.
Qed.

Lemma down_and_out_barrier_at_or_above_spot_witness :
  100 >= 100 /\ down_and_out_call_rr 100 100 0.05 0.2 1 100 = 0.
Proof.
  split; [lra|].
  apply (proj1 down_and_out_barrier_at_or_above_spot). lra.
Defined.

(** ** The tridiagonal solver *)

Lemma length_eliminate a b c d cp dp :
  length a = length d -> length b = length d -> length c = length d ->
  length (eliminate a b c d cp dp) = length d.
Proof.
  revert b c d cp dp. induction a as [|ai a IH]; intros [|bi b] [|ci c] [|di d] cp dp;
    simpl; intros Ha Hb Hc; try discriminate; try reflexivity.
  f_equal. apply IH; lia.
Qed.

Lemma length_back_substitute cd : length (back_substitute cd) = length cd.
Proof.
  induction cd as [|[cn dn] rest IH]; simpl; [reflexivity|].
  rewrite IH. reflexivity.
Qed.

(** Elimination and back substitution solve the system whose previous
    unknown is tied to the first one by the row already eliminated. *)
Lemma eliminate_solves a b c d cp dp :
  length a = length d -> length b = length d -> length c = length d ->
  pivots_nonzero a b c cp ->
  dot_rows (dp - cp * hd 0 (back_substitute (eliminate a b c d cp dp)))
           a b c (back_substitute (eliminate a b c d cp dp)) = d.
Proof.
  revert b c d cp dp.
  induction a as [|ai a IH]; intros [|bi b] [|ci c] [|di d] cp dp;
    simpl; intros Ha Hb Hc Hp; try discriminate; try reflexivity.
  destruct Hp as [Hm Hp].
  set (m := bi - ai * cp) in *.
  set (xs := back_substitute
               (eliminate a b c d (ci / m) ((di - ai * dp) / m))).
  f_equal.
  - unfold m. unfold m in Hm. field. exact Hm.
  - apply IH; try lia. exact Hp.
Qed.

Lemma length_spsolve A d :
  length (diagonal A) = length d ->
  S (length (lower A)) = length d ->
  S (length (upper A)) = length d ->
  length (spsolve A d) = length d.
Proof.
  intros Hb Ha Hc. unfold spsolve.
  rewrite length_back_substitute. apply length_eliminate; simpl; try lia.
  rewrite length_app. simpl. lia.
Qed.

(** The solver returns a solution of the system: [A.dot(spsolve(A, d)) = d]
    for a right-hand side of the matrix's size, when no pivot vanishes. *)
Theorem spsolve_correct A d :
  length (diagonal A) = length d ->
  S (length (lower A)) = length d ->
  S (length (upper A)) = length d ->
  nonsingular A ->
  tridiag_dot A (spsolve A d) = d.
Proof.
  intros Hb Ha Hc Hp. unfold tridiag_dot, spsolve.
  pose proof (eliminate_solves (0 :: lower A) (diagonal A) (upper A ++ [0]) d 0 0)
    as H.
  replace (0 - 0 * hd 0 (back_substitute
             (eliminate (0 :: lower A) (diagonal A) (upper A ++ [0]) d 0 0)))
    with 0 in H by ring.
  apply H; simpl; try lia; [rewrite length_app; simpl; lia|exact Hp].
Qed.

Lemma Rmax_0_of_nonpos x : x <= 0 -> Rmax x 0 = 0.
Proof. intro H. unfold Rmax. destruct (Rle_dec x 0); lra. Qed.

Lemma Rmax_0_of_nonneg x : 0 <= x -> Rmax x 0 = x.
Proof. intro H. unfold Rmax. destruct (Rle_dec x 0); lra. Qed.

(** ** The barrier solver on a coarse grid

    The notebook's market data, K = 100, r = 0.05, sigma = 0.2, T = 1 and
    B = 90, on the grid Smax = 200, N_S = 4 (nodes 0, 50, 100, 150, 200)
    with a single time step. *)

Lemma coarse_grid_jB : ComparisonNotebook.jB 90 200 4 = 1%Z.
Proof.
  unfold ComparisonNotebook.jB, ComparisonNotebook.dS, py_int. simpl INR.
  destruct (Rle_dec 0 (90 / (200 / (1 + 1 + 1 + 1)))) as [_|H]; [|lra].
  apply Zfloor_eq. simpl IZR. lra.
Qed.

Lemma coarse_grid_terminal :
  ComparisonNotebook.terminal 100 90 200 4 = [0; 0; 0; 50; 100].
Proof.
  unfold ComparisonNotebook.terminal. rewrite coarse_grid_jB.
  change (set_prefix (map (fun s => Rmax (s - 100) 0)
                          (ComparisonNotebook.S_grid 200 4)) (1 + 1) 0)
    with [0; 0; Rmax (INR 2 * (200 / INR 4) - 100) 0;
          Rmax (INR 3 * (200 / INR 4) - 100) 0;
          Rmax (INR 4 * (200 / INR 4) - 100) 0].
  simpl INR.
  rewrite Rmax_0_of_nonpos by lra.
  rewrite !Rmax_0_of_nonneg by lra.
  repeat f_equal; lra.
Qed.

Lemma pivots_nonzero_cons ai bi ci a b c cp cn :
  bi - ai * cp <> 0 -> ci / (bi - ai * cp) = cn ->
  pivots_nonzero a b c cn ->
  pivots_nonzero (ai :: a) (bi :: b) (ci :: c) cp.
Proof. intros Hm <- Hp. split; assumption. Qed.

(** Unfolding of the Crank-Nicolson matrices down to their coefficients. *)
Ltac unfold_cn_matrices :=
  unfold tridiag_dot, ComparisonNotebook.M1, ComparisonNotebook.M2,
    ComparisonNotebook.alpha, ComparisonNotebook.beta,
    ComparisonNotebook.gamma, ComparisonNotebook.j, ComparisonNotebook.dt
    in *.

Lemma coarse_grid_nonsingular :
  nonsingular (ComparisonNotebook.M1 0.05 0.2 1 4 1).
Proof.
  unfold nonsingular. unfold_cn_matrices.
  cbn [Nat.sub seq map tl removelast lower diagonal upper app].
  unfold cn_alpha, cn_beta, cn_gamma. simpl INR.
  apply pivots_nonzero_cons with (cn := - 9 / 418); [lra|lra|].
  apply pivots_nonzero_cons with (cn := - 5434 / 92351); [lra| |].
  { match goal with
    | |- _ / ?m = _ => replace m with (92351 / 83600) by lra
    end. lra. }
  apply pivots_nonzero_cons with (cn := 0); [lra| |exact I].
  unfold Rdiv. apply Rmult_0_l.
Qed.

(** C7 (evaluation of the code).  [pde_do_call_cn] with the notebook's
    market data K = 100, r = 0.05, sigma = 0.2, T = 1, B = 90 on the grid
    Smax = 200, N_S = 4, N_t = 1: the barrier node is jB = floor(90 / 50) = 1,
    and after the backward time step the value at the lower boundary is 0
    but the value at the barrier node is 1170000 / 11099767, not 0.  The
    loop zeroes V[0] and V[jB] before the solve, and the solve over the
    nodes 1 .. N_S - 1 overwrites the barrier node. *)
Theorem pde_do_call_cn_barrier_node_not_absorbed :
  ComparisonNotebook.jB 90 200 4 = 1%Z /\
  exists V,
    ComparisonNotebook.march 100 0.05 0.2 1 90 200 4 1 1 = Ret V /\
    nth 0 V 0 = 0 /\
    nth 1 V 0 = 1170000 / 11099767 /\
    nth 1 V 0 <> 0.
Proof.
  split; [exact coarse_grid_jB|].
  unfold ComparisonNotebook.march. cbn [Nat.eqb].
  replace (Reqb (ComparisonNotebook.dS 200 4) 0) with false
    by (symmetry; apply Reqb_false_iff; unfold ComparisonNotebook.dS;
        simpl INR; lra).
  cbn [for_range]. rewrite coarse_grid_terminal.
  unfold ComparisonNotebook.step, ComparisonNotebook.enforce.
  rewrite coarse_grid_jB.
  set (bc := 200 - 100 * exp (- (0.05)
                              * (1 - INR 0 * ComparisonNotebook.dt 1 1))).
  change (V1 <- setitem [0; 0; 0; 50; 100] 0 0;;
          V2 <- setitem V1 1 0;; setitem V2 (-1) bc)
    with (Ret [0; 0; 0; 50; bc]).
  cbn [bind]. change (interior [0; 0; 0; 50; bc]) with [0; 0; 50].
  set (M1 := ComparisonNotebook.M1 0.05 0.2 1 4 1).
  set (M2 := ComparisonNotebook.M2 0.05 0.2 1 4 1).
  set (rhs := tridiag_dot M2 [0; 0; 50]).
  pose proof (spsolve_correct M1 rhs eq_refl eq_refl eq_refl
                              coarse_grid_nonsingular) as Hx.
  pose proof (length_spsolve M1 rhs eq_refl eq_refl eq_refl) as Hlen.
  destruct (spsolve M1 rhs) as [|x1 [|x2 [|x3 [|x4 xs]]]]; try discriminate Hlen.
  eexists. split; [reflexivity|].
  cbn [set_interior nth hd app].
  unfold rhs, M1, M2 in Hx. unfold_cn_matrices.
  cbn [Nat.sub seq map tl removelast lower diagonal upper app dot_rows hd] in Hx.
  unfold cn_alpha, cn_beta, cn_gamma in Hx. simpl INR in Hx.
  injection Hx as E1 E2 E3.
  assert (H1 : x1 = 1170000 / 11099767) by lra.
  split; [reflexivity|]. split; [exact H1|]. lra.
Qed.

(** ** Boundary values after a backward time step *)

Lemma length_set_nth k v l : length (set_nth k v l) = length l.
Proof.
  revert k. induction l as [|x t IH]; intros [|k]; simpl; try reflexivity.
  rewrite IH. reflexivity.
Qed.

Lemma nth_set_nth_eq k v l d :
  (k < length l)%nat -> nth k (set_nth k v l) d = v.
Proof.
  revert k. induction l as [|x t IH]; intros [|k] H; simpl in *; try lia.
  - reflexivity.
  - apply IH. lia.
Qed.

Lemma nth_set_nth_neq k j v l d :
  k <> j -> nth j (set_nth k v l) d = nth j l d.
Proof.
  revert k j. induction l as [|x t IH]; intros [|k] [|j] H; simpl;
    try reflexivity; try contradiction.
  apply IH. lia.
Qed.

Lemma hd_nth {A : Type} (l : list A) (d : A) : hd d l = nth 0 l d.
Proof. destruct l; reflexivity. Qed.

Lemma setitem_length V i v V' : setitem V i v = Ret V' -> length V' = length V.
Proof.
  unfold setitem. destruct (py_index (length V) i) as [k|e]; cbn [bind];
    [|discriminate].
  intro H. injection H as <-. apply length_set_nth.
Qed.

Lemma setitem_first V v :
  (1 <= length V)%nat -> setitem V 0 v = Ret (set_nth 0 v V).
Proof.
  intro H. unfold setitem, py_index.
  replace ((0 <=? 0)%Z && (0 <? Z.of_nat (length V))%Z) with true; [reflexivity|].
  symmetry. apply andb_true_iff. split; [reflexivity|]. apply Z.ltb_lt. lia.
Qed.

Lemma setitem_last V v :
  (1 <= length V)%nat -> setitem V (-1) v = Ret (set_nth (length V - 1) v V).
Proof.
  intro H. unfold setitem, py_index.
  replace ((0 <=? -1)%Z && (-1 <? Z.of_nat (length V))%Z) with false by reflexivity.
  replace ((-1 <? 0)%Z && (- Z.of_nat (length V) <=? -1)%Z) with true.
  - cbn [bind]. do 2 f_equal. lia.
  - symmetry. apply andb_true_iff. split; [reflexivity|]. apply Z.leb_le. lia.
Qed.

Lemma setitem_nth V i v V' :
  setitem V i v = Ret V' ->
  exists k, (k < length V)%nat /\ V' = set_nth k v V.
Proof.
  unfold setitem, py_index.
  destruct ((0 <=? i)%Z && (i <? Z.of_nat (length V))%Z) eqn:E1.
  - cbn [bind]. intro H. injection H as <-.
    apply andb_true_iff in E1. destruct E1 as [E1 E2].
    apply Z.leb_le in E1. apply Z.ltb_lt in E2.
    exists (Z.to_nat i). split; [lia|reflexivity].
  - destruct ((i <? 0)%Z && (- Z.of_nat (length V) <=? i)%Z) eqn:E2;
      cbn [bind]; [|discriminate].
    intro H. injection H as <-.
    apply andb_true_iff in E2. destruct E2 as [E2 E3].
    apply Z.ltb_lt in E2. apply Z.leb_le in E3.
    exists (Z.to_nat (Z.of_nat (length V) + i)). split; [lia|reflexivity].
Qed.

Lemma last_set_interior V x : last (set_interior V x) 0 = last V 0.
Proof.
  unfold set_interior.
  change (hd 0 V :: x ++ [last V 0]) with ((hd 0 V :: x) ++ [last V 0]).
  apply last_last.
Qed.

(** What the three assignments at the head of the loop body establish. *)
Lemma pde_enforce_spec K r T B Smax N_S N_t n V V3 :
  (2 <= length V)%nat ->
  ComparisonNotebook.enforce K r T B Smax N_S N_t n V = Ret V3 ->
  length V3 = length V /\
  nth 0 V3 0 = 0 /\
  (forall k, py_index (length V) (ComparisonNotebook.jB B Smax N_S) = Ret k ->
             (k < length V - 1)%nat -> nth k V3 0 = 0) /\
  last V3 0 = Smax - K * exp (- r * (T - INR n * ComparisonNotebook.dt T N_t)).
Proof.
  intros Hlen. unfold ComparisonNotebook.enforce.
  rewrite setitem_first by lia. cbn [bind].
  destruct (setitem (set_nth 0 0 V) (ComparisonNotebook.jB B Smax N_S) 0) as [V2|e] eqn:E2;
    cbn [bind]; [|discriminate].
  pose proof (setitem_length _ _ _ _ E2) as L2. rewrite length_set_nth in L2.
  rewrite setitem_last by lia. intro H. injection H as <-.
  set (bc := Smax - K * exp (- r * (T - INR n * ComparisonNotebook.dt T N_t))).
  split; [rewrite length_set_nth; exact L2|].
  assert (H0 : nth 0 V2 0 = 0).
  { destruct (setitem_nth _ _ _ _ E2) as (k & Hk & ->).
    destruct k as [|k].
    - apply nth_set_nth_eq. exact Hk.
    - rewrite nth_set_nth_neq by lia.
      apply nth_set_nth_eq. lia. }
  split; [rewrite nth_set_nth_neq by lia; exact H0|].
  split.
  - intros k Hk Hlt. rewrite nth_set_nth_neq by lia.
    unfold setitem in E2. rewrite length_set_nth, Hk in E2. cbn [bind] in E2.
    injection E2 as <-. apply nth_set_nth_eq. destruct V; simpl in *; lia.
  - rewrite last_nth, length_set_nth. apply nth_set_nth_eq. lia.
Qed.

(** After each pass through the loop body the lower boundary value is 0 and
    the upper boundary value is Smax - K e^(-r (T - n dt)). *)
Lemma pde_step_boundaries K r sigma T B Smax N_S N_t n V V' :
  (2 <= length V)%nat ->
  ComparisonNotebook.step K r sigma T B Smax N_S N_t n V = Ret V' ->
  (2 <= length V')%nat /\
  nth 0 V' 0 = 0 /\
  last V' 0 = Smax - K * exp (- r * (T - INR n * ComparisonNotebook.dt T N_t)).
Proof.
  intros Hlen. unfold ComparisonNotebook.step.
  destruct (ComparisonNotebook.enforce K r T B Smax N_S N_t n V) as [V3|e] eqn:E;
    cbn [bind]; [|discriminate].
  destruct (pde_enforce_spec _ _ _ _ _ _ _ _ _ _ Hlen E) as (L3 & H0 & _ & HM).
  intro H. injection H as <-.
  split; [|split].
  - unfold set_interior. simpl. rewrite length_app. simpl. lia.
  - unfold set_interior. cbn [nth]. rewrite hd_nth. exact H0.
  - rewrite last_set_interior. exact HM.
Qed.

Lemma for_range_snoc body start count V :
  for_range body start (S count) V =
  (V' <- for_range body start count V ;; body (start + count)%nat V').
Proof.
  revert start V. induction count as [|c IH]; intros start V.
  - cbn [for_range bind]. rewrite Nat.add_0_r.
    destruct (body start V); reflexivity.
  - change (for_range body start (S (S c)) V)
      with (V' <- body start V ;; for_range body (S start) (S c) V').
    change (for_range body start (S c) V)
      with (V' <- body start V ;; for_range body (S start) c V').
    destruct (body start V) as [V1|e]; cbn [bind]; [|reflexivity].
    rewrite IH. replace (S start + c)%nat with (start + S c)%nat by lia.
    reflexivity.
Qed.

Lemma for_range_length_ge2 body start count V V' :
  (forall n W W', (2 <= length W)%nat -> body n W = Ret W' -> (2 <= length W')%nat) ->
  (2 <= length V)%nat ->
  for_range body start count V = Ret V' -> (2 <= length V')%nat.
Proof.
  intro Hb. revert start V. induction count as [|c IH]; intros start V HV.
  - cbn [for_range]. intro H. injection H as <-. exact HV.
  - cbn [for_range]. destruct (body start V) as [V1|e] eqn:E; cbn [bind];
      [|discriminate].
    apply IH. exact (Hb _ _ _ HV E).
Qed.

Lemma length_set_prefix V k v : length (set_prefix V k v) = length V.
Proof.
  unfold set_prefix. rewrite length_app, repeat_length, length_skipn.
  assert (slice_stop (length V) k <= length V)%nat; [|lia].
  unfold slice_stop. destruct (Z.leb_spec 0 k); lia.
Qed.

Lemma length_pde_terminal K B Smax N_S :
  length (ComparisonNotebook.terminal K B Smax N_S) = (N_S + 1)%nat.
Proof.
  unfold ComparisonNotebook.terminal, ComparisonNotebook.S_grid, linspace0.
  rewrite length_set_prefix, !length_map, length_seq. reflexivity.
Qed.

(** The boundary values after [k + 1] backward time steps. *)
Lemma pde_march_boundaries K r sigma T B Smax N_S N_t k V :
  ComparisonNotebook.march K r sigma T B Smax N_S N_t (S k) = Ret V ->
  nth 0 V 0 = 0 /\
  last V 0 = Smax - K * exp (- r * (T - INR k * ComparisonNotebook.dt T N_t)).
Proof.
  unfold ComparisonNotebook.march.
  destruct (Nat.eqb_spec N_S 0) as [|HN]; [discriminate|].
  destruct (N_t =? 0)%nat; [discriminate|].
  destruct (Reqb (ComparisonNotebook.dS Smax N_S) 0); [discriminate|].
  destruct (N_S =? 1)%nat; [discriminate|].
  rewrite for_range_snoc.
  destruct (for_range (ComparisonNotebook.step K r sigma T B Smax N_S N_t) 0 k
                      (ComparisonNotebook.terminal K B Smax N_S)) as [Vk|e] eqn:E;
    cbn [bind]; [|discriminate].
  intro H.
  assert (Hk : (2 <= length Vk)%nat).
  { refine (for_range_length_ge2 _ _ _ _ _ _ _ E).
    - intros m W W' HW Hs.
      exact (proj1 (pde_step_boundaries K r sigma T B Smax N_S N_t m W W' HW Hs)).
    - rewrite length_pde_terminal. lia. }
  destruct (pde_step_boundaries _ _ _ _ _ _ _ _ _ _ _ Hk H) as (_ & H0 & HM).
  split; assumption.
Qed.

(** ** The sibling solver of the Crank-Nicolson notebook *)

Lemma nth_combine_lt {A B : Type} (l : list A) (l' : list B) i x y :
  (i < length l)%nat -> (i < length l')%nat ->
  nth i (combine l l') (x, y) = (nth i l x, nth i l' y).
Proof.
  revert l' i. induction l as [|a t IH]; intros [|b t'] [|i] H H';
    simpl in *; try lia; try reflexivity.
  apply IH; lia.
Qed.

Lemma nth_zero_below B S V i :
  (i < length S)%nat -> (i < length V)%nat ->
  nth i (CrankNicolsonNotebook.zero_below B S V) 0 =
  if Rltb (nth i S 0) B then 0 else nth i V 0.
Proof.
  intros HS HV. unfold CrankNicolsonNotebook.zero_below.
  rewrite (nth_map_lt _ _ _ (0, 0)) by (rewrite length_combine; lia).
  rewrite nth_combine_lt by assumption. reflexivity.
Qed.

Lemma length_zero_below B S V :
  length (CrankNicolsonNotebook.zero_below B S V) = Nat.min (length S) (length V).
Proof.
  unfold CrankNicolsonNotebook.zero_below.
  rewrite length_map, length_combine. reflexivity.
Qed.

(** After each pass through the loop body of [crank_nicolson_barrier] the
    value is 0 at every node strictly below the barrier, 0 at the lower
    boundary, and Smax - K e^(-r (T - (n + 1) dt)) at the upper boundary. *)
Lemma crank_nicolson_barrier_step_enforced K r sigma T B Smax N_S N_t n V V' :
  N_S <> 0%nat ->
  CrankNicolsonNotebook.step K r sigma T B Smax N_S N_t n V = Ret V' ->
  nth 0 V' 0 = 0 /\
  last V' 0 = Smax - K * exp (- r * ((T - INR n * (T / INR N_t)) - T / INR N_t)) /\
  forall i, (i < length V' - 1)%nat ->
            nth i (CrankNicolsonNotebook.S Smax N_S) 0 < B -> nth i V' 0 = 0.
Proof.
  intros HN. unfold CrankNicolsonNotebook.step.
  match goal with
  | |- context [CrankNicolsonNotebook.sub_last ?a ?b] =>
      destruct (CrankNicolsonNotebook.sub_last a b) as [rhs|e]
  end; cbn [bind]; [|discriminate].
  set (V1 := set_interior V _).
  set (S := CrankNicolsonNotebook.S Smax N_S).
  set (V2 := CrankNicolsonNotebook.zero_below B S V1).
  set (bc := CrankNicolsonNotebook.bc_val K r T Smax N_t n).
  assert (LS : length S = (N_S + 1)%nat).
  { unfold S, CrankNicolsonNotebook.S, linspace0.
    rewrite length_map, length_seq. reflexivity. }
  assert (L1 : (2 <= length V1)%nat).
  { unfold V1, set_interior. simpl. rewrite length_app. simpl. lia. }
  assert (L2 : (2 <= length V2)%nat).
  { unfold V2. rewrite length_zero_below. lia. }
  rewrite setitem_first by lia. cbn [bind].
  rewrite setitem_last by (rewrite length_set_nth; lia).
  rewrite length_set_nth. intro H. apply Ret_inj in H. subst V'.
  rewrite !length_set_nth.
  split; [|split].
  - rewrite nth_set_nth_neq by lia. apply nth_set_nth_eq. lia.
  - rewrite last_nth, !length_set_nth. apply nth_set_nth_eq.
    rewrite length_set_nth. lia.
  - intros i Hi HB. rewrite nth_set_nth_neq by lia.
    destruct i as [|i]; [apply nth_set_nth_eq; lia|].
    rewrite nth_set_nth_neq by lia.
    unfold V2 in *. rewrite length_zero_below in Hi.
    rewrite nth_zero_below by lia.
    replace (Rltb (nth (Datatypes.S i) S 0) B) with true
      by (symmetry; apply Rltb_true_iff; exact HB).
    reflexivity.
Qed.

(** * Further properties of the code *)

(** ** The closed forms *)

Lemma Rgeb_true_iff x y : Rgeb x y = true <-> y <= x.
Proof. unfold Rgeb. apply Rleb_true_iff. Qed.

Lemma Rgeb_false_iff x y : Rgeb x y = false <-> x < y.
Proof. unfold Rgeb. apply Rleb_false_iff. Qed.

Lemma not_degenerate S K T sigma :
  0 < S -> 0 < K -> 0 < T -> 0 < sigma ->
  Rleb T 0 || Rleb sigma 0 || Rleb S 0 || Rleb K 0 = false.
Proof.
  intros HS HK HT Hs.
  replace (Rleb T 0) with false by (symmetry; apply Rleb_false_iff; lra).
  replace (Rleb sigma 0) with false by (symmetry; apply Rleb_false_iff; lra).
  replace (Rleb S 0) with false by (symmetry; apply Rleb_false_iff; lra).
  replace (Rleb K 0) with false by (symmetry; apply Rleb_false_iff; lra).
  reflexivity.
Qed.

(** X1.  On a valid input (S, K, T, sigma positive, flag "call" or "put")
    the report's [black_scholes_price] and the notebook's [bsm_price]
    return the same number. *)
Theorem analytic_pricers_agree S K T r sigma option_type :
  0 < S -> 0 < K -> 0 < T -> 0 < sigma ->
  option_type = "call"%string \/ option_type = "put"%string ->
  black_scholes_price S K T r sigma option_type
  = Ret (bsm_price S K r sigma T option_type).
Proof.
  intros HS HK HT Hs Hflag.
  unfold black_scholes_price, bsm_price.
  rewrite not_degenerate by assumption.
  replace (Reqb T 0) with false by (symmetry; apply Reqb_false_iff; lra).
  destruct Hflag as [-> | ->]; reflexivity.
Qed.

Lemma analytic_pricers_agree_witness :
  black_scholes_price 100 100 1 0.05 0.2 "put"
  = Ret (bsm_price 100 100 0.05 0.2 1 "put").
Proof.
  apply analytic_pricers_agree; try lra. right. reflexivity.
Defined.

(** The first argument of the normal distribution function in
    [down_and_out_call_rr] is the d1 of the Black-Scholes formula. *)
Lemma rr_x1_is_d1 S0 K T r sigma :
  0 < T -> 0 < sigma ->
  ln (S0 / K) / (sigma * sqrt T)
  + (r + 0.5 * sigma ^ 2) / sigma ^ 2 * sigma * sqrt T
  = bs_d1 S0 K T r sigma.
Proof.
  intros HT Hs. unfold bs_d1.
  assert (Hq : 0 < sqrt T) by (apply sqrt_lt_R0; exact HT).
  assert (HTq : T = sqrt T * sqrt T) by (symmetry; apply sqrt_sqrt; lra).
  rewrite HTq at 3. field. split; lra.
Qed.

(** X2.  For a positive barrier below the spot, the closed form
    [down_and_out_call_rr] is the Black-Scholes call price of
    [black_scholes_price] minus the knock-in term
    S0 (B/S0)^(2 lambda) Phi(y1)
    - K e^(-rT) (B/S0)^(2 lambda - 2) Phi(y1 - sigma sqrt T). *)
Theorem down_and_out_call_rr_is_vanilla_minus_knock_in S0 K r sigma T B :
  0 < S0 -> 0 < K -> 0 < T -> 0 < sigma -> 0 < B -> B < S0 ->
  let lambda_ := (r + 0.5 * sigma ^ 2) / sigma ^ 2 in
  let y1 := ln (B ^ 2 / (S0 * K)) / (sigma * sqrt T)
            + lambda_ * sigma * sqrt T in
  let knock_in :=
    S0 * Rpower (B / S0) (2 * lambda_) * norm_cdf y1
    - K * exp (- r * T) * Rpower (B / S0) (2 * lambda_ - 2)
      * norm_cdf (y1 - sigma * sqrt T) in
  black_scholes_price S0 K T r sigma "call"
  = Ret (down_and_out_call_rr S0 K r sigma T B + knock_in).
Proof.
  intros HS HK HT Hs _ HB lambda_ y1 knock_in.
  unfold black_scholes_price, down_and_out_call_rr.
  rewrite not_degenerate by assumption.
  replace (Rgeb B S0) with false by (symmetry; apply Rgeb_false_iff; lra).
  cbn [String.eqb Ascii.eqb Bool.eqb].
  fold lambda_. fold y1.
  unfold lambda_ at 1 2. rewrite rr_x1_is_d1 by assumption.
  unfold bs_d2, knock_in. f_equal. ring.
Qed.

Lemma down_and_out_call_rr_is_vanilla_minus_knock_in_witness :
  let lambda_ := (0.05 + 0.5 * 0.2 ^ 2) / 0.2 ^ 2 in
  let y1 := ln (90 ^ 2 / (100 * 100)) / (0.2 * sqrt 1)
            + lambda_ * 0.2 * sqrt 1 in
  let knock_in :=
    100 * Rpower (90 / 100) (2 * lambda_) * norm_cdf y1
    - 100 * exp (- (0.05) * 1) * Rpower (90 / 100) (2 * lambda_ - 2)
      * norm_cdf (y1 - 0.2 * sqrt 1) in
  black_scholes_price 100 100 1 0.05 0.2 "call"
  = Ret (down_and_out_call_rr 100 100 0.05 0.2 1 90 + knock_in).
Proof.
  apply (down_and_out_call_rr_is_vanilla_minus_knock_in 100 100 0.05 0.2 1 90);
    lra.
Defined.

(** X3.  Where both accept the barrier (0 < B < S0 and B < K) and sigma and
    T are positive, the closed form of the barrier Monte Carlo notebook and
    the closed form of the Crank-Nicolson notebook return the same number. *)
Theorem rr_down_out_call_notebooks_agree S0 K B r T sigma :
  0 < B -> B < S0 -> B < K -> 0 < T -> 0 < sigma ->
  exists v,
    BarrierNotebookClosedForm.rr_down_out_call S0 K B r T sigma = Ret v /\
    CrankNicolsonNotebook.rr_down_out_call S0 K B r T sigma = Ret v.
Proof.
  intros HB0 HBS HBK HT Hs.
  unfold BarrierNotebookClosedForm.rr_down_out_call,
         CrankNicolsonNotebook.rr_down_out_call.
  replace (Rgeb B K) with false by (symmetry; apply Rgeb_false_iff; lra).
  replace (Rleb B 0) with false by (symmetry; apply Rleb_false_iff; lra).
  replace (Rltb 0 B) with true by (symmetry; apply Rltb_true_iff; lra).
  replace (Rltb B S0) with true by (symmetry; apply Rltb_true_iff; lra).
  cbn [orb andb negb].
  assert (Hq : 0 < sqrt T) by (apply sqrt_lt_R0; exact HT).
  eexists. split; [reflexivity|].
  replace (B * B) with (B ^ 2) by ring.
  set (lam := (r + 0.5 * sigma ^ 2) / sigma ^ 2).
  assert (E : forall l,
             (l + lam * (sigma * sqrt T) ^ 2) / (sigma * sqrt T)
             = l / (sigma * sqrt T) + lam * sigma * sqrt T).
  { intro l. field. split; lra. }
  rewrite !E. reflexivity.
Qed.

Lemma rr_down_out_call_notebooks_agree_witness :
  exists v,
    BarrierNotebookClosedForm.rr_down_out_call 100 100 90 0.05 1 0.2 = Ret v /\
    CrankNicolsonNotebook.rr_down_out_call 100 100 90 0.05 1 0.2 = Ret v.
Proof.
  apply rr_down_out_call_notebooks_agree; lra.
Defined.



(** X5.  For positive S0, K, T and sigma the Kemna-Vorst call and put of
    [kemna_vorst_geo_asian] differ by e^(-rT) (S0 e^(mu_hat T) - K); the
    quantity that the notebook prints as its parity check,
    call - put - (S0 - K e^(-rT)), is therefore
    S0 (e^((mu_hat - r) T) - 1). *)
Theorem kemna_vorst_put_call_parity S0 K T r sigma n :
  0 < S0 -> 0 < K -> 0 < T -> 0 < sigma ->
  kemna_vorst_geo_asian S0 K T r sigma n true
  - kemna_vorst_geo_asian S0 K T r sigma n false
  = exp (- r * T) * (S0 * exp (kv_mu_hat r sigma n * T) - K) /\
  kemna_vorst_geo_asian S0 K T r sigma n true
  - kemna_vorst_geo_asian S0 K T r sigma n false
  - (S0 * exp (- 0) - K * exp (- r * T))
  = S0 * (exp ((kv_mu_hat r sigma n - r) * T) - 1).
Proof.
  intros _ _ _ _. unfold kemna_vorst_geo_asian.
  set (mu := kv_mu_hat r sigma n). set (sh := kv_sigma_hat sigma n).
  set (d1 := (ln (S0 / K) + (mu + 0.5 * sh ^ 2) * T) / (sh * sqrt T)).
  set (d2 := d1 - sh * sqrt T).
  pose proof (norm_cdf_sym d1) as H1. pose proof (norm_cdf_sym d2) as H2.
  assert (E : exp (- r * T) * (S0 * exp (mu * T) * norm_cdf d1 - K * norm_cdf d2)
              - exp (- r * T)
                * (K * norm_cdf (- d2) - S0 * exp (mu * T) * norm_cdf (- d1))
              = exp (- r * T) * (S0 * exp (mu * T) - K)).
  { replace (norm_cdf (- d1)) with (1 - norm_cdf d1) by lra.
    replace (norm_cdf (- d2)) with (1 - norm_cdf d2) by lra. ring. }
  split; [exact E|]. rewrite E.
  replace ((mu - r) * T) with (- r * T + mu * T) by ring.
  rewrite exp_plus, Ropp_0, exp_0. ring.
Qed.

Lemma kemna_vorst_put_call_parity_witness :
  kemna_vorst_geo_asian 100 100 1 0.05 0.2 50 true
  - kemna_vorst_geo_asian 100 100 1 0.05 0.2 50 false
  = exp (- (0.05) * 1) * (100 * exp (kv_mu_hat 0.05 0.2 50 * 1) - 100) /\
  kemna_vorst_geo_asian 100 100 1 0.05 0.2 50 true
  - kemna_vorst_geo_asian 100 100 1 0.05 0.2 50 false
  - (100 * exp (- 0) - 100 * exp (- (0.05) * 1))
  = 100 * (exp ((kv_mu_hat 0.05 0.2 50 - 0.05) * 1) - 1).
Proof.
  apply (kemna_vorst_put_call_parity 100 100 1 0.05 0.2 50); lra.
Defined.

(** ** Monte Carlo pricers that compute the same estimate *)

Lemma Rleb_Rmin x y b : Rleb (Rmin x y) b = Rleb x b || Rleb y b.
Proof.
  destruct (Rleb x b) eqn:Ex; destruct (Rleb y b) eqn:Ey; cbn [orb];
    try apply Rleb_true_iff in Ex; try apply Rleb_false_iff in Ex;
    try apply Rleb_true_iff in Ey; try apply Rleb_false_iff in Ey;
    try (apply Rleb_false_iff); try (apply Rleb_true_iff);
    unfold Rmin; destruct (Rle_dec x y); lra.
Qed.

Lemma fold_left_Rmin_leb t x b :
  Rleb (fold_left Rmin t x) b = Rleb x b || existsb (fun s => Rleb s b) t.
Proof.
  revert x. induction t as [|y t IH]; intro x; cbn [fold_left existsb].
  - rewrite orb_false_r. reflexivity.
  - rewrite IH, orb_assoc, Rleb_Rmin. reflexivity.
Qed.

(** [np.min(x) <= b] says the same as [(x <= b).any()]. *)
Lemma np_min_leb l b : Rleb (np_min l) b = existsb (fun s => Rleb s b) l \/ l = [].
Proof.
  destruct l as [|x t]; [right; reflexivity|left].
  cbn [np_min existsb]. apply fold_left_Rmin_leb.
Qed.

Lemma where_zero_else_map {A : Type} (p : A -> bool) (q : A -> R) (l : list A) :
  where_zero_else (map p l) (map q l)
  = map (fun x => if p x then 0 else q x) l.
Proof.
  unfold where_zero_else.
  induction l as [|x l IH]; [reflexivity|].
  cbn [map combine fst snd]. rewrite IH. reflexivity.
Qed.

Lemma where_else_zero_map {A : Type} (p : A -> bool) (q : A -> R) (l : list A) :
  where_else_zero (map p l) (map q l)
  = map (fun x => if p x then q x else 0) l.
Proof.
  unfold where_else_zero.
  induction l as [|x l IH]; [reflexivity|].
  cbn [map combine fst snd]. rewrite IH. reflexivity.
Qed.

Lemma randn_rows_length N M g :
  Forall (fun row => length row = M) (rows (fst (randn N M g))).
Proof.
  cbn [randn fst rows]. apply Forall_forall. intros row Hin.
  apply in_map_iff in Hin. destruct Hin as [i [<- _]].
  rewrite length_map, length_seq. reflexivity.
Qed.

(** The payoffs that the barrier notebook computes from the array of
    simulated paths, one row at a time. *)
Lemma notebook_payoffs_by_row S0 K r sigma T M N g B (up knock_in : bool) :
  M <> 0%nat ->
  let price_row := fun z : list R =>
    map (fun x => S0 * exp x) (cumsum (map (log_increment r sigma (T / INR M)) z)) in
  let paths := map_elems (fun x => S0 * exp x)
                 (cumsum_axis1 (map_elems (log_increment r sigma (T / INR M))
                                          (fst (randn N M g)))) in
  let knocked := if up then any_ge_axis1 paths B else any_le_axis1 paths B in
  exists ST,
    last_column paths = Ret ST /\
    (if knock_in then where_else_zero knocked (vanilla_call K ST)
     else where_zero_else knocked (vanilla_call K ST))
    = map (fun z =>
             let hit := if up then existsb (fun s => Rgeb s B) (price_row z)
                        else existsb (fun s => Rleb s B) (price_row z) in
             let v := Rmax (last (price_row z) 0 - K) 0 in
             if knock_in then (if hit then v else 0) else (if hit then 0 else v))
          (rows (fst (randn N M g))).
Proof.
  intros HM price_row paths knocked.
  exists (map (fun z => last (price_row z) 0) (rows (fst (randn N M g)))).
  split.
  - unfold paths. rewrite last_column_ok by exact HM. f_equal.
    cbn [rows map_elems cumsum_axis1]. rewrite !map_map. reflexivity.
  - assert (Ek : knocked
                 = map (fun z => if up
                                 then existsb (fun s => Rgeb s B) (price_row z)
                                 else existsb (fun s => Rleb s B) (price_row z))
                       (rows (fst (randn N M g)))).
    { unfold knocked, paths, any_ge_axis1, any_le_axis1.
      cbn [rows map_elems cumsum_axis1]. rewrite !map_map.
      destruct up; reflexivity. }
    rewrite Ek. unfold vanilla_call. rewrite map_map.
    destruct knock_in.
    + rewrite where_else_zero_map. reflexivity.
    + rewrite where_zero_else_map. reflexivity.
Qed.

(** X6.  The loop of [mc_barrier_down_out_call] and the array code of the
    barrier notebook compute the same estimate: from the same generator
    state, [mc_barrier_down_out_call] returns what [mc_price] returns for
    the payoff [down_and_out] with the same strike and barrier, for every
    input (a zero step count raises ZeroDivisionError in both). *)
Theorem mc_barrier_down_out_call_is_mc_price_down_and_out
        seedfn S0 K r sigma T B N_paths M seed g :
  mc_barrier_down_out_call seedfn S0 K r sigma T B N_paths M seed g
  = mc_price S0 r sigma T M (down_and_out K B) N_paths (reseed seedfn seed g).
Proof.
  set (g0 := reseed seedfn seed g).
  unfold mc_barrier_down_out_call, mc_price. fold g0.
  destruct (Nat.eqb_spec M 0) as [E|HM].
  - subst M. reflexivity.
  - rewrite simulate_paths_eq by exact HM. cbn [bind fst snd].
    destruct (notebook_payoffs_by_row S0 K r sigma T M N_paths g0 B false false HM)
      as [ST [HST Hpay]].
    unfold down_and_out. rewrite HST. cbn [bind]. cbv zeta in Hpay.
    rewrite Hpay.
    assert (Erows : map (mc_barrier_path S0 K r sigma T B M)
                        (rows (fst (randn N_paths M g0)))
                    = map (fun z =>
                             if existsb (fun s => Rleb s B)
                                  (map (fun x => S0 * exp x)
                                     (cumsum (map (log_increment r sigma (T / INR M)) z)))
                             then 0
                             else Rmax (last (map (fun x => S0 * exp x)
                                     (cumsum (map (log_increment r sigma (T / INR M)) z))) 0
                                        - K) 0)
                          (rows (fst (randn N_paths M g0)))).
    { apply map_ext_Forall.
      eapply Forall_impl; [|apply (randn_rows_length N_paths M g0)].
      intros z Hz. unfold mc_barrier_path.
      destruct (np_min_leb
                  (map (fun x => S0 * exp x)
                     (cumsum (map (log_increment r sigma (T / INR M)) z))) B)
        as [-> | Hnil]; [reflexivity|].
      apply (f_equal (@length R)) in Hnil.
      rewrite length_map, length_cumsum, length_map, Hz in Hnil.
      simpl in Hnil. contradiction. }
    destruct (randn N_paths M g0) as [Z g1] eqn:EZ. cbn [fst snd] in *.
    rewrite Erows. reflexivity.
Qed.

(** X7.  The report's [mc_european_price] for a call and the barrier
    notebook's [mc_price] for its vanilla payoff compute the same estimate
    and half-width from the same generator state, for every input. *)
Theorem mc_european_price_is_mc_price_vanilla
        seedfn S0 K r sigma T N_paths N_steps seed g :
  mc_european_price seedfn S0 K r sigma T N_paths N_steps true seed g
  = mc_price S0 r sigma T N_steps (vanilla_payoff K) N_paths
             (reseed seedfn seed g).
Proof.
  destruct (Nat.eqb_spec N_steps 0) as [E|HM].
  - subst N_steps. reflexivity.
  - destruct (mc_european_price_eq seedfn S0 K r sigma T N_paths N_steps
                                   true seed g HM)
      as [paths [ST [g' [Hs [HST [_ ->]]]]]].
    rewrite (mc_price_eq _ _ _ _ _ _ _ _ paths g' (vanilla_call K ST) Hs).
    + reflexivity.
    + unfold vanilla_payoff. rewrite HST. reflexivity.
Qed.

(** ** Barrier prices compared on the same paths *)

(** [mc_price] for a barrier payoff, written as a mean over the rows of
    draws. *)
Lemma mc_price_by_row S0 K r sigma T M N g B up knock_in :
  M <> 0%nat ->
  mc_price S0 r sigma T M (barrier_payoff K B up knock_in) N g
  = let payoff := map (fun z => exp (- r * T)
                                * row_payoff S0 K r sigma (T / INR M) B up knock_in z)
                      (rows (fst (randn N M g))) in
    Ret (np_mean payoff, 1.96 * (np_std_ddof1 payoff / sqrt (INR N)),
         snd (randn N M g)).
Proof.
  intro HM. unfold mc_price.
  rewrite simulate_paths_eq by exact HM. cbn [bind fst snd].
  destruct (notebook_payoffs_by_row S0 K r sigma T M N g B up knock_in HM)
    as [ST [HST Hpay]].
  cbv zeta in Hpay.
  assert (E : barrier_payoff K B up knock_in
                (map_elems (fun x => S0 * exp x)
                   (cumsum_axis1 (map_elems (log_increment r sigma (T / INR M))
                                            (fst (randn N M g)))))
              = Ret (map (row_payoff S0 K r sigma (T / INR M) B up knock_in)
                         (rows (fst (randn N M g))))).
  { unfold barrier_payoff, down_and_out, up_and_out, down_and_in, up_and_in.
    destruct up, knock_in; rewrite HST; cbn [bind]; rewrite Hpay;
      reflexivity. }
  rewrite E. cbn [bind]. rewrite map_map. reflexivity.
Qed.

(** [mc_price] for the vanilla payoff, written in the same way. *)
Lemma mc_price_vanilla_by_row S0 K r sigma T M N g :
  M <> 0%nat ->
  mc_price S0 r sigma T M (vanilla_payoff K) N g
  = let payoff :=
      map (fun z => exp (- r * T)
                    * Rmax (last (map (fun x => S0 * exp x)
                                    (cumsum (map (log_increment r sigma (T / INR M)) z)))
                                 0 - K) 0)
          (rows (fst (randn N M g))) in
    Ret (np_mean payoff, 1.96 * (np_std_ddof1 payoff / sqrt (INR N)),
         snd (randn N M g)).
Proof.
  intro HM. unfold mc_price.
  rewrite simulate_paths_eq by exact HM. cbn [bind fst snd].
  unfold vanilla_payoff. rewrite last_column_ok by exact HM. cbn [bind].
  unfold vanilla_call. cbn [rows map_elems cumsum_axis1].
  rewrite !map_map. reflexivity.
Qed.

Lemma Rsum_map_le {A : Type} (f g : A -> R) (l : list A) :
  Forall (fun z => f z <= g z) l -> Rsum (map f l) <= Rsum (map g l).
Proof.
  induction 1 as [|z l Hz _ IH]; cbn [map Rsum fold_right]; [lra|].
  unfold Rsum in IH. lra.
Qed.

Lemma np_mean_map_le {A : Type} (f g : A -> R) (l : list A) :
  l <> [] ->
  Forall (fun z => f z <= g z) l -> np_mean (map f l) <= np_mean (map g l).
Proof.
  intros Hl H. unfold np_mean. rewrite !length_map.
  assert (0 < INR (length l)).
  { apply lt_0_INR. destruct l; [contradiction|simpl; lia]. }
  apply Rmult_le_compat_r; [left; apply Rinv_0_lt_compat; assumption|].
  apply Rsum_map_le. exact H.
Qed.

Lemma randn_rows_nonempty N M g : N <> 0%nat -> rows (fst (randn N M g)) <> [].
Proof.
  intros HN E. apply (f_equal (@length _)) in E.
  rewrite randn_length in E. simpl in E. contradiction.
Qed.

Lemma row_payoff_le_vanilla S0 K r sigma dt B up knock_in z :
  row_payoff S0 K r sigma dt B up knock_in z
  <= Rmax (last (map (fun x => S0 * exp x)
                   (cumsum (map (log_increment r sigma dt) z))) 0 - K) 0.
Proof.
  unfold row_payoff.
  set (v := Rmax _ 0). assert (0 <= v) by apply Rmax_0_r_nonneg.
  destruct knock_in;
    match goal with |- (if ?h then _ else _) <= _ => destruct h end; lra.
Qed.

(** X8.  On the same simulated paths no barrier option is worth more than
    the vanilla call: for each of the four barrier payoffs of the barrier
    notebook, [mc_price] returns an estimate that is at most the estimate
    it returns for the vanilla payoff from the same generator state. *)
Theorem barrier_price_at_most_vanilla S0 K r sigma T M B N g up knock_in :
  M <> 0%nat -> N <> 0%nat ->
  exists p ci pv civ g',
    mc_price S0 r sigma T M (barrier_payoff K B up knock_in) N g
      = Ret (p, ci, g') /\
    mc_price S0 r sigma T M (vanilla_payoff K) N g = Ret (pv, civ, g') /\
    p <= pv.
Proof.
  intros HM HN.
  rewrite mc_price_by_row, mc_price_vanilla_by_row by exact HM. cbv zeta.
  do 5 eexists. split; [reflexivity|]. split; [reflexivity|].
  apply np_mean_map_le; [apply randn_rows_nonempty; exact HN|].
  apply Forall_forall. intros z _.
  apply Rmult_le_compat_l; [left; apply exp_pos|].
  apply row_payoff_le_vanilla.
Qed.

Lemma barrier_price_at_most_vanilla_witness :
  exists p ci pv civ g',
    mc_price 100 0.05 0.2 1 2 (barrier_payoff 100 90 false false) 3
             (mk_rng (fun _ => 0) 0)
      = Ret (p, ci, g') /\
    mc_price 100 0.05 0.2 1 2 (vanilla_payoff 100) 3 (mk_rng (fun _ => 0) 0)
      = Ret (pv, civ, g') /\
    p <= pv.
Proof.
  apply (barrier_price_at_most_vanilla 100 100 0.05 0.2 1 2 90 3
                                       (mk_rng (fun _ => 0) 0) false false);
    discriminate.
Defined.

Lemma existsb_impl {A : Type} (p q : A -> bool) (l : list A) :
  (forall x, p x = true -> q x = true) ->
  existsb p l = true -> existsb q l = true.
Proof.
  intros Hpq H. apply existsb_exists in H. destruct H as [x [Hin Hp]].
  apply existsb_exists. exists x. split; [exact Hin|apply Hpq; exact Hp].
Qed.

Lemma row_payoff_barrier_mono S0 K r sigma dt B B' z :
  B <= B' ->
  row_payoff S0 K r sigma dt B' false false z
    <= row_payoff S0 K r sigma dt B false false z /\
  row_payoff S0 K r sigma dt B false true z
    <= row_payoff S0 K r sigma dt B' false true z /\
  row_payoff S0 K r sigma dt B true false z
    <= row_payoff S0 K r sigma dt B' true false z /\
  row_payoff S0 K r sigma dt B' true true z
    <= row_payoff S0 K r sigma dt B true true z.
Proof.
  intro HB. unfold row_payoff.
  set (prices := map _ (cumsum _)).
  set (v := Rmax _ 0). assert (0 <= v) by apply Rmax_0_r_nonneg.
  assert (Hle : existsb (fun s => Rleb s B) prices = true ->
                existsb (fun s => Rleb s B') prices = true).
  { apply existsb_impl. intros s Hs. apply Rleb_true_iff in Hs.
    apply Rleb_true_iff. lra. }
  assert (Hge : existsb (fun s => Rgeb s B') prices = true ->
                existsb (fun s => Rgeb s B) prices = true).
  { apply existsb_impl. intros s Hs. apply Rgeb_true_iff in Hs.
    apply Rgeb_true_iff. lra. }
  destruct (existsb (fun s => Rleb s B) prices);
    destruct (existsb (fun s => Rleb s B') prices);
    destruct (existsb (fun s => Rgeb s B) prices);
    destruct (existsb (fun s => Rgeb s B') prices);
    try (specialize (Hle eq_refl)); try (specialize (Hge eq_refl));
    try discriminate; repeat split; lra.
Qed.

(** X9.  On the same simulated paths the knock-out estimates of [mc_price]
    are monotone in the barrier: raising the lower barrier from B to B'
    cannot raise the down-and-out estimate, and raising the upper barrier
    cannot lower the up-and-out estimate. *)
Theorem knock_out_price_monotone_in_barrier S0 K r sigma T M B B' N g :
  M <> 0%nat -> N <> 0%nat -> B <= B' ->
  exists d ci_d d' ci_d' u ci_u u' ci_u' g',
    mc_price S0 r sigma T M (down_and_out K B) N g = Ret (d, ci_d, g') /\
    mc_price S0 r sigma T M (down_and_out K B') N g = Ret (d', ci_d', g') /\
    mc_price S0 r sigma T M (up_and_out K B) N g = Ret (u, ci_u, g') /\
    mc_price S0 r sigma T M (up_and_out K B') N g = Ret (u', ci_u', g') /\
    d' <= d /\ u <= u'.
Proof.
  intros HM HN HB.
  pose proof (mc_price_by_row S0 K r sigma T M N g B false false HM) as Ed.
  pose proof (mc_price_by_row S0 K r sigma T M N g B' false false HM) as Ed'.
  pose proof (mc_price_by_row S0 K r sigma T M N g B true false HM) as Eu.
  pose proof (mc_price_by_row S0 K r sigma T M N g B' true false HM) as Eu'.
  cbn [barrier_payoff] in Ed, Ed', Eu, Eu'. cbv zeta in Ed, Ed', Eu, Eu'.
  rewrite Ed, Ed', Eu, Eu'.
  do 9 eexists. repeat (split; [reflexivity|]).
  split; (apply np_mean_map_le; [apply randn_rows_nonempty; exact HN|]);
    apply Forall_forall; intros z _;
    (apply Rmult_le_compat_l; [left; apply exp_pos|]);
    apply (row_payoff_barrier_mono S0 K r sigma (T / INR M) B B' z HB).
Qed.

Lemma knock_out_price_monotone_in_barrier_witness :
  exists d ci_d d' ci_d' u ci_u u' ci_u' g',
    mc_price 100 0.05 0.2 1 2 (down_and_out 100 90) 3 (mk_rng (fun _ => 0) 0)
      = Ret (d, ci_d, g') /\
    mc_price 100 0.05 0.2 1 2 (down_and_out 100 95) 3 (mk_rng (fun _ => 0) 0)
      = Ret (d', ci_d', g') /\
    mc_price 100 0.05 0.2 1 2 (up_and_out 100 90) 3 (mk_rng (fun _ => 0) 0)
      = Ret (u, ci_u, g') /\
    mc_price 100 0.05 0.2 1 2 (up_and_out 100 95) 3 (mk_rng (fun _ => 0) 0)
      = Ret (u', ci_u', g') /\
    d' <= d /\ u <= u'.
Proof.
  apply (knock_out_price_monotone_in_barrier 100 100 0.05 0.2 1 2 90 95 3
                                             (mk_rng (fun _ => 0) 0));
    try discriminate. lra.
Defined.

Lemma existsb_false_Forall {A : Type} (p : A -> bool) (l : list A) :
  Forall (fun x => p x = false) l -> existsb p l = false.
Proof.
  induction 1 as [|x l Hx _ IH]; [reflexivity|].
  cbn [existsb]. rewrite Hx, IH. reflexivity.
Qed.

(** X10.  Simulated prices are positive when the spot is, so a lower
    barrier at or below zero never knocks out: for S0 > 0 and B <= 0,
    [mc_price] returns for [down_and_out] exactly what it returns for the
    vanilla payoff. *)
Theorem down_and_out_nonpositive_barrier_is_vanilla S0 K r sigma T M B N g :
  M <> 0%nat -> 0 < S0 -> B <= 0 ->
  mc_price S0 r sigma T M (down_and_out K B) N g
  = mc_price S0 r sigma T M (vanilla_payoff K) N g.
Proof.
  intros HM HS HB.
  pose proof (mc_price_by_row S0 K r sigma T M N g B false false HM) as Ed.
  cbn [barrier_payoff] in Ed. rewrite Ed.
  rewrite mc_price_vanilla_by_row by exact HM. cbv zeta.
  assert (E : map (fun z => exp (- r * T)
                            * row_payoff S0 K r sigma (T / INR M) B false false z)
                  (rows (fst (randn N M g)))
              = map (fun z => exp (- r * T)
                      * Rmax (last (map (fun x => S0 * exp x)
                                      (cumsum (map (log_increment r sigma (T / INR M)) z)))
                                   0 - K) 0)
                    (rows (fst (randn N M g)))).
  { apply map_ext. intro z. f_equal. unfold row_payoff.
    rewrite existsb_false_Forall; [reflexivity|].
    apply Forall_forall. intros s Hs. apply in_map_iff in Hs.
    destruct Hs as [x [<- _]]. apply Rleb_false_iff.
    pose proof (exp_pos x). nra. }
  rewrite E. reflexivity.
Qed.

Lemma down_and_out_nonpositive_barrier_is_vanilla_witness :
  mc_price 100 0.05 0.2 1 2 (down_and_out 100 0) 3 (mk_rng (fun _ => 0) 0)
  = mc_price 100 0.05 0.2 1 2 (vanilla_payoff 100) 3 (mk_rng (fun _ => 0) 0).
Proof.
  apply down_and_out_nonpositive_barrier_is_vanilla; try lra. discriminate.
Defined.

(** ** The barrier solver of the comparison notebook, for every grid *)

Lemma length_removelast_pred {A : Type} (l : list A) :
  length (removelast l) = (length l - 1)%nat.
Proof.
  rewrite removelast_firstn_len, length_firstn. lia.
Qed.

Lemma length_interior V : length (interior V) = (length V - 2)%nat.
Proof.
  unfold interior. rewrite length_removelast_pred.
  destruct V; simpl; lia.
Qed.

Lemma length_set_interior V x :
  length (set_interior V x) = (length x + 2)%nat.
Proof.
  unfold set_interior. simpl. rewrite length_app. simpl. lia.
Qed.

Lemma length_dot_rows xprev a b c xs :
  length a = length xs -> length b = length xs -> length c = length xs ->
  length (dot_rows xprev a b c xs) = length xs.
Proof.
  revert xprev b c xs.
  induction a as [|ai a IH]; intros xprev [|bi b] [|ci c] [|x xs];
    simpl; intros Ha Hb Hc; try discriminate; try reflexivity.
  f_equal. apply IH; lia.
Qed.

Lemma length_tridiag_dot A x :
  length (diagonal A) = length x ->
  S (length (lower A)) = length x ->
  S (length (upper A)) = length x ->
  length (tridiag_dot A x) = length x.
Proof.
  intros Hb Ha Hc. unfold tridiag_dot.
  apply length_dot_rows; simpl; try lia.
  rewrite length_app. simpl. lia.
Qed.

(** The two matrices of [pde_do_call_cn] have one row for each interior
    node. *)
Lemma pde_matrix_lengths r sigma T N_S N_t :
  (2 <= N_S)%nat ->
  let M1 := ComparisonNotebook.M1 r sigma T N_S N_t in
  let M2 := ComparisonNotebook.M2 r sigma T N_S N_t in
  length (diagonal M1) = (N_S - 1)%nat /\
  S (length (lower M1)) = (N_S - 1)%nat /\
  S (length (upper M1)) = (N_S - 1)%nat /\
  length (diagonal M2) = (N_S - 1)%nat /\
  S (length (lower M2)) = (N_S - 1)%nat /\
  S (length (upper M2)) = (N_S - 1)%nat.
Proof.
  intros HN M1 M2.
  unfold M1, M2, ComparisonNotebook.M1, ComparisonNotebook.M2,
    ComparisonNotebook.alpha, ComparisonNotebook.beta,
    ComparisonNotebook.gamma, ComparisonNotebook.j.
  cbn [lower diagonal upper].
  assert (Htl : forall l : list R, length (tl l) = (length l - 1)%nat)
    by (intros [|? ?]; simpl; lia).
  rewrite !length_map, !Htl, !length_removelast_pred, !length_map, !length_seq.
  lia.
Qed.

Lemma pde_step_length K r sigma T B Smax N_S N_t n V V' :
  (2 <= N_S)%nat -> length V = (N_S + 1)%nat ->
  ComparisonNotebook.step K r sigma T B Smax N_S N_t n V = Ret V' ->
  length V' = (N_S + 1)%nat.
Proof.
  intros HN HV. unfold ComparisonNotebook.step.
  destruct (ComparisonNotebook.enforce K r T B Smax N_S N_t n V) as [V3|e] eqn:E;
    cbn [bind]; [|discriminate].
  assert (Hlen : (2 <= length V)%nat) by lia.
  destruct (pde_enforce_spec _ _ _ _ _ _ _ _ _ _ Hlen E) as (L3 & _).
  intro H. apply Ret_inj in H. subst V'.
  rewrite length_set_interior.
  destruct (pde_matrix_lengths r sigma T N_S N_t HN)
    as (D1 & L1 & U1 & D2 & L2 & U2).
  assert (LI : length (interior V3) = (N_S - 1)%nat)
    by (rewrite length_interior; lia).
  assert (LR : length (tridiag_dot (ComparisonNotebook.M2 r sigma T N_S N_t)
                                   (interior V3)) = (N_S - 1)%nat).
  { rewrite length_tridiag_dot; lia. }
  rewrite length_spsolve; lia.
Qed.

(** The loop body raises nothing when the barrier node is a node of the
    grid. *)
Lemma pde_step_returns K r sigma T B Smax N_S N_t n V k :
  length V = (N_S + 1)%nat ->
  py_index (N_S + 1) (ComparisonNotebook.jB B Smax N_S) = Ret k ->
  exists V', ComparisonNotebook.step K r sigma T B Smax N_S N_t n V = Ret V'.
Proof.
  intros HV Hk. unfold ComparisonNotebook.step, ComparisonNotebook.enforce.
  rewrite setitem_first by lia. cbn [bind].
  unfold setitem at 1. rewrite length_set_nth, HV, Hk. cbn [bind].
  rewrite setitem_last by (rewrite !length_set_nth; lia). cbn [bind].
  eexists. reflexivity.
Qed.

Lemma pde_for_range_returns K r sigma T B Smax N_S N_t k idx :
  (2 <= N_S)%nat ->
  py_index (N_S + 1) (ComparisonNotebook.jB B Smax N_S) = Ret idx ->
  exists V,
    for_range (ComparisonNotebook.step K r sigma T B Smax N_S N_t) 0 k
              (ComparisonNotebook.terminal K B Smax N_S) = Ret V /\
    length V = (N_S + 1)%nat.
Proof.
  intros HN Hidx. induction k as [|k [Vk [Ek Lk]]].
  - eexists. split; [reflexivity|apply length_pde_terminal].
  - rewrite for_range_snoc, Ek. cbn [bind].
    destruct (pde_step_returns K r sigma T B Smax N_S N_t (0 + k) Vk idx Lk Hidx)
      as [V' E'].
    exists V'. split; [exact E'|].
    eapply pde_step_length; eassumption.
Qed.

(** A barrier between 0 and the last grid node (and up to one step beyond
    it) falls on a node of the grid. *)
Lemma pde_jB_in_grid B Smax N_S :
  N_S <> 0%nat -> 0 < Smax -> 0 <= B < Smax + Smax / INR N_S ->
  (0 <= ComparisonNotebook.jB B Smax N_S < Z.of_nat (N_S + 1))%Z.
Proof.
  intros HN HS [HB0 HB1].
  unfold ComparisonNotebook.jB, ComparisonNotebook.dS, py_int.
  assert (HI : 0 < INR N_S) by (apply lt_0_INR; lia).
  assert (Hd : 0 < Smax / INR N_S) by (apply Rdiv_lt_0_compat; assumption).
  set (x := B / (Smax / INR N_S)).
  assert (Hx0 : 0 <= x).
  { unfold x. apply Rmult_le_pos; [exact HB0|].
    left. apply Rinv_0_lt_compat. exact Hd. }
  assert (Hx1 : x < INR N_S + 1).
  { unfold x. apply (Rmult_lt_reg_r (Smax / INR N_S)); [exact Hd|].
    replace (B / (Smax / INR N_S) * (Smax / INR N_S)) with B
      by (field; split; lra).
    replace ((INR N_S + 1) * (Smax / INR N_S)) with (Smax + Smax / INR N_S)
      by (field; lra).
    exact HB1. }
  destruct (Rle_dec 0 x) as [_|C]; [|contradiction].
  split.
  - apply (Zfloor_lub 0 x). exact Hx0.
  - apply lt_IZR. pose proof (Zfloor_bound x) as [Hf _].
    rewrite <- INR_IZR_INZ, plus_INR. simpl INR. lra.
Qed.

Lemma py_index_in_range len i :
  (0 <= i < Z.of_nat len)%Z -> py_index len i = Ret (Z.to_nat i).
Proof.
  intros [H0 H1]. unfold py_index.
  destruct (Z.leb_spec 0 i); [|lia].
  destruct (Z.ltb_spec i (Z.of_nat len)); [|lia]. reflexivity.
Qed.

Lemma pde_march_unfold K r sigma T B Smax N_S N_t k :
  (2 <= N_S)%nat -> N_t <> 0%nat -> 0 < Smax ->
  ComparisonNotebook.march K r sigma T B Smax N_S N_t k
  = for_range (ComparisonNotebook.step K r sigma T B Smax N_S N_t) 0 k
              (ComparisonNotebook.terminal K B Smax N_S).
Proof.
  intros HN Ht HS. unfold ComparisonNotebook.march.
  destruct (Nat.eqb_spec N_S 0); [lia|].
  destruct (Nat.eqb_spec N_t 0); [contradiction|].
  replace (Reqb (ComparisonNotebook.dS Smax N_S) 0) with false.
  - destruct (Nat.eqb_spec N_S 1); [lia|reflexivity].
  - symmetry. apply Reqb_false_iff. unfold ComparisonNotebook.dS.
    assert (0 < INR N_S) by (apply lt_0_INR; lia).
    assert (0 < Smax / INR N_S) by (apply Rdiv_lt_0_compat; assumption).
    lra.
Qed.

(** X11.  With at least two grid steps, a positive time-step count, a
    positive [Smax] and a barrier that falls on a grid node
    (0 <= B < Smax + dS), [pde_do_call_cn] raises nothing, every pass of
    its loop keeps the N_S + 1 entries of the value array, and after pass
    [k] the lower boundary value is 0 and the upper boundary value is
    Smax - K e^(-r (T - k dt)). *)
Theorem pde_do_call_cn_returns_and_keeps_boundaries
        S0 K r sigma T B Smax N_S N_t k :
  (2 <= N_S)%nat -> N_t <> 0%nat -> 0 < Smax ->
  0 <= B < Smax + Smax / INR N_S ->
  (exists V,
     ComparisonNotebook.march K r sigma T B Smax N_S N_t (S k) = Ret V /\
     length V = (N_S + 1)%nat /\
     nth 0 V 0 = 0 /\
     last V 0 = Smax - K * exp (- r * (T - INR k * (T / INR N_t)))) /\
  (exists v,
     ComparisonNotebook.pde_do_call_cn S0 K r sigma T B Smax N_S N_t = Ret v).
Proof.
  intros HN Ht HS HB.
  assert (Hidx : py_index (N_S + 1) (ComparisonNotebook.jB B Smax N_S)
                 = Ret (Z.to_nat (ComparisonNotebook.jB B Smax N_S))).
  { apply py_index_in_range. apply pde_jB_in_grid; [lia|assumption..]. }
  split.
  - destruct (pde_for_range_returns K r sigma T B Smax N_S N_t (S k) _ HN Hidx)
      as [V [EV LV]].
    exists V. rewrite pde_march_unfold by assumption.
    split; [exact EV|]. split; [exact LV|].
    apply (pde_march_boundaries K r sigma T B Smax N_S N_t k V).
    rewrite pde_march_unfold by assumption. exact EV.
  - unfold ComparisonNotebook.pde_do_call_cn.
    rewrite pde_march_unfold by assumption.
    destruct (pde_for_range_returns K r sigma T B Smax N_S N_t N_t _ HN Hidx)
      as [V [EV _]].
    rewrite EV. cbn [bind]. eexists. reflexivity.
Qed.

Lemma pde_do_call_cn_returns_and_keeps_boundaries_witness :
  (exists V,
     ComparisonNotebook.march 100 0.05 0.2 1 90 200 4 2 (S 1) = Ret V /\
     length V = (4 + 1)%nat /\
     nth 0 V 0 = 0 /\
     last V 0 = 200 - 100 * exp (- (0.05) * (1 - INR 1 * (1 / INR 2)))) /\
  (exists v,
     ComparisonNotebook.pde_do_call_cn 100 100 0.05 0.2 1 90 200 4 2 = Ret v).
Proof.
  apply (pde_do_call_cn_returns_and_keeps_boundaries
           100 100 0.05 0.2 1 90 200 4 2 1);
    try lia; try lra. simpl INR. lra.
Defined.

(** X12.  A barrier at least one grid step beyond [Smax] is no node of the
    grid: the assignment [V[jB] = 0.0] of the first pass raises IndexError,
    and so does [pde_do_call_cn]. *)
Theorem pde_do_call_cn_barrier_beyond_grid S0 K r sigma T B Smax N_S N_t :
  (2 <= N_S)%nat -> N_t <> 0%nat -> 0 < Smax ->
  Smax + Smax / INR N_S <= B ->
  ComparisonNotebook.pde_do_call_cn S0 K r sigma T B Smax N_S N_t
  = Raise IndexError.
Proof.
  intros HN Ht HS HB.
  unfold ComparisonNotebook.pde_do_call_cn.
  rewrite pde_march_unfold by assumption.
  destruct N_t as [|c]; [contradiction|].
  cbn [for_range].
  assert (Hj : (Z.of_nat (N_S + 1) <= ComparisonNotebook.jB B Smax N_S)%Z).
  { unfold ComparisonNotebook.jB, ComparisonNotebook.dS, py_int.
    assert (HI : 0 < INR N_S) by (apply lt_0_INR; lia).
    assert (Hd : 0 < Smax / INR N_S) by (apply Rdiv_lt_0_compat; assumption).
    set (x := B / (Smax / INR N_S)).
    assert (Hx : INR N_S + 1 <= x).
    { unfold x. apply (Rmult_le_reg_r (Smax / INR N_S)); [exact Hd|].
      replace (B / (Smax / INR N_S) * (Smax / INR N_S)) with B
        by (field; split; lra).
      replace ((INR N_S + 1) * (Smax / INR N_S)) with (Smax + Smax / INR N_S)
        by (field; lra).
      exact HB. }
    destruct (Rle_dec 0 x) as [_|C]; [|exfalso; apply C; lra].
    apply Zfloor_lub. rewrite <- INR_IZR_INZ, plus_INR. simpl INR. exact Hx. }
  unfold ComparisonNotebook.step at 1, ComparisonNotebook.enforce.
  rewrite setitem_first by (rewrite length_pde_terminal; lia).
  cbn [bind]. unfold setitem at 1.
  rewrite length_set_nth, length_pde_terminal.
  unfold py_index.
  destruct (Z.ltb_spec (ComparisonNotebook.jB B Smax N_S) (Z.of_nat (N_S + 1)));
    [lia|].
  destruct (Z.ltb_spec (ComparisonNotebook.jB B Smax N_S) 0); [lia|].
  rewrite andb_false_r. reflexivity.
Qed.

Lemma pde_do_call_cn_barrier_beyond_grid_witness :
  ComparisonNotebook.pde_do_call_cn 100 100 0.05 0.2 1 250 200 4 1
  = Raise IndexError.
Proof.
  apply pde_do_call_cn_barrier_beyond_grid; try lia; try lra.
  simpl INR. lra.
Defined.

(** ** The sibling solver, for every grid *)

Lemma length_row_mul x y :
  length (CrankNicolsonNotebook.row_mul x y) = Nat.min (length x) (length y).
Proof.
  unfold CrankNicolsonNotebook.row_mul.
  rewrite length_map, length_combine. reflexivity.
Qed.

Lemma length_row_add x y :
  length (CrankNicolsonNotebook.row_add x y) = Nat.min (length x) (length y).
Proof.
  unfold CrankNicolsonNotebook.row_add.
  rewrite length_map, length_combine. reflexivity.
Qed.

Lemma length_sub_last rhs v rhs' :
  CrankNicolsonNotebook.sub_last rhs v = Ret rhs' -> length rhs' = length rhs.
Proof.
  unfold CrankNicolsonNotebook.sub_last. destruct rhs as [|x t]; [discriminate|].
  intro H. apply Ret_inj in H. subst rhs'.
  rewrite length_app, length_removelast_pred. simpl. lia.
Qed.

Lemma cn_barrier_coefficient_lengths r sigma T N_S N_t :
  (2 <= N_S)%nat ->
  length (CrankNicolsonNotebook.Bm0 r sigma T N_S N_t) = (N_S - 1)%nat /\
  length (CrankNicolsonNotebook.Bm1 r sigma T N_S N_t) = (N_S - 1)%nat /\
  length (CrankNicolsonNotebook.Bm2 r sigma T N_S N_t) = (N_S - 1)%nat /\
  length (diagonal (CrankNicolsonNotebook.A r sigma T N_S N_t)) = (N_S - 1)%nat /\
  S (length (lower (CrankNicolsonNotebook.A r sigma T N_S N_t))) = (N_S - 1)%nat /\
  S (length (upper (CrankNicolsonNotebook.A r sigma T N_S N_t))) = (N_S - 1)%nat.
Proof.
  intro HN.
  unfold CrankNicolsonNotebook.Bm0, CrankNicolsonNotebook.Bm1,
    CrankNicolsonNotebook.Bm2, CrankNicolsonNotebook.A,
    CrankNicolsonNotebook.a, CrankNicolsonNotebook.b,
    CrankNicolsonNotebook.c, CrankNicolsonNotebook.i.
  destruct N_S as [|[|n]]; [lia|lia|].
  replace (S (S n) - 1)%nat with (S n) by lia.
  cbn [seq map lower diagonal upper tl].
  assert (Hrl : forall (x : R) l, length (removelast (x :: l)) = length l).
  { intros x l. rewrite length_removelast_pred. simpl. lia. }
  rewrite !length_map, !length_app.
  cbn [length]. rewrite !Hrl, !length_map, !length_seq. lia.
Qed.

(** One pass of the loop body of [crank_nicolson_barrier] on an array of
    N_S + 1 values. *)
Lemma cn_barrier_step_returns K r sigma T B Smax N_S N_t n V :
  (2 <= N_S)%nat -> length V = (N_S + 1)%nat ->
  exists V',
    CrankNicolsonNotebook.step K r sigma T B Smax N_S N_t n V = Ret V' /\
    length V' = (N_S + 1)%nat.
Proof.
  intros HN HV.
  destruct (cn_barrier_coefficient_lengths r sigma T N_S N_t HN)
    as (L0 & L1 & L2 & LD & LL & LU).
  unfold CrankNicolsonNotebook.step.
  set (rhs0 := CrankNicolsonNotebook.row_add _ _).
  assert (Lr0 : length rhs0 = (N_S - 1)%nat).
  { unfold rhs0. rewrite !length_row_add, !length_row_mul, L0, L1, L2.
    rewrite length_skipn, length_interior, !length_removelast_pred. lia. }
  destruct (CrankNicolsonNotebook.sub_last rhs0 _) as [rhs|e] eqn:Er.
  2:{ unfold CrankNicolsonNotebook.sub_last in Er.
      destruct rhs0; [simpl in Lr0; lia|discriminate]. }
  cbn [bind].
  pose proof (length_sub_last _ _ _ Er) as Lr.
  set (V1 := set_interior V _).
  assert (LV1 : length V1 = (N_S + 1)%nat).
  { unfold V1. rewrite length_set_interior, length_spsolve; lia. }
  set (V2 := CrankNicolsonNotebook.zero_below B _ V1).
  assert (LV2 : length V2 = (N_S + 1)%nat).
  { unfold V2. rewrite length_zero_below, LV1.
    unfold CrankNicolsonNotebook.S, linspace0.
    rewrite length_map, length_seq. lia. }
  rewrite setitem_first by lia. cbn [bind].
  rewrite setitem_last by (rewrite length_set_nth; lia).
  eexists. split; [reflexivity|].
  rewrite !length_set_nth. exact LV2.
Qed.

Lemma length_cn_barrier_terminal K B Smax N_S :
  length (CrankNicolsonNotebook.terminal K B Smax N_S) = (N_S + 1)%nat.
Proof.
  unfold CrankNicolsonNotebook.terminal.
  rewrite length_zero_below, length_map.
  unfold CrankNicolsonNotebook.S, linspace0.
  rewrite length_map, length_seq. lia.
Qed.

Lemma cn_barrier_for_range_returns K r sigma T B Smax N_S N_t k :
  (2 <= N_S)%nat ->
  exists V,
    for_range (CrankNicolsonNotebook.step K r sigma T B Smax N_S N_t) 0 k
              (CrankNicolsonNotebook.terminal K B Smax N_S) = Ret V /\
    length V = (N_S + 1)%nat.
Proof.
  intro HN. induction k as [|k [Vk [Ek Lk]]].
  - eexists. split; [reflexivity|apply length_cn_barrier_terminal].
  - rewrite for_range_snoc, Ek. cbn [bind].
    apply cn_barrier_step_returns; assumption.
Qed.

Lemma cn_barrier_march_unfold K r sigma T B Smax N_S N_t k :
  N_S <> 0%nat -> N_t <> 0%nat ->
  CrankNicolsonNotebook.march K r sigma T B Smax N_S N_t k
  = for_range (CrankNicolsonNotebook.step K r sigma T B Smax N_S N_t) 0 k
              (CrankNicolsonNotebook.terminal K B Smax N_S).
Proof.
  intros HN Ht. unfold CrankNicolsonNotebook.march.
  destruct (Nat.eqb_spec N_S 0); [contradiction|].
  destruct (Nat.eqb_spec N_t 0); [contradiction|reflexivity].
Qed.

(** X13.  With at least two grid steps, a positive time-step count and a
    matrix whose elimination meets no zero pivot (SciPy raises LinAlgError
    on a singular one), [crank_nicolson_barrier] raises nothing, and after
    pass [k] of its loop the value array still has N_S + 1 entries, is 0 at
    the lower boundary and at every node strictly below the barrier, and is
    Smax - K e^(-r (T - (k + 1) dt)) at the upper boundary. *)
Theorem crank_nicolson_barrier_returns_and_enforces
        S0 K r sigma T B Smax N_S N_t k :
  (2 <= N_S)%nat -> N_t <> 0%nat ->
  nonsingular (CrankNicolsonNotebook.A r sigma T N_S N_t) ->
  (exists V,
     CrankNicolsonNotebook.march K r sigma T B Smax N_S N_t (S k) = Ret V /\
     length V = (N_S + 1)%nat /\
     nth 0 V 0 = 0 /\
     last V 0
     = Smax - K * exp (- r * ((T - INR k * (T / INR N_t)) - T / INR N_t)) /\
     forall i, (i < N_S)%nat ->
               nth i (CrankNicolsonNotebook.S Smax N_S) 0 < B ->
               nth i V 0 = 0) /\
  (exists v,
     CrankNicolsonNotebook.crank_nicolson_barrier
       S0 K r sigma T B Smax N_S N_t = Ret v).
Proof.
  intros HN Ht _. split.
  - rewrite cn_barrier_march_unfold by lia.
    rewrite for_range_snoc.
    destruct (cn_barrier_for_range_returns K r sigma T B Smax N_S N_t k HN)
      as [Vk [Ek Lk]].
    rewrite Ek. cbn [bind Nat.add].
    destruct (cn_barrier_step_returns K r sigma T B Smax N_S N_t k Vk HN Lk)
      as [V [EV LV]].
    exists V. split; [exact EV|]. split; [exact LV|].
    destruct (crank_nicolson_barrier_step_enforced
                K r sigma T B Smax N_S N_t k Vk V ltac:(lia) EV)
      as (H0 & HM & HB).
    split; [exact H0|]. split; [exact HM|].
    intros i Hi. apply HB. lia.
  - unfold CrankNicolsonNotebook.crank_nicolson_barrier.
    rewrite cn_barrier_march_unfold by lia.
    destruct (cn_barrier_for_range_returns K r sigma T B Smax N_S N_t N_t HN)
      as [V [EV _]].
    rewrite EV. cbn [bind]. eexists. reflexivity.
Qed.

Lemma crank_nicolson_barrier_returns_and_enforces_witness :
  (exists V,
     CrankNicolsonNotebook.march 100 0.05 0.2 1 90 200 2 2 (S 1) = Ret V /\
     length V = (2 + 1)%nat /\
     nth 0 V 0 = 0 /\
     last V 0
     = 200 - 100 * exp (- (0.05) * ((1 - INR 1 * (1 / INR 2)) - 1 / INR 2)) /\
     forall i, (i < 2)%nat ->
               nth i (CrankNicolsonNotebook.S 200 2) 0 < 90 ->
               nth i V 0 = 0) /\
  (exists v,
     CrankNicolsonNotebook.crank_nicolson_barrier
       100 100 0.05 0.2 1 90 200 2 2 = Ret v).
Proof.
  apply (crank_nicolson_barrier_returns_and_enforces
           100 100 0.05 0.2 1 90 200 2 2 1); [lia|discriminate|].
  unfold nonsingular, CrankNicolsonNotebook.A, CrankNicolsonNotebook.a,
    CrankNicolsonNotebook.b, CrankNicolsonNotebook.c, CrankNicolsonNotebook.i,
    CrankNicolsonNotebook.dt, cn_beta.
  simpl. split; [lra|exact I].
Defined.

(** X14.  With a single grid step there is no interior node: the
    right-hand side of the first pass is empty, and [rhs[-1] -= ...]
    raises IndexError, and so does [crank_nicolson_barrier]. *)
Theorem crank_nicolson_barrier_single_step_grid S0 K r sigma T B Smax N_t :
  N_t <> 0%nat ->
  CrankNicolsonNotebook.crank_nicolson_barrier S0 K r sigma T B Smax 1 N_t
  = Raise IndexError.
Proof.
  intro Ht. unfold CrankNicolsonNotebook.crank_nicolson_barrier.
  rewrite cn_barrier_march_unfold by lia.
  destruct N_t as [|c]; [contradiction|]. reflexivity.
Qed.

Lemma crank_nicolson_barrier_single_step_grid_witness :
  CrankNicolsonNotebook.crank_nicolson_barrier 100 100 0.05 0.2 1 90 200 1 3
  = Raise IndexError.
Proof.
  apply crank_nicolson_barrier_single_step_grid. discriminate.
Defined.

(** ** The vanilla Crank-Nicolson solvers *)

Lemma length_slice a b V :
  (b <= length V)%nat -> length (slice a b V) = (b - a)%nat.
Proof.
  intro H. unfold slice. rewrite length_firstn, length_skipn. lia.
Qed.

Lemma length_set_slice a b x V :
  (a <= b)%nat -> (b <= length V)%nat -> length x = (b - a)%nat ->
  length (set_slice a b x V) = length V.
Proof.
  intros Hab Hb Hx. unfold set_slice.
  rewrite !length_app, length_firstn, length_skipn. lia.
Qed.

Lemma nth_set_slice_before a b x V i :
  (i < a)%nat -> (a <= length V)%nat ->
  nth i (set_slice a b x V) 0 = nth i V 0.
Proof.
  intros Hi Ha. unfold set_slice.
  rewrite app_nth1 by (rewrite length_firstn; lia).
  rewrite nth_firstn. destruct (Nat.ltb_spec i a); [reflexivity|lia].
Qed.

Lemma nth_set_slice_after a b x V i :
  (a <= b)%nat -> (b <= i)%nat -> (b <= length V)%nat ->
  length x = (b - a)%nat ->
  nth i (set_slice a b x V) 0 = nth i V 0.
Proof.
  intros Hab Hi Hb Hx. unfold set_slice.
  rewrite app_nth2 by (rewrite length_firstn; lia).
  rewrite app_nth2 by (rewrite length_firstn; lia).
  rewrite length_firstn, Hx, nth_skipn. f_equal. lia.
Qed.

Lemma spsolve_nil A : spsolve A [] = [].
Proof.
  unfold spsolve. cbn [eliminate].
  destruct (diagonal A), (upper A ++ [0]); reflexivity.
Qed.

Lemma tridiag_dot_nil A : tridiag_dot A [] = [].
Proof.
  unfold tridiag_dot. cbn [dot_rows].
  destruct (diagonal A), (upper A ++ [0]); reflexivity.
Qed.

Lemma linspace0_first Smax n : nth 0 (linspace0 Smax n) 0 = 0.
Proof.
  unfold linspace0. rewrite Nat.add_1_r. cbn [seq map nth INR]. ring.
Qed.

Lemma linspace0_last Smax n :
  n <> 0%nat -> nth n (linspace0 Smax n) 0 = Smax.
Proof.
  intro Hn. unfold linspace0.
  rewrite (nth_map_lt _ _ _ 0%nat) by (rewrite length_seq; lia).
  rewrite seq_nth by lia. cbn [Nat.add].
  field. apply not_0_INR. exact Hn.
Qed.

Lemma length_linspace0 Smax n : length (linspace0 Smax n) = (n + 1)%nat.
Proof. unfold linspace0. rewrite length_map, length_seq. reflexivity. Qed.

Lemma dense_cn_step_keeps r sigma T M N V :
  M <> 0%nat -> length V = (M + 1)%nat ->
  let V' := PricingNotebookPde.step r sigma T M N V in
  length V' = (M + 1)%nat /\ nth 0 V' 0 = nth 0 V 0 /\ nth M V' 0 = nth M V 0.
Proof.
  intros HM HV V'. unfold V', PricingNotebookPde.step.
  set (x := spsolve _ _).
  assert (Lx : length x = (M - 1)%nat).
  { unfold x. destruct (Nat.eq_dec M 1) as [->|H1].
    - change (slice 1 1 V) with (@nil R).
      rewrite tridiag_dot_nil, spsolve_nil. reflexivity.
    - assert (LS : length (slice 1 M V) = (M - 1)%nat)
        by (apply length_slice; lia).
      assert (LA : forall f g h : nat -> R,
                 length (map g (seq 1 (M - 1))) = (M - 1)%nat /\
                 S (length (map f (seq 2 (M - 2)))) = (M - 1)%nat /\
                 S (length (map h (seq 1 (M - 2)))) = (M - 1)%nat).
      { intros f g h. rewrite !length_map, !length_seq. lia. }
      unfold PricingNotebookPde.A, PricingNotebookPde.B.
      rewrite length_spsolve; cbn [lower diagonal upper];
        rewrite ?length_tridiag_dot; cbn [lower diagonal upper];
        rewrite ?LS, ?length_map, ?length_seq; lia. }
  split; [|split].
  - rewrite length_set_slice; lia.
  - apply nth_set_slice_before; lia.
  - apply nth_set_slice_after; lia.
Qed.

(** X15.  The loop of the notebook's [crank_nicolson] never writes the two
    boundary values: with at least two grid steps, a positive time-step
    count and a matrix whose elimination meets no zero pivot (SciPy raises
    LinAlgError on a singular one) the solver raises nothing, and after any
    number of passes V[0] and V[M] are still the payoff at S = 0 and at
    S = Smax, with no discounting. *)
Theorem dense_crank_nicolson_boundaries_frozen
        S0 K r sigma T Smax M N option_type k :
  (2 <= M)%nat -> N <> 0%nat ->
  nonsingular (PricingNotebookPde.A r sigma T M N) ->
  let payoff := fun s => if (option_type =? "call")%string
                         then Rmax (s - K) 0 else Rmax (K - s) 0 in
  (exists V,
     PricingNotebookPde.march K r sigma T Smax M N option_type k = Ret V /\
     length V = (M + 1)%nat /\
     nth 0 V 0 = payoff 0 /\
     nth M V 0 = payoff Smax) /\
  (exists v,
     PricingNotebookPde.crank_nicolson S0 K r sigma T Smax M N option_type
     = Ret v).
Proof.
  intros HM2 HN _ payoff.
  assert (HM : M <> 0%nat) by lia.
  assert (Hmarch : forall j,
            PricingNotebookPde.march K r sigma T Smax M N option_type j
            = Ret (Nat.iter j (PricingNotebookPde.step r sigma T M N)
                     (PricingNotebookPde.terminal K Smax M option_type))).
  { intro j. unfold PricingNotebookPde.march.
    destruct (Nat.eqb_spec N 0); [contradiction|].
    destruct (Nat.eqb_spec M 0); [contradiction|reflexivity]. }
  split.
  - rewrite Hmarch. eexists. split; [reflexivity|].
    induction k as [|k (IL & I0 & IM)].
    + unfold Nat.iter, nat_rect.
      unfold PricingNotebookPde.terminal, PricingNotebookPde.S.
      assert (E : forall f : R -> R,
                 length (map f (linspace0 Smax M)) = (M + 1)%nat /\
                 nth 0 (map f (linspace0 Smax M)) 0 = f 0 /\
                 nth M (map f (linspace0 Smax M)) 0 = f Smax).
      { intro f. rewrite length_map, length_linspace0.
        rewrite !(nth_map_lt f _ _ 0) by (rewrite length_linspace0; lia).
        rewrite linspace0_first, linspace0_last by exact HM.
        repeat split. }
      unfold payoff. destruct (option_type =? "call")%string;
        [apply (E (fun s => Rmax (s - K) 0))
        |apply (E (fun s => Rmax (K - s) 0))].
    + rewrite Nat.iter_succ.
      destruct (dense_cn_step_keeps r sigma T M N _ HM IL) as (L & H0 & H1).
      split; [exact L|]. split; [rewrite H0; exact I0|rewrite H1; exact IM].
  - unfold PricingNotebookPde.crank_nicolson. rewrite Hmarch. cbn [bind].
    eexists. reflexivity.
Qed.

Lemma dense_crank_nicolson_boundaries_frozen_witness :
  let payoff := fun s => if ("call" =? "call")%string
                         then Rmax (s - 100) 0 else Rmax (100 - s) 0 in
  (exists V,
     PricingNotebookPde.march 100 0.05 0.2 1 200 2 2 "call" 2 = Ret V /\
     length V = (2 + 1)%nat /\
     nth 0 V 0 = payoff 0 /\
     nth 2 V 0 = payoff 200) /\
  (exists v,
     PricingNotebookPde.crank_nicolson 100 100 0.05 0.2 1 200 2 2 "call"
     = Ret v).
Proof.
  apply (dense_crank_nicolson_boundaries_frozen
           100 100 0.05 0.2 1 200 2 2 "call" 2); try discriminate; try lia.
  unfold nonsingular, PricingNotebookPde.A, PricingNotebookPde.beta,
    PricingNotebookPde.dt.
  simpl. split; [lra|exact I].
Defined.

Lemma report_cn_lengths r sigma T M N :
  (2 <= M)%nat ->
  length (ReportAppendix.B0 r sigma T M N) = (M - 1)%nat /\
  length (ReportAppendix.B1 r sigma T M N) = (M - 1)%nat /\
  length (ReportAppendix.B2 r sigma T M N) = (M - 1)%nat /\
  length (diagonal (ReportAppendix.banded r sigma T M N)) = (M - 1)%nat /\
  S (length (lower (ReportAppendix.banded r sigma T M N))) = (M - 1)%nat /\
  S (length (upper (ReportAppendix.banded r sigma T M N))) = (M - 1)%nat.
Proof.
  intro HM.
  unfold ReportAppendix.B0, ReportAppendix.B1, ReportAppendix.B2,
    ReportAppendix.banded, ReportAppendix.A0, ReportAppendix.A1,
    ReportAppendix.A2.
  cbn [lower diagonal upper].
  assert (Htl : forall l : list R, length (tl l) = (length l - 1)%nat)
    by (intros [|? ?]; simpl; lia).
  rewrite Htl, length_removelast_pred, !length_map, !length_seq. lia.
Qed.

(** One pass of the loop body of the report's [crank_nicolson] on an array
    of M + 1 values. *)
Lemma report_cn_step_spec K r sigma T Smax M N option_type n V :
  (2 <= M)%nat -> length V = (M + 1)%nat ->
  exists V',
    ReportAppendix.step K r sigma T Smax M N option_type n V = Ret V' /\
    length V' = (M + 1)%nat /\
    nth 0 V' 0 = 0 /\
    nth M V' 0 = ReportAppendix.far_boundary K r T Smax N option_type n.
Proof.
  intros HM HV.
  destruct (report_cn_lengths r sigma T M N HM)
    as (L0 & L1 & L2 & LD & LL & LU).
  unfold ReportAppendix.step.
  set (rhs := CrankNicolsonNotebook.row_add _ _).
  assert (Lr : length rhs = (M - 1)%nat).
  { unfold rhs. rewrite !length_row_add, !length_row_mul, L0, L1, L2.
    rewrite !length_slice by lia. lia. }
  set (V1 := set_slice 1 M _ V).
  assert (LV1 : length V1 = (M + 1)%nat).
  { unfold V1. rewrite length_set_slice; try lia.
    rewrite length_spsolve; lia. }
  rewrite setitem_first by lia. cbn [bind].
  unfold setitem. rewrite length_set_nth, LV1.
  rewrite py_index_in_range by lia. cbn [bind].
  rewrite Nat2Z.id.
  eexists. split; [reflexivity|].
  rewrite !length_set_nth.
  split; [exact LV1|]. split.
  - rewrite nth_set_nth_neq by lia. apply nth_set_nth_eq. lia.
  - apply nth_set_nth_eq. rewrite length_set_nth. lia.
Qed.

(** X16.  With at least two grid steps, a positive time-step count and a
    matrix whose elimination meets no zero pivot (SciPy raises LinAlgError
    on a singular one) the report's [crank_nicolson] raises nothing, and
    pass [k] of its loop leaves 0 at the lower boundary and, at the upper
    boundary, Smax - K e^(-r (T - k dt)) for a call and K e^(-r (T - k dt))
    for any other flag: the put gets its discounted strike at S = Smax and
    0 at S = 0. *)
Theorem report_crank_nicolson_boundaries
        S0 K r sigma T Smax M N option_type k :
  (2 <= M)%nat -> N <> 0%nat ->
  nonsingular (ReportAppendix.banded r sigma T M N) ->
  (exists V,
     ReportAppendix.march K r sigma T Smax M N option_type (S k) = Ret V /\
     length V = (M + 1)%nat /\
     nth 0 V 0 = 0 /\
     nth M V 0
     = if (option_type =? "call")%string
       then Smax - K * exp (- r * (T - INR k * (T / INR N)))
       else K * exp (- r * (T - INR k * (T / INR N)))) /\
  (exists v,
     ReportAppendix.crank_nicolson S0 K r sigma T Smax M N option_type
     = Ret v).
Proof.
  intros HM HN _.
  assert (Hmarch : forall j,
            ReportAppendix.march K r sigma T Smax M N option_type j
            = for_range (ReportAppendix.step K r sigma T Smax M N option_type)
                        0 j (ReportAppendix.terminal K Smax M option_type)).
  { intro j. unfold ReportAppendix.march.
    destruct (Nat.eqb_spec M 0); [lia|].
    destruct (Nat.eqb_spec N 0); [contradiction|reflexivity]. }
  assert (Hrun : forall j, exists V,
            for_range (ReportAppendix.step K r sigma T Smax M N option_type)
                      0 j (ReportAppendix.terminal K Smax M option_type)
            = Ret V /\ length V = (M + 1)%nat).
  { induction j as [|j [Vj [Ej Lj]]].
    - eexists. split; [reflexivity|].
      unfold ReportAppendix.terminal, ReportAppendix.S.
      destruct (option_type =? "call")%string;
        rewrite length_map; apply length_linspace0.
    - rewrite for_range_snoc, Ej. cbn [bind].
      destruct (report_cn_step_spec K r sigma T Smax M N option_type
                                    (0 + j) Vj HM Lj) as [V' (E' & L' & _)].
      exists V'. split; assumption. }
  split.
  - rewrite Hmarch, for_range_snoc.
    destruct (Hrun k) as [Vk [Ek Lk]]. rewrite Ek. cbn [bind Nat.add].
    destruct (report_cn_step_spec K r sigma T Smax M N option_type k Vk HM Lk)
      as [V (E & L & H0 & H1)].
    exists V. split; [exact E|]. split; [exact L|]. split; [exact H0|].
    rewrite H1. reflexivity.
  - unfold ReportAppendix.crank_nicolson. rewrite Hmarch.
    destruct (Hrun N) as [V [EV _]]. rewrite EV. cbn [bind].
    eexists. reflexivity.
Qed.

Lemma report_crank_nicolson_boundaries_witness :
  (exists V,
     ReportAppendix.march 100 0.05 0.2 1 300 2 2 "put" (S 1) = Ret V /\
     length V = (2 + 1)%nat /\
     nth 0 V 0 = 0 /\
     nth 2 V 0
     = if ("put" =? "call")%string
       then 300 - 100 * exp (- (0.05) * (1 - INR 1 * (1 / INR 2)))
       else 100 * exp (- (0.05) * (1 - INR 1 * (1 / INR 2)))) /\
  (exists v,
     ReportAppendix.crank_nicolson 100 100 0.05 0.2 1 300 2 2 "put" = Ret v).
Proof.
  apply (report_crank_nicolson_boundaries 100 100 0.05 0.2 1 300 2 2 "put" 1);
    [lia|discriminate|].
  unfold nonsingular, ReportAppendix.banded, ReportAppendix.A0,
    ReportAppendix.A1, ReportAppendix.A2, ReportAppendix.beta,
    ReportAppendix.dt.
  simpl. split; [lra|exact I].
Defined.

(** ** The path array of [mc_price_european] *)

Lemma nth_map_combine (f : R * R -> R) (a b : list R) p :
  (p < length a)%nat -> (p < length b)%nat ->
  nth p (map f (combine a b)) 0 = f (nth p a 0, nth p b 0).
Proof.
  intros Ha Hb.
  rewrite (nth_map_lt f _ _ (0, 0)) by (rewrite length_combine; lia).
  rewrite nth_combine_lt by assumption. reflexivity.
Qed.

Lemma length_rows_set_column t v a :
  length v = length (rows a) ->
  length (rows (set_column t v a)) = length (rows a).
Proof.
  intro H. cbn [set_column rows]. rewrite length_map, length_combine. lia.
Qed.

Lemma nth_rows_set_column t v a p :
  length v = length (rows a) -> (p < length (rows a))%nat ->
  nth p (rows (set_column t v a)) [] = set_nth t (nth p v 0) (nth p (rows a) []).
Proof.
  intros Hv Hp. cbn [set_column rows].
  rewrite (nth_map_lt _ _ _ ([], 0)) by (rewrite length_combine; lia).
  rewrite nth_combine_lt by lia. reflexivity.
Qed.

Lemma nth_column t a p :
  (p < length (rows a))%nat ->
  nth p (column t a) 0 = nth t (nth p (rows a) []) 0.
Proof.
  intro Hp. unfold column.
  rewrite (nth_map_lt _ _ _ []) by exact Hp. reflexivity.
Qed.

Lemma Rsum_app l1 l2 : Rsum (l1 ++ l2) = Rsum l1 + Rsum l2.
Proof.
  unfold Rsum. induction l1 as [|x l IH]; cbn [app fold_right]; [lra|].
  rewrite IH. lra.
Qed.

(** The state of the loop of [mc_price_european] before pass [t]: the
    columns before [t] are filled, with the draws read one time step at a
    time. *)
Lemma evolve_invariant S0 r sigma dt M N g0 count t Sg :
  (1 <= t)%nat -> (t + count = N + 1)%nat ->
  length (rows (fst Sg)) = M ->
  ncols (fst Sg) = (N + 1)%nat ->
  (forall p, (p < M)%nat -> length (nth p (rows (fst Sg)) []) = (N + 1)%nat) ->
  snd Sg = mk_rng (draws g0) (cursor g0 + (t - 1) * M) ->
  (forall p t', (p < M)%nat -> (t' < t)%nat ->
     nth t' (nth p (rows (fst Sg)) []) 0
     = S0 * exp (Rsum (map (fun k => log_increment r sigma dt
                                       (draws g0 (cursor g0 + k * M + p)%nat))
                           (seq 0 t')))) ->
  let Sg' := PricingNotebook.evolve r sigma dt M t count Sg in
  length (rows (fst Sg')) = M /\
  ncols (fst Sg') = (N + 1)%nat /\
  (forall p, (p < M)%nat -> length (nth p (rows (fst Sg')) []) = (N + 1)%nat) /\
  snd Sg' = mk_rng (draws g0) (cursor g0 + N * M) /\
  (forall p t', (p < M)%nat -> (t' <= N)%nat ->
     nth t' (nth p (rows (fst Sg')) []) 0
     = S0 * exp (Rsum (map (fun k => log_increment r sigma dt
                                       (draws g0 (cursor g0 + k * M + p)%nat))
                           (seq 0 t')))).
Proof.
  revert t Sg. induction count as [|c IH]; intros t [S g] Ht Htc HM Hc HL Hg HE.
  - cbn [PricingNotebook.evolve fst snd] in *.
    split; [exact HM|]. split; [exact Hc|]. split; [exact HL|].
    split; [rewrite Hg; f_equal; nia|].
    intros p t' Hp Ht'. apply HE; lia.
  - cbn [fst snd] in *. cbn [PricingNotebook.evolve normal fst snd].
    set (Z := map (fun k => draws g (cursor g + k)%nat) (seq 0 M)).
    set (col := map _ (combine (column (t - 1) S) Z)).
    assert (LZ : length Z = M) by (unfold Z; rewrite length_map, length_seq; reflexivity).
    assert (LC : length (column (t - 1) S) = M)
      by (unfold column; rewrite length_map; exact HM).
    assert (Lcol : length col = length (rows S)).
    { unfold col. rewrite length_map, length_combine. lia. }
    apply IH; cbn [fst snd].
    + lia.
    + lia.
    + rewrite length_rows_set_column; assumption.
    + exact Hc.
    + intros p Hp. rewrite nth_rows_set_column by lia.
      rewrite length_set_nth. apply HL. exact Hp.
    + rewrite Hg. cbn [draws cursor]. f_equal. nia.
    + intros p t' Hp Ht'. rewrite nth_rows_set_column by lia.
      destruct (Nat.eq_dec t' t) as [->|Hne].
      * rewrite nth_set_nth_eq by (rewrite HL; lia).
        unfold col. rewrite nth_map_combine by lia. cbn [fst snd].
        rewrite nth_column by lia.
        rewrite HE by lia.
        unfold Z. rewrite (nth_map_lt _ _ _ 0%nat) by (rewrite length_seq; lia).
        rewrite seq_nth by lia. cbn [Nat.add].
        rewrite Hg. cbn [draws cursor].
        replace (seq 0 t) with (seq 0 (t - 1) ++ [(t - 1)%nat])
          by (rewrite <- seq_S; f_equal; lia).
        rewrite map_app, Rsum_app. cbn [map Rsum fold_right].
        rewrite Rplus_0_r, exp_plus.
        ring.
      * rewrite nth_set_nth_neq by lia. apply HE; lia.
Qed.

Lemma simulated_spec S0 r sigma T M N g :
  let Sg := PricingNotebook.simulated S0 r sigma T M N g in
  length (rows (fst Sg)) = M /\
  ncols (fst Sg) = (N + 1)%nat /\
  (forall p, (p < M)%nat -> length (nth p (rows (fst Sg)) []) = (N + 1)%nat) /\
  snd Sg = mk_rng (draws g) (cursor g + N * M) /\
  (forall p t, (p < M)%nat -> (t <= N)%nat ->
     nth t (nth p (rows (fst Sg)) []) 0
     = S0 * exp (Rsum (map (fun k => log_increment r sigma (T / INR N)
                                       (draws g (cursor g + k * M + p)%nat))
                           (seq 0 t)))).
Proof.
  unfold PricingNotebook.simulated.
  set (S1 := set_column 0 (repeat S0 M) (zeros2 M (N + 1))).
  assert (LZ : length (rows (zeros2 M (N + 1))) = M)
    by (cbn [zeros2 rows]; apply repeat_length).
  assert (L1 : length (rows S1) = M).
  { unfold S1. rewrite length_rows_set_column; [exact LZ|].
    rewrite repeat_length, LZ. reflexivity. }
  assert (R1 : forall p, (p < M)%nat ->
                 nth p (rows S1) [] = set_nth 0 S0 (repeat 0 (N + 1))).
  { intros p Hp. unfold S1.
    rewrite nth_rows_set_column by (rewrite ?repeat_length, LZ; lia).
    cbn [zeros2 rows].
    rewrite (nth_indep _ 0 S0) by (rewrite repeat_length; lia).
    rewrite nth_repeat.
    rewrite (nth_indep _ [] (repeat 0 (N + 1))) by (rewrite repeat_length; lia).
    rewrite nth_repeat. reflexivity. }
  apply (evolve_invariant S0 r sigma (T / INR N) M N g N 1 (S1, g));
    cbn [fst snd].
  - lia.
  - lia.
  - exact L1.
  - reflexivity.
  - intros p Hp. rewrite R1 by exact Hp.
    rewrite length_set_nth, repeat_length. reflexivity.
  - destruct g as [d c]. cbn [draws cursor]. f_equal. lia.
  - intros p t' Hp Ht'. assert (t' = 0%nat) as -> by lia.
    rewrite R1 by exact Hp.
    rewrite nth_set_nth_eq by (rewrite repeat_length; lia).
    cbn [seq map Rsum fold_right]. rewrite exp_0. ring.
Qed.

(** X17.  For a positive step count N, the array that [mc_price_european]
    fills has one row for each of the M paths and N + 1 columns; column 0
    holds the initial price, and
    the entry of path p at time step t is S0 times the exponential of the
    sum of the first t log-increments, where the increment of step k + 1
    uses draw number k M + p: the draws are read one time step at a time.
    The loop advances the generator by N M draws. *)
Theorem mc_price_european_paths S0 r sigma T M N g :
  N <> 0%nat ->
  let Sg := PricingNotebook.simulated S0 r sigma T M N g in
  shape (fst Sg) = (M, (N + 1)%nat) /\
  cursor (snd Sg) = (cursor g + N * M)%nat /\
  forall p t, (p < M)%nat -> (t <= N)%nat ->
    length (nth p (rows (fst Sg)) []) = (N + 1)%nat /\
    nth 0 (nth p (rows (fst Sg)) []) 0 = S0 /\
    nth t (nth p (rows (fst Sg)) []) 0
    = S0 * exp (Rsum (map (fun k => log_increment r sigma (T / INR N)
                                      (draws g (cursor g + k * M + p)%nat))
                          (seq 0 t))).
Proof.
  intros _.
  destruct (simulated_spec S0 r sigma T M N g) as (HM & Hc & HL & Hg & HE).
  cbv zeta. split; [|split].
  - unfold shape. rewrite HM, Hc. reflexivity.
  - rewrite Hg. reflexivity.
  - intros p t Hp Ht. split; [apply HL; exact Hp|]. split.
    + rewrite HE by lia. cbn [seq map Rsum fold_right].
      rewrite exp_0. ring.
    + apply HE; assumption.
Qed.

Lemma mc_price_european_paths_witness :
  let Sg := PricingNotebook.simulated 100 0.05 0.2 1 3 2
                                      (mk_rng (fun _ => 0) 0) in
  shape (fst Sg) = (3%nat, (2 + 1)%nat) /\
  cursor (snd Sg) = (0 + 2 * 3)%nat /\
  forall p t, (p < 3)%nat -> (t <= 2)%nat ->
    length (nth p (rows (fst Sg)) []) = (2 + 1)%nat /\
    nth 0 (nth p (rows (fst Sg)) []) 0 = 100 /\
    nth t (nth p (rows (fst Sg)) []) 0
    = 100 * exp (Rsum (map (fun k => log_increment 0.05 0.2 (1 / INR 2)
                                       (draws (mk_rng (fun _ => 0) 0)
                                          (0 + k * 3 + p)%nat))
                           (seq 0 t))).
Proof.
  apply (mc_price_european_paths 100 0.05 0.2 1 3 2 (mk_rng (fun _ => 0) 0)).
  discriminate.
Defined.

(** X18.  For a positive step count [mc_price_european] returns the
    discounted mean of the payoffs at the terminal prices
    S0 exp(sum of the N log-increments of the path), path p taking draw
    number k M + p of the reseeded generator for its step k + 1; a flag
    other than "call" prices a put. *)
Theorem mc_price_european_closed_form
        seedfn S0 K r sigma T M N option_type seed :
  N <> 0%nat ->
  let g := seedfn seed in
  let ST := map (fun p =>
                   S0 * exp (Rsum (map (fun k =>
                                          log_increment r sigma (T / INR N)
                                            (draws g (cursor g + k * M + p)%nat))
                                       (seq 0 N))))
                (seq 0 M) in
  let payoff := if (option_type =? "call")%string
                then map (fun s => Rmax (s - K) 0) ST
                else map (fun s => Rmax (K - s) 0) ST in
  PricingNotebook.mc_price_european seedfn S0 K r sigma T M N option_type seed
  = Ret (exp (- r * T) * np_mean payoff,
         mk_rng (draws g) (cursor g + N * M)).
Proof.
  intros HN g ST payoff. unfold PricingNotebook.mc_price_european. fold g.
  destruct (Nat.eqb_spec N 0) as [|_]; [contradiction|].
  destruct (simulated_spec S0 r sigma T M N g) as (HM & Hc & HL & Hg & HE).
  cbv zeta in HM, Hc, HL, Hg, HE.
  destruct (PricingNotebook.simulated S0 r sigma T M N g) as [S g'].
  cbn [fst snd] in *. subst g'.
  rewrite last_column_ok by (rewrite Hc; lia). cbn [bind].
  assert (E : map (fun row => last row 0) (rows S) = ST).
  { apply (nth_ext _ _ 0 0).
    - unfold ST. rewrite !length_map, length_seq. exact HM.
    - intros p Hp. rewrite length_map, HM in Hp.
      rewrite (nth_map_lt _ _ _ []) by lia.
      rewrite last_nth, HL by exact Hp.
      replace (N + 1 - 1)%nat with N by lia.
      rewrite HE by lia.
      unfold ST. rewrite (nth_map_lt _ _ _ 0%nat) by (rewrite length_seq; lia).
      rewrite seq_nth by lia. reflexivity. }
  rewrite E. reflexivity.
Qed.

Lemma mc_price_european_closed_form_witness :
  let g := (fun _ : Z => mk_rng (fun _ => 0) 0) 42%Z in
  let ST := map (fun p =>
                   100 * exp (Rsum (map (fun k =>
                                           log_increment 0.05 0.2 (1 / INR 2)
                                             (draws g (cursor g + k * 3 + p)%nat))
                                        (seq 0 2))))
                (seq 0 3) in
  let payoff := if ("call" =? "call")%string
                then map (fun s => Rmax (s - 100) 0) ST
                else map (fun s => Rmax (100 - s) 0) ST in
  PricingNotebook.mc_price_european (fun _ => mk_rng (fun _ => 0) 0)
                                    100 100 0.05 0.2 1 3 2 "call" 42
  = Ret (exp (- (0.05) * 1) * np_mean payoff,
         mk_rng (draws g) (cursor g + 2 * 3)).
Proof.
  apply (mc_price_european_closed_form (fun _ => mk_rng (fun _ => 0) 0)
                                       100 100 0.05 0.2 1 3 2 "call" 42).
  discriminate.
Defined.

(** ** Bracketing a root *)

(** What the loop of [find_bracket] returns when it starts from [hi]: the
    first candidate hi * factor^m at which the sign changes, all candidates
    tried after [hi] being at most [max_high]; or the ValueError, when the
    sign has not changed up to the last candidate within [max_high]. *)
Lemma find_bracket_loop_spec (func : R -> R) f_low factor max_high n :
  1 < factor ->
  forall hi, 0 < hi -> max_high < hi * factor ^ n ->
  exists fuel res,
    (forall extra,
       find_bracket_loop (fuel + extra) func f_low hi factor max_high (func hi)
       = Some res) /\
    match res with
    | Ret h =>
        f_low * func h <= 0 /\
        exists m, h = hi * factor ^ m /\
                  (m <> 0%nat -> h <= max_high) /\
                  forall k, (k < m)%nat -> 0 < f_low * func (hi * factor ^ k)
    | Raise e =>
        e = ValueError "Cannot bracket root" /\
        exists m, max_high < hi * factor ^ (S m) /\
                  (forall k, (k <= m)%nat ->
                             0 < f_low * func (hi * factor ^ k)) /\
                  (forall k, (1 <= k <= m)%nat -> hi * factor ^ k <= max_high)
    end.
Proof.
  intro Hf. induction n as [|n IH]; intros hi Hhi Hmax.
  - exists 1%nat.
    destruct (Rltb 0 (f_low * func hi)) eqn:EP.
    + exists (Raise (ValueError "Cannot bracket root")). split.
      * intro extra. cbn [Nat.add find_bracket_loop]. rewrite EP.
        replace (Rltb max_high (hi * factor)) with true; [reflexivity|].
        symmetry. apply Rltb_true_iff. simpl in Hmax. nra.
      * split; [reflexivity|]. exists 0%nat. apply Rltb_true_iff in EP.
        split; [simpl in *; nra|]. split.
        -- intros k Hk. assert (k = 0%nat) as -> by lia.
           simpl. rewrite Rmult_1_r. exact EP.
        -- intros k Hk. lia.
    + exists (Ret hi). split.
      * intro extra. cbn [Nat.add find_bracket_loop]. rewrite EP. reflexivity.
      * apply Rltb_false_iff in EP. split; [exact EP|].
        exists 0%nat. split; [simpl; ring|]. split; [intro C; contradiction|].
        intros k Hk. lia.
  - destruct (Rltb 0 (f_low * func hi)) eqn:EP.
    + destruct (Rltb max_high (hi * factor)) eqn:EM.
      * exists 1%nat, (Raise (ValueError "Cannot bracket root")). split.
        -- intro extra. cbn [Nat.add find_bracket_loop]. rewrite EP, EM.
           reflexivity.
        -- split; [reflexivity|]. exists 0%nat.
           apply Rltb_true_iff in EP. apply Rltb_true_iff in EM.
           split; [simpl; rewrite Rmult_1_r; exact EM|]. split.
           ++ intros k Hk. assert (k = 0%nat) as -> by lia.
              simpl. rewrite Rmult_1_r. exact EP.
           ++ intros k Hk. lia.
      * assert (Hhi' : 0 < hi * factor) by nra.
        assert (Hmax' : max_high < hi * factor * factor ^ n)
          by (simpl in Hmax; nra).
        destruct (IH (hi * factor) Hhi' Hmax') as [fuel [res [Hrun Hres]]].
        apply Rltb_true_iff in EP. apply Rltb_false_iff in EM.
        assert (Eshift : forall k, hi * factor * factor ^ k = hi * factor ^ S k)
          by (intro k; simpl; ring).
        exists (S fuel), res. split.
        -- intro extra. cbn [Nat.add find_bracket_loop].
           replace (Rltb 0 (f_low * func hi)) with true
             by (symmetry; apply Rltb_true_iff; exact EP).
           replace (Rltb max_high (hi * factor)) with false
             by (symmetry; apply Rltb_false_iff; exact EM).
           apply Hrun.
        -- destruct res as [h|e].
           ++ destruct Hres as [Hsign [m [Eh [Hle Hpos]]]].
              split; [exact Hsign|]. exists (S m).
              split; [rewrite <- Eshift; exact Eh|].
              split.
              ** intros _. destruct m as [|m'].
                 --- rewrite Eh. simpl. rewrite Rmult_1_r. exact EM.
                 --- apply Hle. discriminate.
              ** intros [|k] Hk.
                 --- simpl. rewrite Rmult_1_r. exact EP.
                 --- rewrite <- Eshift. apply Hpos. lia.
           ++ destruct Hres as [He [m [Hgt [Hpos Hle]]]].
              split; [exact He|]. exists (S m).
              split; [rewrite <- Eshift; exact Hgt|]. split.
              ** intros [|k] Hk.
                 --- simpl. rewrite Rmult_1_r. exact EP.
                 --- rewrite <- Eshift. apply Hpos. lia.
              ** intros [|[|k]] Hk.
                 --- lia.
                 --- simpl. rewrite Rmult_1_r. exact EM.
                 --- rewrite <- Eshift. apply Hle. lia.
    + exists 1%nat, (Ret hi). split.
      * intro extra. cbn [Nat.add find_bracket_loop]. rewrite EP. reflexivity.
      * apply Rltb_false_iff in EP. split; [exact EP|].
        exists 0%nat. split; [simpl; ring|]. split; [intro C; contradiction|].
        intros k Hk. lia.
Qed.

Lemma candidates_exceed (high factor max_high : R) :
  1 < factor -> 0 < high -> exists n, max_high < high * factor ^ n.
Proof.
  intros Hf Hh.
  destruct (Pow_x_infinity factor) with (b := max_high / high + 1) as [n Hn].
  - rewrite Rabs_pos_eq by lra. lra.
  - exists n. specialize (Hn n (Nat.le_refl n)).
    rewrite Rabs_pos_eq in Hn by (apply pow_le; lra).
    apply Rge_le in Hn.
    apply (Rmult_le_compat_l high) in Hn; [|lra].
    replace (high * (max_high / high + 1)) with (max_high + high) in Hn
      by (field; lra).
    lra.
Qed.

(** X19.  With a growth factor above 1 and a positive initial [high] the
    loop of [find_bracket] ends (some number of unrollings suffices, and
    more change nothing).  It returns [low] unchanged together with the
    first candidate high * factor^m at which func(low) * func(.) <= 0, a
    candidate that is at most [max_high] unless it is the initial [high];
    it raises the ValueError exactly when the sign has not changed at any
    candidate up to the last one within [max_high]. *)
Theorem find_bracket_spec (func : R -> R) low high factor max_high :
  1 < factor -> 0 < high ->
  exists fuel res,
    (forall extra,
       find_bracket (fuel + extra) func low high factor max_high = Some res) /\
    match res with
    | Ret (l, h) =>
        l = low /\ func low * func h <= 0 /\
        exists m, h = high * factor ^ m /\
                  (m <> 0%nat -> h <= max_high) /\
                  forall k, (k < m)%nat ->
                            0 < func low * func (high * factor ^ k)
    | Raise e =>
        e = ValueError "Cannot bracket root" /\
        exists m, max_high < high * factor ^ (S m) /\
                  (forall k, (k <= m)%nat ->
                             0 < func low * func (high * factor ^ k)) /\
                  (forall k, (1 <= k <= m)%nat ->
                             high * factor ^ k <= max_high)
    end.
Proof.
  intros Hf Hh.
  destruct (candidates_exceed high factor max_high Hf Hh) as [n Hn].
  destruct (find_bracket_loop_spec func (func low) factor max_high n Hf
                                   high Hh Hn) as [fuel [res [Hrun Hres]]].
  destruct res as [h|e].
  - exists fuel, (Ret (low, h)). split.
    + intro extra. unfold find_bracket. rewrite Hrun. reflexivity.
    + split; [reflexivity|exact Hres].
  - exists fuel, (Raise e). split.
    + intro extra. unfold find_bracket. rewrite Hrun. reflexivity.
    + exact Hres.
Qed.

Lemma find_bracket_spec_witness :
  exists fuel res,
    (forall extra,
       find_bracket (fuel + extra) (fun x => x - 3) 0 1 2 100 = Some res) /\
    match res with
    | Ret (l, h) =>
        l = 0 /\ (fun x => x - 3) 0 * (fun x => x - 3) h <= 0 /\
        exists m, h = 1 * 2 ^ m /\
                  (m <> 0%nat -> h <= 100) /\
                  forall k, (k < m)%nat ->
                            0 < (fun x => x - 3) 0 * (fun x => x - 3) (1 * 2 ^ k)
    | Raise e =>
        e = ValueError "Cannot bracket root" /\
        exists m, 100 < 1 * 2 ^ (S m) /\
                  (forall k, (k <= m)%nat ->
                             0 < (fun x => x - 3) 0
                                 * (fun x => x - 3) (1 * 2 ^ k)) /\
                  (forall k, (1 <= k <= m)%nat -> 1 * 2 ^ k <= 100)
    end.
Proof.
  apply (find_bracket_spec (fun x => x - 3) 0 1 2 100); lra.
Defined.

(** ** Bump-and-revalue Greeks *)

(** X20.  The central differences of [compute_greeks] are exact on
    quadratics: if the price function returns a S^2 + b S + c at every spot
    S, whatever the generator state, then for a bump other than zero delta
    is 2 a S0 + b and gamma is 2 a. *)
Theorem compute_greeks_exact_on_quadratics
        (price_func : R -> rng -> result (R * R * rng)) a b c S0 bump g :
  bump <> 0 ->
  (forall S g, exists ci g',
     price_func S g = Ret (a * S ^ 2 + b * S + c, ci, g')) ->
  exists g',
    compute_greeks price_func S0 bump g = Ret (2 * a * S0 + b, 2 * a, g').
Proof.
  intros Hb Hp. unfold compute_greeks.
  destruct (Hp S0 g) as [ci0 [g0 E0]]. rewrite E0. cbn [bind fst snd].
  destruct (Hp (S0 + bump) g0) as [ci1 [g1 E1]]. rewrite E1. cbn [bind fst snd].
  destruct (Hp (S0 - bump) g1) as [ci2 [g2 E2]]. rewrite E2. cbn [bind fst snd].
  exists g2. f_equal. f_equal. f_equal; field; exact Hb.
Qed.

Lemma compute_greeks_exact_on_quadratics_witness :
  exists g',
    compute_greeks (fun S g => Ret (3 * S ^ 2 + 2 * S + 1, 0, g)) 100 1
                   (mk_rng (fun _ => 0) 0)
    = Ret (2 * 3 * 100 + 2, 2 * 3, g').
Proof.
  apply (compute_greeks_exact_on_quadratics
           (fun S g => Ret (3 * S ^ 2 + 2 * S + 1, 0, g)) 3 2 1 100 1
           (mk_rng (fun _ => 0) 0)).
  - lra.
  - intros S g. exists 0, g. reflexivity.
Defined.

Lemma mc_barrier_down_out_call_state seedfn S0 K r sigma T B N_paths M seed g :
  M <> 0%nat ->
  exists p ci,
    mc_barrier_down_out_call seedfn S0 K r sigma T B N_paths M seed g
    = Ret (p, ci, mk_rng (draws (reseed seedfn seed g))
                         (cursor (reseed seedfn seed g) + N_paths * M)).
Proof.
  intro HM. unfold mc_barrier_down_out_call.
  destruct (Nat.eqb_spec M 0); [contradiction|].
  cbn [randn]. do 2 eexists. reflexivity.
Qed.

(** X21.  [compute_greeks] on [price_barrier] revalues three times.  With
    a seed each revaluation reseeds the generator, so the three prices are
    computed from the same draws, the Greeks do not depend on the incoming
    generator state, and the generator is left N_paths * M draws after the
    seed; without a seed the revaluations read three successive blocks of
    draws, 3 * N_paths * M draws in all. *)
Theorem compute_greeks_price_barrier_draws
        seedfn K r sigma T N_paths M seed S0 bump g :
  M <> 0%nat ->
  let price_func := fun s => price_barrier seedfn s K r sigma T N_paths M seed in
  exists delta gamma g',
    compute_greeks price_func S0 bump g = Ret (delta, gamma, g') /\
    draws g' = draws (reseed seedfn seed g) /\
    cursor g' = match seed with
                | Some s => (cursor (seedfn s) + N_paths * M)%nat
                | None => (cursor g + 3 * (N_paths * M))%nat
                end /\
    (seed <> None ->
     forall g2, compute_greeks price_func S0 bump g2
                = compute_greeks price_func S0 bump g).
Proof.
  intros HM price_func.
  assert (Hseeded : seed <> None ->
            forall g2, compute_greeks price_func S0 bump g2
                       = compute_greeks price_func S0 bump g).
  { intros Hseed g2. destruct seed as [s|]; [reflexivity|contradiction]. }
  cut (exists delta gamma g',
         compute_greeks price_func S0 bump g = Ret (delta, gamma, g') /\
         draws g' = draws (reseed seedfn seed g) /\
         cursor g' = match seed with
                     | Some s => (cursor (seedfn s) + N_paths * M)%nat
                     | None => (cursor g + 3 * (N_paths * M))%nat
                     end).
  { intros (delta & gamma & g' & H1 & H2 & H3).
    exists delta, gamma, g'. repeat split; assumption. }
  unfold compute_greeks, price_func, price_barrier.
  destruct (mc_barrier_down_out_call_state seedfn S0 K r sigma T 90
              N_paths M seed g HM) as [p0 [c0 E0]].
  rewrite E0. cbn [bind fst snd].
  match goal with
  | |- context [mc_barrier_down_out_call _ _ _ _ _ _ _ _ _ _ ?gg] =>
      destruct (mc_barrier_down_out_call_state seedfn (S0 + bump) K r sigma
                  T 90 N_paths M seed gg HM) as [p1 [c1 E1]]
  end.
  rewrite E1. cbn [bind fst snd].
  match goal with
  | |- context [mc_barrier_down_out_call _ _ _ _ _ _ _ _ _ _ ?gg] =>
      destruct (mc_barrier_down_out_call_state seedfn (S0 - bump) K r sigma
                  T 90 N_paths M seed gg HM) as [p2 [c2 E2]]
  end.
  rewrite E2. cbn [bind fst snd].
  do 3 eexists. split; [reflexivity|].
  split.
  - destruct seed; reflexivity.
  - destruct seed; cbn [reseed draws cursor]; lia.
Qed.

Lemma compute_greeks_price_barrier_draws_witness :
  let price_func :=
    fun s => price_barrier (fun _ => mk_rng (fun _ => 0) 0)
                           s 100 0.05 0.2 1 3 2 (Some 42%Z) in
  exists delta gamma g',
    compute_greeks price_func 100 1 (mk_rng (fun _ => 1) 5)
      = Ret (delta, gamma, g') /\
    draws g' = draws (reseed (fun _ => mk_rng (fun _ => 0) 0) (Some 42%Z)
                             (mk_rng (fun _ => 1) 5)) /\
    cursor g' = (0 + 3 * 2)%nat /\
    (Some 42%Z <> None ->
     forall g2, compute_greeks price_func 100 1 g2
                = compute_greeks price_func 100 1 (mk_rng (fun _ => 1) 5)).
Proof.
  apply (compute_greeks_price_barrier_draws
           (fun _ => mk_rng (fun _ => 0) 0) 100 0.05 0.2 1 3 2 (Some 42%Z)
           100 1 (mk_rng (fun _ => 1) 5)).
  discriminate.
Defined.

(** ** The loop pricers of the two barrier notebooks *)

Lemma Rsum_map_affine (a b : R) (l : list R) :
  Rsum (map (fun z => a + b * z) l) = INR (length l) * a + b * Rsum l.
Proof.
  induction l as [|x l IH].
  - simpl. ring.
  - change (Rsum (map (fun z => a + b * z) (x :: l)))
      with (a + b * x + Rsum (map (fun z => a + b * z) l)).
    change (Rsum (x :: l)) with (x + Rsum l).
    rewrite IH. change (length (x :: l)) with (S (length l)).
    rewrite S_INR. ring.
Qed.

(** The path that [mc_do_call] monitors is the initial price followed by
    the path that [mc_barrier_down_out_call] monitors. *)
Lemma mc_do_call_monitored_path S0 r sigma T M Z :
  length Z = M ->
  map (fun tw : R * R =>
         S0 * exp ((r - 0.5 * sigma ^ 2) * fst tw + sigma * snd tw))
      (combine (linspace0 T M)
               (0 :: map (fun c => c * sqrt (T / INR M)) (cumsum Z)))
  = S0 :: map (fun x => S0 * exp x)
              (cumsum (map (log_increment r sigma (T / INR M)) Z)).
Proof.
  intro HZ. unfold linspace0. rewrite Nat.add_1_r. cbn [seq map combine fst snd].
  f_equal.
  - cbn [INR]. rewrite Rmult_0_l, !Rmult_0_r, Rplus_0_r, exp_0. ring.
  - apply (nth_ext _ _ 0 0).
    + rewrite !length_map, length_combine, !length_map, length_seq,
        !length_cumsum, length_map. lia.
    + intros j Hj.
      rewrite length_map, length_combine, !length_map, length_seq,
        length_cumsum in Hj.
      assert (HjM : (j < M)%nat) by lia.
      rewrite (nth_map_lt _ _ _ (0, 0))
        by (rewrite length_combine, !length_map, length_seq, length_cumsum; lia).
      rewrite nth_combine_lt
        by (rewrite ?length_map, ?length_seq, ?length_cumsum; lia).
      cbn [fst snd].
      rewrite (nth_map_lt _ (seq 1 M) _ 0%nat) by (rewrite length_seq; lia).
      rewrite seq_nth by lia.
      rewrite (nth_map_lt _ (cumsum Z) _ 0) by (rewrite length_cumsum; lia).
      rewrite nth_cumsum by lia.
      rewrite (nth_map_lt _ (cumsum _) _ 0)
        by (rewrite length_cumsum, length_map; lia).
      rewrite nth_cumsum by (rewrite length_map; lia).
      rewrite firstn_map.
      unfold log_increment.
      rewrite (Rsum_map_affine ((r - 0.5 * sigma ^ 2) * (T / INR M))
                               (sigma * sqrt (T / INR M))).
      rewrite length_firstn.
      replace (Nat.min (S j) (length Z)) with (1 + j)%nat by lia.
      f_equal. f_equal. ring.
Qed.

Lemma mc_do_call_path_is_mc_barrier_path S0 K r sigma T B M Z :
  length Z = M -> M <> 0%nat -> B < S0 ->
  mc_do_call_path S0 K r sigma T B M Z = mc_barrier_path S0 K r sigma T B M Z.
Proof.
  intros HZ HM HB. unfold mc_do_call_path, mc_barrier_path.
  rewrite mc_do_call_monitored_path by exact HZ.
  set (S_path := map (fun x => S0 * exp x) (cumsum _)).
  assert (HS : S_path <> []).
  { intro E. apply (f_equal (@length R)) in E. unfold S_path in E.
    rewrite length_map, length_cumsum, length_map, HZ in E.
    simpl in E. contradiction. }
  destruct S_path as [|s t] eqn:ES; [contradiction|].
  change (last (S0 :: s :: t) 0) with (last (s :: t) 0).
  cbn [np_min fold_left].
  rewrite !fold_left_Rmin_leb, Rleb_Rmin.
  replace (Rleb S0 B) with false by (symmetry; apply Rleb_false_iff; exact HB).
  reflexivity.
Qed.

Lemma np_mean_scale d l : np_mean (map (fun p => d * p) l) = d * np_mean l.
Proof.
  unfold np_mean. rewrite length_map.
  assert (E : Rsum (map (fun p => d * p) l) = d * Rsum l).
  { induction l as [|x l IH]; [simpl; ring|].
    change (Rsum (map (fun p => d * p) (x :: l)))
      with (d * x + Rsum (map (fun p => d * p) l)).
    change (Rsum (x :: l)) with (x + Rsum l). rewrite IH. ring. }
  rewrite E. unfold Rdiv. ring.
Qed.

(** X22.  For a barrier below the spot, [mc_do_call] (whose monitored path
    starts at S0) returns the price that [mc_barrier_down_out_call] (whose
    monitored path starts after the first step) computes from the same
    draws, that is, without a seed, from the state of the generator that
    [mc_do_call] builds. *)
Theorem mc_do_call_is_mc_barrier_down_out_call
        rngfn seedfn S0 K r sigma T B M N seed :
  M <> 0%nat -> B < S0 ->
  exists p ci g',
    mc_barrier_down_out_call seedfn S0 K r sigma T B N M None (rngfn seed)
      = Ret (p, ci, g') /\
    mc_do_call rngfn S0 K r sigma T B M N seed = Ret p.
Proof.
  intros HM HB. unfold mc_barrier_down_out_call, mc_do_call.
  cbn [reseed]. destruct (Nat.eqb_spec M 0); [contradiction|].
  assert (E : map (mc_do_call_path S0 K r sigma T B M)
                  (rows (fst (randn N M (rngfn seed))))
              = map (mc_barrier_path S0 K r sigma T B M)
                    (rows (fst (randn N M (rngfn seed))))).
  { apply map_ext_Forall.
    eapply Forall_impl; [|apply (randn_rows_length N M (rngfn seed))].
    intros z Hz. apply mc_do_call_path_is_mc_barrier_path; assumption. }
  rewrite E.
  destruct (randn N M (rngfn seed)) as [Z g1]. cbn [fst snd].
  do 3 eexists. split; [reflexivity|].
  rewrite np_mean_scale. reflexivity.
Qed.

Lemma mc_do_call_is_mc_barrier_down_out_call_witness :
  exists p ci g',
    mc_barrier_down_out_call (fun _ => mk_rng (fun _ => 0) 0)
                             100 100 0.05 0.2 1 90 3 2 None
                             ((fun _ => mk_rng (fun _ => 0) 0) 42%Z)
      = Ret (p, ci, g') /\
    mc_do_call (fun _ => mk_rng (fun _ => 0) 0) 100 100 0.05 0.2 1 90 2 3 42
      = Ret p.
Proof.
  apply (mc_do_call_is_mc_barrier_down_out_call
           (fun _ => mk_rng (fun _ => 0) 0) (fun _ => mk_rng (fun _ => 0) 0)
           100 100 0.05 0.2 1 90 2 3 42); [discriminate|lra].
Defined.

(** ** A spot outside the grid *)

Lemma interp_from_beyond x x0 f0 xp fp :
  Forall (fun s => s < x) xp -> length xp = length fp ->
  interp_from x x0 f0 xp fp = last (f0 :: fp) 0.
Proof.
  revert x0 f0 fp. induction xp as [|x1 xp IH]; intros x0 f0 [|f1 fp] HF HL;
    try discriminate; [reflexivity|].
  cbn [interp_from].
  replace (Rleb x x1) with false
    by (symmetry; apply Rleb_false_iff; inversion HF; assumption).
  rewrite IH; [|inversion HF; assumption|simpl in HL; lia].
  reflexivity.
Qed.

(** [np.interp] beyond the last node returns the last value, and at or
    before the first node the first value. *)
Lemma np_interp_beyond x xp fp :
  Forall (fun s => s < x) xp -> length xp = length fp -> xp <> [] ->
  np_interp x xp fp = last fp 0.
Proof.
  intros HF HL Hne. destruct xp as [|x0 xp]; [contradiction|].
  destruct fp as [|f0 fp]; [discriminate|].
  cbn [np_interp].
  replace (Rleb x x0) with false
    by (symmetry; apply Rleb_false_iff; inversion HF; assumption).
  apply interp_from_beyond; [inversion HF; assumption|simpl in HL; lia].
Qed.

Lemma np_interp_before x xp fp :
  x <= nth 0 xp 0 -> xp <> [] -> fp <> [] ->
  np_interp x xp fp = nth 0 fp 0.
Proof.
  intros Hx Hxp Hfp. destruct xp as [|x0 xp]; [contradiction|].
  destruct fp as [|f0 fp]; [contradiction|].
  cbn [np_interp nth] in *.
  replace (Rleb x x0) with true by (symmetry; apply Rleb_true_iff; exact Hx).
  reflexivity.
Qed.

Lemma linspace0_nodes_le Smax n :
  n <> 0%nat -> 0 <= Smax -> Forall (fun s => s <= Smax) (linspace0 Smax n).
Proof.
  intros Hn HS. unfold linspace0. apply Forall_forall. intros s Hs.
  apply in_map_iff in Hs. destruct Hs as [i [<- Hi]].
  apply in_seq in Hi.
  assert (Hn0 : 0 < INR n) by (apply lt_0_INR; lia).
  assert (Hin : INR i <= INR n) by (apply le_INR; lia).
  replace Smax with (INR n * (Smax / INR n)) at 2 by (field; lra).
  apply Rmult_le_compat_r; [|exact Hin].
  apply Rmult_le_pos; [exact HS|left; apply Rinv_0_lt_compat; exact Hn0].
Qed.

Lemma linspace0_beyond Smax n x :
  n <> 0%nat -> 0 <= Smax -> Smax < x ->
  Forall (fun s => s < x) (linspace0 Smax n).
Proof.
  intros Hn HS Hx. eapply Forall_impl; [|apply linspace0_nodes_le; eassumption].
  intros s Hs. simpl in Hs. lra.
Qed.

Lemma linspace0_nonempty Smax n : linspace0 Smax n <> [].
Proof.
  intro E. apply (f_equal (@length R)) in E.
  rewrite length_linspace0 in E. simpl in E. lia.
Qed.

Lemma one_step_left T N_t :
  N_t <> 0%nat -> T - INR (N_t - 1) * (T / INR N_t) = T / INR N_t.
Proof.
  intro H. rewrite minus_INR by lia. simpl INR.
  field. apply not_0_INR. exact H.
Qed.

(** X23.  Outside the grid [pde_do_call_cn] returns a boundary value of its
    last pass: 0 for a spot at or below 0, and for a spot above [Smax] the
    value Smax - K e^(-r T / N_t), the strike discounted over one time
    step, not over the maturity T. *)
Theorem pde_do_call_cn_spot_outside_grid S0 K r sigma T B Smax N_S N_t :
  (2 <= N_S)%nat -> N_t <> 0%nat -> 0 < Smax ->
  0 <= B < Smax + Smax / INR N_S ->
  (S0 <= 0 ->
   ComparisonNotebook.pde_do_call_cn S0 K r sigma T B Smax N_S N_t = Ret 0) /\
  (Smax < S0 ->
   ComparisonNotebook.pde_do_call_cn S0 K r sigma T B Smax N_S N_t
   = Ret (Smax - K * exp (- r * (T / INR N_t)))).
Proof.
  intros HN Ht HS HB.
  assert (Hidx : py_index (N_S + 1) (ComparisonNotebook.jB B Smax N_S)
                 = Ret (Z.to_nat (ComparisonNotebook.jB B Smax N_S))).
  { apply py_index_in_range. apply pde_jB_in_grid; [lia|assumption..]. }
  destruct (pde_for_range_returns K r sigma T B Smax N_S N_t N_t _ HN Hidx)
    as [V [EV LV]].
  assert (Hb : nth 0 V 0 = 0 /\
               last V 0 = Smax - K * exp (- r * (T / INR N_t))).
  { destruct N_t as [|k]; [contradiction|].
    destruct (pde_march_boundaries K r sigma T B Smax N_S (S k) k V) as [H0 H1].
    - rewrite pde_march_unfold by assumption. exact EV.
    - split; [exact H0|]. rewrite H1. unfold ComparisonNotebook.dt.
      replace k with (S k - 1)%nat at 1 by lia.
      rewrite one_step_left by discriminate. reflexivity. }
  destruct Hb as [H0 H1].
  unfold ComparisonNotebook.pde_do_call_cn.
  rewrite pde_march_unfold by assumption. rewrite EV. cbn [bind].
  unfold ComparisonNotebook.S_grid.
  split; intro HS0; f_equal.
  - rewrite np_interp_before.
    + exact H0.
    + rewrite linspace0_first. exact HS0.
    + apply linspace0_nonempty.
    + intro E. rewrite E in LV. simpl in LV. lia.
  - rewrite np_interp_beyond.
    + exact H1.
    + apply linspace0_beyond; [lia|lra|exact HS0].
    + rewrite length_linspace0, LV. reflexivity.
    + apply linspace0_nonempty.
Qed.

Lemma pde_do_call_cn_spot_outside_grid_witness :
  ComparisonNotebook.pde_do_call_cn 500 100 0.05 0.2 1 90 200 4 2
  = Ret (200 - 100 * exp (- (0.05) * (1 / INR 2))).
Proof.
  apply (pde_do_call_cn_spot_outside_grid 500 100 0.05 0.2 1 90 200 4 2);
    try lia; try lra. simpl INR. lra.
Defined.

(** X24.  Outside the grid [crank_nicolson_barrier] returns a boundary
    value of its last pass as well (grid and matrix as in X13): 0 for a
    spot at or below 0, and for a spot above [Smax] the value Smax - K,
    the strike not discounted at all. *)
Theorem crank_nicolson_barrier_spot_outside_grid
        S0 K r sigma T B Smax N_S N_t :
  (2 <= N_S)%nat -> N_t <> 0%nat -> 0 < Smax ->
  nonsingular (CrankNicolsonNotebook.A r sigma T N_S N_t) ->
  (S0 <= 0 ->
   CrankNicolsonNotebook.crank_nicolson_barrier S0 K r sigma T B Smax N_S N_t
   = Ret 0) /\
  (Smax < S0 ->
   CrankNicolsonNotebook.crank_nicolson_barrier S0 K r sigma T B Smax N_S N_t
   = Ret (Smax - K)).
Proof.
  intros HN Ht HS _.
  destruct N_t as [|k]; [contradiction|].
  destruct (cn_barrier_for_range_returns K r sigma T B Smax N_S (S k) k HN)
    as [Vk [Ek Lk]].
  destruct (cn_barrier_step_returns K r sigma T B Smax N_S (S k) k Vk HN Lk)
    as [V [EV LV]].
  destruct (crank_nicolson_barrier_step_enforced
              K r sigma T B Smax N_S (S k) k Vk V ltac:(lia) EV)
    as (H0 & H1 & _).
  assert (H1' : last V 0 = Smax - K).
  { rewrite H1.
    replace (T - INR k * (T / INR (S k)) - T / INR (S k)) with 0.
    - rewrite Rmult_0_r, exp_0. ring.
    - pose proof (one_step_left T (S k) ltac:(discriminate)) as E.
      replace (S k - 1)%nat with k in E by lia. lra. }
  unfold CrankNicolsonNotebook.crank_nicolson_barrier.
  rewrite cn_barrier_march_unfold by lia.
  rewrite for_range_snoc, Ek. cbn [bind Nat.add]. rewrite EV. cbn [bind].
  unfold CrankNicolsonNotebook.S.
  split; intro HS0; f_equal.
  - rewrite np_interp_before.
    + exact H0.
    + rewrite linspace0_first. exact HS0.
    + apply linspace0_nonempty.
    + intro E. rewrite E in LV. simpl in LV. lia.
  - rewrite np_interp_beyond.
    + exact H1'.
    + apply linspace0_beyond; [lia|lra|exact HS0].
    + rewrite length_linspace0, LV. reflexivity.
    + apply linspace0_nonempty.
Qed.

Lemma crank_nicolson_barrier_spot_outside_grid_witness :
  CrankNicolsonNotebook.crank_nicolson_barrier 500 100 0.05 0.2 1 90 200 2 2
  = Ret (200 - 100).
Proof.
  apply (crank_nicolson_barrier_spot_outside_grid
           500 100 0.05 0.2 1 90 200 2 2); try lia; try lra.
  unfold nonsingular, CrankNicolsonNotebook.A, CrankNicolsonNotebook.a,
    CrankNicolsonNotebook.b, CrankNicolsonNotebook.c, CrankNicolsonNotebook.i,
    CrankNicolsonNotebook.dt, cn_beta.
  simpl. split; [lra|exact I].
Defined.

(** ** The geometric average *)

Lemma Rprod_exp l : Rprod (map exp l) = exp (Rsum l).
Proof.
  induction l as [|x l IH].
  - simpl. rewrite exp_0. reflexivity.
  - change (Rprod (map exp (x :: l))) with (exp x * Rprod (map exp l)).
    change (Rsum (x :: l)) with (x + Rsum l).
    rewrite IH, exp_plus. reflexivity.
Qed.

Lemma Rsum_map_shift (a : R) (l : list R) :
  Rsum (map (fun x => a + x) l) = INR (length l) * a + Rsum l.
Proof.
  induction l as [|x l IH].
  - simpl. ring.
  - change (Rsum (map (fun x => a + x) (x :: l)))
      with (a + x + Rsum (map (fun x => a + x) l)).
    change (Rsum (x :: l)) with (x + Rsum l).
    rewrite IH. change (length (x :: l)) with (S (length l)).
    rewrite S_INR. ring.
Qed.

(** The geometric average of a path, computed by the notebook as the n-th
    root of a product of exponentials, is S0 times the exponential of the
    mean log-return. *)
Lemma geometric_average_of_row S0 n row :
  0 < S0 -> n <> 0%nat -> length row = n ->
  Rpower (Rprod (map (fun x => exp (ln S0 + x)) row)) (1 / INR n)
  = S0 * exp (np_mean row).
Proof.
  intros HS Hn Hl.
  rewrite <- (map_map (fun x => ln S0 + x) exp), Rprod_exp, Rsum_map_shift, Hl.
  unfold Rpower. rewrite ln_exp.
  assert (HI : INR n <> 0) by (apply not_0_INR; exact Hn).
  replace (1 / INR n * (INR n * ln S0 + Rsum row))
    with (ln S0 + Rsum row / INR n) by (field; exact HI).
  rewrite exp_plus, exp_ln by exact HS.
  unfold np_mean. rewrite Hl. reflexivity.
Qed.

(** X25.  For a positive spot and a positive number of fixings, the
    geometric average that [mc_geo_asian_price] forms for a path (the n-th
    root of the product of the n simulated prices) is S0 times the
    exponential of the mean of the path's cumulated log-increments; the
    estimate and its half-width are those of the payoffs of these
    averages. *)
Theorem mc_geo_asian_price_log_average S0 K r T sigma n N call g :
  0 < S0 -> n <> 0%nat ->
  let G := map (fun z =>
                  S0 * exp (np_mean (cumsum (map (log_increment r sigma
                                                    (T / INR n)) z))))
               (rows (fst (randn N n g))) in
  let disc_payoff := map (fun p => exp (- r * T) * p)
                         (geo_asian_payoff K call G) in
  mc_geo_asian_price S0 K r T sigma n N call g
  = Ret (np_mean disc_payoff,
         1.96 * (np_std_ddof1 disc_payoff / sqrt (INR N)),
         snd (randn N n g)).
Proof.
  intros HS Hn G disc_payoff. unfold mc_geo_asian_price.
  destruct (Nat.eqb_spec n 0); [contradiction|].
  assert (E : map (fun row => Rpower (Rprod row) (1 / INR n))
                  (rows (map_elems (fun x => exp (ln S0 + x))
                           (cumsum_axis1
                              (map_elems (log_increment r sigma (T / INR n))
                                         (fst (randn N n g))))))
              = G).
  { unfold G. cbn [rows map_elems cumsum_axis1]. rewrite !map_map.
    apply map_ext_Forall.
    eapply Forall_impl; [|apply (randn_rows_length N n g)].
    intros z Hz. cbv beta.
    apply geometric_average_of_row; [exact HS|exact Hn|].
    rewrite length_cumsum, length_map. exact Hz. }
  destruct (randn N n g) as [Z g'] eqn:EZ. cbn [fst snd] in *.
  rewrite E. reflexivity.
Qed.

Lemma mc_geo_asian_price_log_average_witness :
  let G := map (fun z =>
                  100 * exp (np_mean (cumsum (map (log_increment 0.05 0.2
                                                     (1 / INR 2)) z))))
               (rows (fst (randn 3 2 (mk_rng (fun _ => 0) 0)))) in
  let disc_payoff := map (fun p => exp (- (0.05) * 1) * p)
                         (geo_asian_payoff 100 true G) in
  mc_geo_asian_price 100 100 0.05 1 0.2 2 3 true (mk_rng (fun _ => 0) 0)
  = Ret (np_mean disc_payoff,
         1.96 * (np_std_ddof1 disc_payoff / sqrt (INR 3)),
         snd (randn 3 2 (mk_rng (fun _ => 0) 0))).
Proof.
  apply (mc_geo_asian_price_log_average 100 100 0.05 1 0.2 2 3 true
                                        (mk_rng (fun _ => 0) 0));
    [lra|discriminate].
Defined.

(** ** Scaling the spot, the strike and the barrier *)

Lemma Rsum_scale d l : Rsum (map (fun p => d * p) l) = d * Rsum l.
Proof.
  induction l as [|x l IH]; [simpl; ring|].
  change (Rsum (map (fun p => d * p) (x :: l)))
    with (d * x + Rsum (map (fun p => d * p) l)).
  change (Rsum (x :: l)) with (x + Rsum l). rewrite IH. ring.
Qed.

Lemma np_std_ddof1_scale lam l :
  0 <= lam ->
  np_std_ddof1 (map (fun p => lam * p) l) = lam * np_std_ddof1 l.
Proof.
  intro Hl. unfold np_std_ddof1.
  rewrite np_mean_scale, length_map, map_map.
  rewrite (map_ext (fun x => (lam * x - lam * np_mean l) ^ 2)
                   (fun x => lam ^ 2 * (x - np_mean l) ^ 2))
    by (intro x; ring).
  rewrite <- (map_map (fun x => (x - np_mean l) ^ 2) (fun y => lam ^ 2 * y)).
  rewrite Rsum_scale.
  unfold Rdiv. rewrite Rmult_assoc.
  rewrite sqrt_mult_alt by apply pow2_ge_0.
  rewrite sqrt_pow2 by exact Hl. reflexivity.
Qed.

Lemma last_map_scale lam l :
  last (map (fun x => lam * x) l) 0 = lam * last l 0.
Proof.
  induction l as [|x [|y l] IH].
  - simpl. ring.
  - reflexivity.
  - change (last (map (fun x => lam * x) (x :: y :: l)) 0)
      with (last (map (fun x => lam * x) (y :: l)) 0).
    rewrite IH. reflexivity.
Qed.

Lemma existsb_map {A B : Type} (f : A -> B) (p : B -> bool) (l : list A) :
  existsb p (map f l) = existsb (fun x => p (f x)) l.
Proof.
  induction l as [|x l IH]; [reflexivity|].
  cbn [map existsb]. rewrite IH. reflexivity.
Qed.

Lemma existsb_pointwise {A : Type} (p q : A -> bool) (l : list A) :
  (forall x, p x = q x) -> existsb p l = existsb q l.
Proof.
  intro H. induction l as [|x l IH]; [reflexivity|].
  cbn [existsb]. rewrite H, IH. reflexivity.
Qed.

Lemma Rleb_scale lam x y : 0 < lam -> Rleb (lam * x) (lam * y) = Rleb x y.
Proof.
  intro Hl. destruct (Rleb x y) eqn:E.
  - apply Rleb_true_iff in E. apply Rleb_true_iff. nra.
  - apply Rleb_false_iff in E. apply Rleb_false_iff. nra.
Qed.

Lemma row_payoff_scale lam S0 K r sigma dt B up knock_in z :
  0 < lam ->
  row_payoff (lam * S0) (lam * K) r sigma dt (lam * B) up knock_in z
  = lam * row_payoff S0 K r sigma dt B up knock_in z.
Proof.
  intro Hl. unfold row_payoff.
  set (cs := cumsum (map (log_increment r sigma dt) z)).
  rewrite (map_ext (fun x => lam * S0 * exp x) (fun x => lam * (S0 * exp x)))
    by (intro x; ring).
  rewrite <- (map_map (fun x => S0 * exp x) (fun y => lam * y)).
  set (prices := map (fun x => S0 * exp x) cs).
  rewrite !existsb_map, last_map_scale.
  rewrite (existsb_pointwise (fun x => Rgeb (lam * x) (lam * B))
                             (fun s => Rgeb s B))
    by (intro s; unfold Rgeb; apply Rleb_scale; exact Hl).
  rewrite (existsb_pointwise (fun x => Rleb (lam * x) (lam * B))
                             (fun s => Rleb s B))
    by (intro s; apply Rleb_scale; exact Hl).
  replace (Rmax (lam * last prices 0 - lam * K) 0)
    with (lam * Rmax (last prices 0 - K) 0).
  - destruct up, knock_in;
      match goal with |- (if ?h then _ else _) = _ => destruct h end; ring.
  - rewrite <- RmaxRmult by lra. f_equal; ring.
Qed.

(** X26.  The estimates of [mc_price] are homogeneous of degree one: on the
    same generator state, multiplying the spot, the strike and the barrier
    by lam > 0 multiplies the estimate and its half-width by lam, for each
    of the four barrier payoffs. *)
Theorem mc_price_homogeneous S0 K r sigma T M B N g up knock_in lam :
  0 < lam -> M <> 0%nat ->
  exists p ci g',
    mc_price S0 r sigma T M (barrier_payoff K B up knock_in) N g
      = Ret (p, ci, g') /\
    mc_price (lam * S0) r sigma T M
             (barrier_payoff (lam * K) (lam * B) up knock_in) N g
      = Ret (lam * p, lam * ci, g').
Proof.
  intros Hl HM. rewrite !mc_price_by_row by exact HM. cbv zeta.
  do 3 eexists. split; [reflexivity|].
  rewrite (map_ext
             (fun z => exp (- r * T)
                       * row_payoff (lam * S0) (lam * K) r sigma (T / INR M)
                                    (lam * B) up knock_in z)
             (fun z => lam * (exp (- r * T)
                              * row_payoff S0 K r sigma (T / INR M) B
                                           up knock_in z)))
    by (intro z; rewrite row_payoff_scale by exact Hl; ring).
  rewrite <- (map_map (fun z => exp (- r * T)
                                * row_payoff S0 K r sigma (T / INR M) B
                                             up knock_in z)
                      (fun y => lam * y)).
  rewrite np_mean_scale, np_std_ddof1_scale by lra.
  f_equal. f_equal. f_equal. unfold Rdiv. ring.
Qed.

Lemma mc_price_homogeneous_witness :
  exists p ci g',
    mc_price 100 0.05 0.2 1 2 (barrier_payoff 100 90 false false) 3
             (mk_rng (fun _ => 0) 0)
      = Ret (p, ci, g') /\
    mc_price (2 * 100) 0.05 0.2 1 2
             (barrier_payoff (2 * 100) (2 * 90) false false) 3
             (mk_rng (fun _ => 0) 0)
      = Ret (2 * p, 2 * ci, g').
Proof.
  apply (mc_price_homogeneous 100 100 0.05 0.2 1 2 90 3
                              (mk_rng (fun _ => 0) 0) false false 2);
    [lra|discriminate].
Defined.

(** ** A zero step count *)



(** ** The matrices of the four solvers *)

Lemma removelast_map {A B : Type} (f : A -> B) (l : list A) :
  removelast (map f l) = map f (removelast l).
Proof.
  induction l as [|x [|y l] IH]; [reflexivity|reflexivity|].
  change (removelast (map f (x :: y :: l)))
    with (f x :: removelast (map f (y :: l))).
  rewrite IH. reflexivity.
Qed.

Lemma tl_map {A B : Type} (f : A -> B) (l : list A) :
  tl (map f l) = map f (tl l).
Proof. destruct l; reflexivity. Qed.

Lemma removelast_seq a n : removelast (seq a n) = seq a (n - 1).
Proof.
  destruct n as [|n]; [reflexivity|].
  rewrite seq_S, removelast_last. f_equal. lia.
Qed.

Lemma tl_seq a n : tl (seq a n) = seq (S a) (n - 1).
Proof.
  destruct n as [|n]; [reflexivity|].
  cbn [seq tl]. f_equal. lia.
Qed.

(** X28.  For the same grid and market parameters the comparison notebook's
    [crank_nicolson], [pde_do_call_cn] and [crank_nicolson_barrier] build
    the same tridiagonal matrix for the implicit side: -alpha_i below,
    1 - beta_i on and -gamma_i above the diagonal in the row of node i.
    The matrix that the report's [crank_nicolson] hands to [solve_banded]
    is its transpose: the report stores -alpha_i and -gamma_i of node i in
    column i - 1 of the banded array, where [solve_banded] expects the
    entries of that column, so -gamma sits below and -alpha above the
    diagonal. *)
Theorem solver_matrices r sigma T M N :
  PricingNotebookPde.A r sigma T M N = ComparisonNotebook.M1 r sigma T M N /\
  PricingNotebookPde.B r sigma T M N = ComparisonNotebook.M2 r sigma T M N /\
  CrankNicolsonNotebook.A r sigma T M N = ComparisonNotebook.M1 r sigma T M N /\
  lower (ReportAppendix.banded r sigma T M N)
  = upper (ComparisonNotebook.M1 r sigma T M N) /\
  diagonal (ReportAppendix.banded r sigma T M N)
  = diagonal (ComparisonNotebook.M1 r sigma T M N) /\
  upper (ReportAppendix.banded r sigma T M N)
  = lower (ComparisonNotebook.M1 r sigma T M N).
Proof.
  assert (Eb : forall i, PricingNotebookPde.beta r sigma T N i
                         = cn_beta r sigma (T / INR N) i).
  { intro i. unfold PricingNotebookPde.beta, cn_beta, PricingNotebookPde.dt.
    generalize (T / INR N) (sigma ^ 2 * INR i ^ 2 + r). intros x y. nra. }
  assert (Eb' : forall i, ReportAppendix.beta r sigma T N i
                          = cn_beta r sigma (T / INR N) i).
  { intro i. unfold ReportAppendix.beta, cn_beta, ReportAppendix.dt.
    generalize (T / INR N) (sigma ^ 2 * INR i ^ 2 + r). intros x y. nra. }
  unfold PricingNotebookPde.A, PricingNotebookPde.B, CrankNicolsonNotebook.A,
    ComparisonNotebook.M1, ComparisonNotebook.M2, ReportAppendix.banded,
    ReportAppendix.A0, ReportAppendix.A1, ReportAppendix.A2,
    ComparisonNotebook.alpha, ComparisonNotebook.beta,
    ComparisonNotebook.gamma, ComparisonNotebook.j, ComparisonNotebook.dt,
    CrankNicolsonNotebook.a, CrankNicolsonNotebook.b, CrankNicolsonNotebook.c,
    CrankNicolsonNotebook.i, CrankNicolsonNotebook.dt.
  cbn [lower diagonal upper].
  rewrite !tl_map, !removelast_map, !tl_seq, !removelast_seq, !map_map.
  replace (M - 1 - 1)%nat with (M - 2)%nat by lia.
  split; [|split; [|split; [|split; [|split]]]].
  - f_equal. apply map_ext. intro i. rewrite Eb. reflexivity.
  - f_equal. apply map_ext. intro i. rewrite Eb. reflexivity.
  - reflexivity.
  - reflexivity.
  - apply map_ext. intro i. rewrite Eb'. reflexivity.
  - reflexivity.
Qed.

(** ** Put-call parity on simulated paths *)

Lemma Rmax_call_minus_put s K : Rmax (s - K) 0 - Rmax (K - s) 0 = s - K.
Proof.
  unfold Rmax. destruct (Rle_dec (s - K) 0), (Rle_dec (K - s) 0); lra.
Qed.

Lemma Rsum_call_minus_put (d K : R) ST :
  Rsum (map (fun p => d * p) (map (fun s => Rmax (s - K) 0) ST))
  - Rsum (map (fun p => d * p) (map (fun s => Rmax (K - s) 0) ST))
  = d * (Rsum ST - INR (length ST) * K).
Proof.
  induction ST as [|s ST IH].
  - simpl. ring.
  - change (length (s :: ST)) with (S (length ST)). rewrite S_INR.
    cbn [map]. unfold Rsum in *. cbn [fold_right].
    pose proof (Rmax_call_minus_put s K). nra.
Qed.

Lemma np_mean_call_minus_put (d K : R) ST :
  ST <> [] ->
  np_mean (map (fun p => d * p) (map (fun s => Rmax (s - K) 0) ST))
  - np_mean (map (fun p => d * p) (map (fun s => Rmax (K - s) 0) ST))
  = d * (np_mean ST - K).
Proof.
  intro Hne. unfold np_mean. rewrite !length_map.
  assert (HI : INR (length ST) <> 0).
  { apply not_0_INR. destruct ST; [contradiction|discriminate]. }
  pose proof (Rsum_call_minus_put d K ST) as E.
  apply (Rmult_eq_reg_r (INR (length ST))); [|exact HI].
  field_simplify; [|exact HI|exact HI]. lra.
Qed.

(** X29.  Put-call parity holds path by path in the Monte Carlo pricers of
    European options: from the same generator state and for positive path
    and step counts, the call estimate minus the put estimate is
    e^(-rT) (mean of the terminal prices - K), both for the report's
    [mc_european_price] and for the notebook's [mc_price_european]. *)
Theorem monte_carlo_put_call_parity
        seedfn S0 K r sigma T N_paths N_steps seed zseed g :
  N_steps <> 0%nat -> N_paths <> 0%nat ->
  (exists paths ST c ci_c p ci_p g',
     simulate_paths S0 r sigma T N_steps N_paths (reseed seedfn seed g)
       = Ret (paths, g') /\
     last_column paths = Ret ST /\
     mc_european_price seedfn S0 K r sigma T N_paths N_steps true seed g
       = Ret (c, ci_c, g') /\
     mc_european_price seedfn S0 K r sigma T N_paths N_steps false seed g
       = Ret (p, ci_p, g') /\
     c - p = exp (- r * T) * (np_mean ST - K)) /\
  (exists ST c p g',
     last_column (fst (PricingNotebook.simulated S0 r sigma T N_paths N_steps
                                                 (seedfn zseed)))
       = Ret ST /\
     PricingNotebook.mc_price_european seedfn S0 K r sigma T N_paths N_steps
                                       "call" zseed = Ret (c, g') /\
     PricingNotebook.mc_price_european seedfn S0 K r sigma T N_paths N_steps
                                       "put" zseed = Ret (p, g') /\
     c - p = exp (- r * T) * (np_mean ST - K)).
Proof.
  intros Hs Hp. split.
  - destruct (mc_european_price_eq seedfn S0 K r sigma T N_paths N_steps
                                   true seed g Hs)
      as (paths & ST & g' & Esim & EST & LST & Ec).
    destruct (mc_european_price_eq seedfn S0 K r sigma T N_paths N_steps
                                   false seed g Hs)
      as (paths2 & ST2 & g2 & Esim2 & EST2 & _ & Ep).
    rewrite Esim in Esim2. apply Ret_inj in Esim2.
    assert (paths2 = paths) as -> by congruence.
    assert (g2 = g') as -> by congruence.
    rewrite EST in EST2. apply Ret_inj in EST2. subst ST2.
    cbv zeta in Ec, Ep.
    do 7 eexists. split; [exact Esim|]. split; [exact EST|].
    split; [exact Ec|]. split; [exact Ep|].
    unfold european_payoff. apply np_mean_call_minus_put.
    intro E. subst ST. simpl in LST. lia.
  - unfold PricingNotebook.mc_price_european.
    destruct (Nat.eqb_spec N_steps 0); [contradiction|].
    destruct (simulated_spec S0 r sigma T N_paths N_steps (seedfn zseed))
      as (HM & Hc & _).
    cbv zeta in HM, Hc.
    destruct (PricingNotebook.simulated S0 r sigma T N_paths N_steps
                                        (seedfn zseed)) as [S g'].
    cbn [fst] in *. rewrite last_column_ok by (rewrite Hc; lia). cbn [bind].
    cbn [String.eqb Ascii.eqb Bool.eqb].
    do 4 eexists. split; [reflexivity|]. split; [reflexivity|].
    split; [reflexivity|].
    pose proof (np_mean_call_minus_put 1 K (map (fun row => last row 0) (rows S)))
      as E.
    rewrite !(map_ext (fun p => 1 * p) (fun p => p)) in E by (intro; ring).
    rewrite !map_id in E.
    rewrite <- Rmult_minus_distr_l, E; [ring|].
    intro C. apply (f_equal (@length R)) in C.
    rewrite length_map, HM in C. simpl in C. contradiction.
Qed.

Lemma monte_carlo_put_call_parity_witness :
  (exists paths ST c ci_c p ci_p g',
     simulate_paths 100 0.05 0.2 1 2 3
                    (reseed (fun _ => mk_rng (fun _ => 0) 0) None
                            (mk_rng (fun _ => 0) 0))
       = Ret (paths, g') /\
     last_column paths = Ret ST /\
     mc_european_price (fun _ => mk_rng (fun _ => 0) 0)
                       100 100 0.05 0.2 1 3 2 true None
                       (mk_rng (fun _ => 0) 0)
       = Ret (c, ci_c, g') /\
     mc_european_price (fun _ => mk_rng (fun _ => 0) 0)
                       100 100 0.05 0.2 1 3 2 false None
                       (mk_rng (fun _ => 0) 0)
       = Ret (p, ci_p, g') /\
     c - p = exp (- (0.05) * 1) * (np_mean ST - 100)) /\
  (exists ST c p g',
     last_column (fst (PricingNotebook.simulated
                         100 0.05 0.2 1 3 2
                         ((fun _ : Z => mk_rng (fun _ => 0) 0) 42%Z)))
       = Ret ST /\
     PricingNotebook.mc_price_european (fun _ => mk_rng (fun _ => 0) 0)
                                       100 100 0.05 0.2 1 3 2 "call" 42
       = Ret (c, g') /\
     PricingNotebook.mc_price_european (fun _ => mk_rng (fun _ => 0) 0)
                                       100 100 0.05 0.2 1 3 2 "put" 42
       = Ret (p, g') /\
     c - p = exp (- (0.05) * 1) * (np_mean ST - 100)).
Proof.
  apply (monte_carlo_put_call_parity
           (fun _ => mk_rng (fun _ => 0) 0) 100 100 0.05 0.2 1 3 2 None 42%Z
           (mk_rng (fun _ => 0) 0)); discriminate.
Defined.
